(** * curl-parser: a shallow embedding of the command parser and its properties

    The development follows [parser.go] (the current parser) and the earlier
    parser kept next to it (the one without cookie support).  Go strings are
    byte strings, modelled by [string]; Go maps by [gmap string _].  The
    functions of the Go standard library that the parser calls ([strings],
    [regexp], [net/url], [fmt.Sscanf]) are modelled in the first three
    modules, the parser itself in [Parser] and [ParserV1]. *)

From Stdlib Require Import Ascii String ZArith Lia.
From stdpp Require Import gmap strings list.

Local Open Scope string_scope.
Local Open Scope list_scope.

(** ** Bytes *)

Definition dquote : ascii := "034"%char.
Definition squote : ascii := "039"%char.
Definition LF : ascii := "010"%char.
Definition TAB : ascii := "009"%char.
Definition VT : ascii := "011"%char.
Definition FF : ascii := "012"%char.
Definition CR : ascii := "013"%char.

Definition byte_in (lo hi c : ascii) : bool := Ascii.leb lo c && Ascii.leb c hi.

Definition is_lower (c : ascii) : bool := byte_in "a" "z" c.
Definition is_upper (c : ascii) : bool := byte_in "A" "Z" c.
Definition is_digit (c : ascii) : bool := byte_in "0" "9" c.
Definition is_alpha (c : ascii) : bool := is_lower c || is_upper c.

(** ** Package [strings] *)

Module GoStrings.

(** [strip_prefix s p] is the rest of [s] behind the prefix [p]. *)
Fixpoint strip_prefix (s p : string) {struct p} : option string :=
  match p with
  | EmptyString => Some s
  | String a p' =>
      match s with
      | EmptyString => None
      | String b s' => if Ascii.eqb a b then strip_prefix s' p' else None
      end
  end.

Definition HasPrefix (s p : string) : bool :=
  match strip_prefix s p with Some _ => true | None => false end.

Definition TrimPrefix (s p : string) : string :=
  match strip_prefix s p with Some t => t | None => s end.

(** some tail of [s] is [p] *)
Fixpoint HasSuffix (s p : string) : bool :=
  String.eqb s p
  || match s with
     | EmptyString => false
     | String _ t => HasSuffix t p
     end.

(** [strings.Cut] for a separator that is not empty: the text before and
    after its first occurrence. *)
Fixpoint Cut (s sep : string) : option (string * string) :=
  match strip_prefix s sep with
  | Some after => Some (EmptyString, after)
  | None =>
      match s with
      | EmptyString => None
      | String c t =>
          match Cut t sep with
          | Some (before, after) => Some (String c before, after)
          | None => None
          end
      end
  end.

(** The text before and after the last occurrence of [sep]
    ([strings.LastIndex] and the two slices around it). *)
Fixpoint CutLast (s sep : string) : option (string * string) :=
  let here :=
    match strip_prefix s sep with
    | Some after => Some (EmptyString, after)
    | None => None
    end in
  match s with
  | EmptyString => here
  | String c t =>
      match CutLast t sep with
      | Some (before, after) => Some (String c before, after)
      | None => here
      end
  end.

Definition Contains (s sub : string) : bool :=
  match Cut s sub with Some _ => true | None => false end.

(** Number of non-overlapping occurrences of [sep] (not empty). *)
Fixpoint count_upto (n : nat) (s sep : string) : nat :=
  match n with
  | O => O
  | S n' =>
      match Cut s sep with
      | Some (_, after) => S (count_upto n' after sep)
      | None => O
      end
  end.

Definition Count (s sep : string) : nat := count_upto (String.length s) s sep.

(** At most [n] cuts at [sep], from the left. *)
Fixpoint split_upto (n : nat) (s sep : string) : list string :=
  match n with
  | O => [s]
  | S n' =>
      match Cut s sep with
      | Some (before, after) => before :: split_upto n' after sep
      | None => [s]
      end
  end.

(** [strings.SplitN(s, sep, n)] for [n > 0] and [strings.Split(s, sep)],
    [sep] not empty.  Every cut removes at least one byte, so
    [String.length s] cuts are all there can be. *)
Definition SplitN (s sep : string) (n : nat) : list string :=
  match n with
  | O => []
  | S n' => split_upto n' s sep
  end.

Definition Split (s sep : string) : list string :=
  split_upto (String.length s) s sep.

Fixpoint Join (elems : list string) (sep : string) : string :=
  match elems with
  | [] => EmptyString
  | [x] => x
  | x :: rest => x +:+ sep +:+ Join rest sep
  end.

Fixpoint replace_upto (n : nat) (s old new : string) : string :=
  match n with
  | O => s
  | S n' =>
      match Cut s old with
      | Some (before, after) => before +:+ new +:+ replace_upto n' after old new
      | None => s
      end
  end.

(** [strings.ReplaceAll(s, old, new)], [old] not empty. *)
Definition ReplaceAll (s old new : string) : string :=
  replace_upto (String.length s) s old new.

Definition upper_byte (c : ascii) : ascii :=
  if is_lower c then ascii_of_nat (nat_of_ascii c - 32) else c.

Definition lower_byte (c : ascii) : ascii :=
  if is_upper c then ascii_of_nat (nat_of_ascii c + 32) else c.

(** [strings.ToUpper] and [strings.ToLower] on the ASCII letters; the
    parser applies them to matches of [\w+] and to URL schemes only. *)
Fixpoint ToUpper (s : string) : string :=
  match s with
  | EmptyString => EmptyString
  | String c t => String (upper_byte c) (ToUpper t)
  end.

Fixpoint ToLower (s : string) : string :=
  match s with
  | EmptyString => EmptyString
  | String c t => String (lower_byte c) (ToLower t)
  end.

Definition bytes (l : list nat) : string :=
  string_of_list_ascii (map ascii_of_nat l).

(** The UTF-8 encodings of the code points with [unicode.IsSpace]:
    U+0009..U+000D, U+0020, U+0085, U+00A0, U+1680, U+2000..U+200A,
    U+2028, U+2029, U+202F, U+205F, U+3000. *)
Definition space_encodings : list string :=
  map bytes
    [ [9]; [10]; [11]; [12]; [13]; [32];
      [194; 133]; [194; 160]; [225; 154; 128];
      [226; 128; 128]; [226; 128; 129]; [226; 128; 130]; [226; 128; 131];
      [226; 128; 132]; [226; 128; 133]; [226; 128; 134]; [226; 128; 135];
      [226; 128; 136]; [226; 128; 137]; [226; 128; 138];
      [226; 128; 168]; [226; 128; 169]; [226; 128; 175];
      [226; 129; 159]; [227; 128; 128] ].

Fixpoint strip_any (encs : list string) (s : string) : option string :=
  match encs with
  | [] => None
  | e :: rest =>
      match strip_prefix s e with
      | Some t => Some t
      | None => strip_any rest s
      end
  end.

Fixpoint trim_left_upto (n : nat) (encs : list string) (s : string) : string :=
  match n with
  | O => s
  | S n' =>
      match strip_any encs s with
      | Some t => trim_left_upto n' encs t
      | None => s
      end
  end.

Definition trim_left (encs : list string) (s : string) : string :=
  trim_left_upto (String.length s) encs s.

(** [strings.TrimSpace]: leading, then trailing white space (as Unicode
    defines it) removed.  A trailing space is found by decoding the last
    rune, which succeeds exactly when the text ends with the encoding. *)
Definition TrimSpace (s : string) : string :=
  String.rev (trim_left (map String.rev space_encodings)
                (String.rev (trim_left space_encodings s))).

End GoStrings.

(** ** Package [regexp]

    Go's matcher returns, among the matches that start leftmost, the one a
    backtracking matcher finds first.  [run] is that backtracking matcher,
    written with a success continuation.  The parser's patterns use bytes
    below 128 for everything they name, so matching bytes and matching
    UTF-8 runes coincide on them. *)

Module Regexp.

Inductive regex : Type :=
| Empty                              (* the empty pattern *)
| Cls (p : ascii -> bool)            (* one byte of a class *)
| Cat (r1 r2 : regex)                (* r1 r2 *)
| Alt (r1 r2 : regex)                (* r1|r2, r1 preferred *)
| Rep (greedy : bool) (r : regex)    (* r* and r*? *)
| Cap (i : nat) (r : regex)          (* capturing group number i *)
| EndText.                           (* $ without the m flag *)

(** a literal text, r+, r+?, r? *)
Fixpoint Lit (s : string) : regex :=
  match s with
  | EmptyString => Empty
  | String c t => Cat (Cls (Ascii.eqb c)) (Lit t)
  end.

Definition Plus (greedy : bool) (r : regex) : regex := Cat r (Rep greedy r).
Definition Opt (r : regex) : regex := Alt r Empty.

(** Perl classes of RE2: ASCII only. *)
Definition cls_s (c : ascii) : bool :=
  Ascii.eqb c TAB || Ascii.eqb c LF || Ascii.eqb c FF || Ascii.eqb c CR
  || Ascii.eqb c " ".
Definition cls_w (c : ascii) : bool :=
  is_digit c || is_upper c || is_lower c || Ascii.eqb c "_".
Definition cls_d (c : ascii) : bool := is_digit c.
(** [.] without the s flag *)
Definition cls_dot (c : ascii) : bool := negb (Ascii.eqb c LF).
Definition cls_not (p : ascii -> bool) (c : ascii) : bool := negb (p c).
Definition cls_or (p q : ascii -> bool) (c : ascii) : bool := p c || q c.
Definition cls_quote (c : ascii) : bool := Ascii.eqb c squote || Ascii.eqb c dquote.

(** What of [s] was read when [rest] is left. *)
Definition consumed (s rest : string) : string :=
  substring 0 (String.length s - String.length rest) s.

Section Run.
Context {A : Type}.

(** The rounds of a repetition: [body] is the matcher of one round, [n]
    bounds the number of rounds, [k] is what follows the repetition.  A
    round that reads nothing is not repeated (no pattern of the parser has
    such a round), so every round shortens the text and [String.length s]
    rounds are all there can be. *)
Fixpoint iterate
    (body : list string -> string -> (list string -> string -> option A) -> option A)
    (greedy : bool) (k : list string -> string -> option A)
    (n : nat) (cs : list string) (s : string) {struct n} : option A :=
  match n with
  | O => k cs s
  | S n' =>
      let more (_ : unit) :=
        body cs s (fun cs' s' =>
          if Nat.ltb (String.length s') (String.length s)
          then iterate body greedy k n' cs' s' else None) in
      if greedy
      then match more tt with Some x => Some x | None => k cs s end
      else match k cs s with Some x => Some x | None => more tt end
  end.

(** [run r cs s k]: match [r] at the start of [s] with the groups [cs]
    set so far, then go on with [k]; alternatives are tried in the
    order of preference. *)
Fixpoint run (r : regex) (cs : list string) (s : string)
    (k : list string -> string -> option A) : option A :=
  match r with
  | Empty => k cs s
  | Cls p =>
      match s with
      | EmptyString => None
      | String c t => if p c then k cs t else None
      end
  | Cat r1 r2 => run r1 cs s (fun cs' s' => run r2 cs' s' k)
  | Alt r1 r2 =>
      match run r1 cs s k with
      | Some x => Some x
      | None => run r2 cs s k
      end
  | Rep greedy r1 => iterate (run r1) greedy k (String.length s) cs s
  | Cap i r1 => run r1 cs s (fun cs' s' => k (<[i := consumed s s']> cs') s')
  | EndText =>
      match s with
      | EmptyString => k cs s
      | String _ _ => None
      end
  end.
End Run.

(** A compiled pattern: the program and its number of groups. *)
Record Regexp : Type := MustCompile { prog : regex; NumSubexp : nat }.

(** The first match at the start of [s]: groups (group 0 is the whole
    match) and the rest of the text. *)
Definition match_here (re : Regexp) (s : string) : option (list string * string) :=
  run (prog re) (replicate (S (NumSubexp re)) EmptyString) s
    (fun cs s' => Some (<[0 := consumed s s']> cs, s')).

(** The leftmost match: where it starts, its groups, the rest. *)
Fixpoint find (re : Regexp) (s : string) : option (string * list string * string) :=
  match match_here re s with
  | Some (cs, s') => Some (s, cs, s')
  | None =>
      match s with
      | EmptyString => None
      | String _ t => find re t
      end
  end.

(** [FindStringSubmatch]: the groups of the leftmost match, [nil] when
    there is none. *)
Definition FindStringSubmatch (re : Regexp) (s : string) : list string :=
  match find re s with
  | Some (_, cs, _) => cs
  | None => []
  end.

(** [FindAllStringSubmatch(s, -1)]: the successive matches.  [prev] is
    the length of the text left at the end of the previous match; an
    empty match right behind a match is dropped, and the search then
    moves one step on. *)
Fixpoint find_all (n : nat) (re : Regexp) (s : string) (prev : option nat)
    : list (list string) :=
  match n with
  | O => []
  | S n' =>
      match find re s with
      | None => []
      | Some (start, cs, rest) =>
          if Nat.eqb (String.length rest) (String.length s) then
            let this :=
              if bool_decide (prev = Some (String.length start)) then [] else [cs] in
            match s with
            | EmptyString => this
            | String _ t => this ++ find_all n' re t (Some (String.length rest))
            end
          else cs :: find_all n' re rest (Some (String.length rest))
      end
  end.

Definition FindAllStringSubmatch (re : Regexp) (s : string) : list (list string) :=
  find_all (S (String.length s)) re s None.

End Regexp.

(** ** Package [net/url] and [fmt.Sscanf]

    [url.Parse] and [URL.Query] as the parser uses them: the error value
    is not looked at, only whether there is one.  [RawPath], [RawFragment]
    and [OmitHost] are not kept, the parser never reads them. *)

Module URL.
Import GoStrings.

Inductive encoding : Type :=
| encodePath | encodeHost | encodeZone | encodeUserPassword
| encodeQueryComponent | encodeFragment.

Definition is_host_mode (mode : encoding) : bool :=
  match mode with encodeHost | encodeZone => true | _ => false end.

Definition byte_of (s : string) (c : ascii) : bool :=
  existsb (Ascii.eqb c) (list_ascii_of_string s).

Definition ishex (c : ascii) : bool :=
  is_digit c || byte_in "a" "f" c || byte_in "A" "F" c.

Definition unhex (c : ascii) : nat :=
  if is_digit c then nat_of_ascii c - 48
  else if byte_in "a" "f" c then nat_of_ascii c - 97 + 10
  else if byte_in "A" "F" c then nat_of_ascii c - 65 + 10
  else 0.

(** [shouldEscape(c, encodeHost)] *)
Definition shouldEscapeHost (c : ascii) : bool :=
  negb (is_alpha c || is_digit c
        || byte_of "!$&'()*+,;=:[]<>" c || Ascii.eqb c dquote
        || byte_of "-_.~" c).

(** [unescape(s, mode)]: the checks of the first pass and the decoding of
    the second, in one pass; [None] is an error. *)
Fixpoint unescape (mode : encoding) (s : string) : option string :=
  match s with
  | EmptyString => Some EmptyString
  | String c t =>
      if Ascii.eqb c "%" then
        match t with
        | String a (String b t') =>
            let v := ascii_of_nat (unhex a * 16 + unhex b) in
            let is25 := Ascii.eqb a "2" && Ascii.eqb b "5" in
            if negb (ishex a && ishex b) then None
            else if match mode with encodeHost => true | _ => false end
                    && Nat.ltb (unhex a) 8 && negb is25 then None
            else if match mode with encodeZone => true | _ => false end
                    && negb is25 && negb (Ascii.eqb v " ") && shouldEscapeHost v
            then None
            else String v <$> unescape mode t'
        | _ => None
        end
      else if Ascii.eqb c "+" then
        String (match mode with encodeQueryComponent => " "%char | _ => c end)
          <$> unescape mode t
      else if is_host_mode mode && Nat.ltb (nat_of_ascii c) 128 && shouldEscapeHost c
      then None
      else String c <$> unescape mode t
  end.

Definition QueryUnescape (s : string) : option string :=
  unescape encodeQueryComponent s.

Definition stringContainsCTLByte (s : string) : bool :=
  existsb (fun c => Nat.ltb (nat_of_ascii c) 32 || Nat.eqb (nat_of_ascii c) 127)
    (list_ascii_of_string s).

Inductive scheme_result : Type :=
| NoScheme | MissingScheme | Scheme_ (scheme rest : string).

Fixpoint scan_scheme (first : bool) (s : string) : scheme_result :=
  match s with
  | EmptyString => NoScheme
  | String c t =>
      let go_on :=
        match scan_scheme false t with
        | Scheme_ sc rest => Scheme_ (String c sc) rest
        | other => other
        end in
      if is_alpha c then go_on
      else if is_digit c || byte_of "+-." c then
        if first then NoScheme else go_on
      else if Ascii.eqb c ":" then
        if first then MissingScheme else Scheme_ EmptyString t
      else NoScheme
  end.

(** [getScheme]: the scheme and what is behind its colon; [None] is the
    error of a leading colon. *)
Definition getScheme (rawURL : string) : option (string * string) :=
  match scan_scheme true rawURL with
  | NoScheme => Some (EmptyString, rawURL)
  | MissingScheme => None
  | Scheme_ sc rest => Some (sc, rest)
  end.

Definition validOptionalPort (port : string) : bool :=
  match port with
  | EmptyString => true
  | String c digits => Ascii.eqb c ":" && forallb is_digit (list_ascii_of_string digits)
  end.

Definition validUserinfo (s : string) : bool :=
  forallb (fun c => is_alpha c || is_digit c || byte_of "-._:~!$&'()*+,;=%@" c)
    (list_ascii_of_string s).

Definition parseHost (host : string) : option string :=
  if HasPrefix host "[" then
    match CutLast host "]" with
    | None => None
    | Some (inside, colonPort) =>
        if negb (validOptionalPort colonPort) then None
        else
          match Cut inside "%25" with
          | Some (h1, zone) =>
              h1' ← unescape encodeHost h1;
              h2' ← unescape encodeZone ("%25" +:+ zone);
              h3' ← unescape encodeHost ("]" +:+ colonPort);
              Some (h1' +:+ h2' +:+ h3')
          | None => unescape encodeHost host
          end
    end
  else
    match CutLast host ":" with
    | Some (_, port) =>
        if validOptionalPort (":" +:+ port) then unescape encodeHost host else None
    | None => unescape encodeHost host
    end.

(** The user and the password, when there is a colon. *)
Definition Userinfo : Type := (string * option string)%type.

Definition parseAuthority (authority : string) : option (option Userinfo * string) :=
  match CutLast authority "@" with
  | None => host ← parseHost authority; Some (None, host)
  | Some (userinfo, hostport) =>
      host ← parseHost hostport;
      if negb (validUserinfo userinfo) then None
      else
        match Cut userinfo ":" with
        | None =>
            u ← unescape encodeUserPassword userinfo;
            Some (Some (u, None), host)
        | Some (username, password) =>
            u ← unescape encodeUserPassword username;
            p ← unescape encodeUserPassword password;
            Some (Some (u, Some p), host)
        end
  end.

Record URL : Type := mkURL {
  Scheme : string;
  Opaque : string;
  User : option Userinfo;
  Host : string;
  Path : string;
  ForceQuery : bool;
  RawQuery : string;
  Fragment : string
}.

Definition drop_last (s : string) : string :=
  substring 0 (String.length s - 1) s.

(** [parse(rawURL, false)] *)
Definition parse (rawURL : string) : option URL :=
  if stringContainsCTLByte rawURL then None
  else if String.eqb rawURL "*" then
    Some (mkURL EmptyString EmptyString None EmptyString "*" false EmptyString EmptyString)
  else
    '(scheme, rest) ← getScheme rawURL;
    let scheme := ToLower scheme in
    let '(rest, force, rawQuery) :=
      if HasSuffix rest "?" && Nat.eqb (Count rest "?") 1
      then (drop_last rest, true, EmptyString)
      else match Cut rest "?" with
           | Some (before, after) => (before, false, after)
           | None => (rest, false, EmptyString)
           end in
    if negb (HasPrefix rest "/") && negb (String.eqb scheme EmptyString) then
      Some (mkURL scheme rest None EmptyString EmptyString force rawQuery EmptyString)
    else if negb (HasPrefix rest "/")
            && Contains (match Cut rest "/" with Some (seg, _) => seg | None => rest end) ":"
    then None
    else
      '(user, host, rest) ←
        (if (negb (String.eqb scheme EmptyString) || negb (HasPrefix rest "///"))
            && HasPrefix rest "//"
         then
           let rest2 := TrimPrefix rest "//" in
           let '(authority, rest3) :=
             match Cut rest2 "/" with
             | Some (a, p) => (a, "/" +:+ p)
             | None => (rest2, EmptyString)
             end in
           '(user, host) ← parseAuthority authority;
           Some (user, host, rest3)
         else Some (None, EmptyString, rest));
      path ← unescape encodePath rest;
      Some (mkURL scheme EmptyString user host path force rawQuery EmptyString).

(** [url.Parse] *)
Definition Parse (rawURL : string) : option URL :=
  let '(u, frag) :=
    match Cut rawURL "#" with
    | Some (u, frag) => (u, frag)
    | None => (rawURL, EmptyString)
    end in
  url ← parse u;
  if String.eqb frag EmptyString then Some url
  else
    f ← unescape encodeFragment frag;
    Some (mkURL (Scheme url) (Opaque url) (User url) (Host url) (Path url)
            (ForceQuery url) (RawQuery url) f).

(** [url.Values] *)
Abbreviation Values := (gmap string (list string)).

(** The loop of [parseQuery]; [n] bounds its rounds. *)
Fixpoint parseQuery (n : nat) (m : Values) (query : string) : Values :=
  match n with
  | O => m
  | S n' =>
      if String.eqb query EmptyString then m
      else
        let '(key, query') :=
          match Cut query "&" with
          | Some (k, q) => (k, q)
          | None => (query, EmptyString)
          end in
        if Contains key ";" then parseQuery n' m query'
        else if String.eqb key EmptyString then parseQuery n' m query'
        else
          let '(key, value) :=
            match Cut key "=" with
            | Some (k, v) => (k, v)
            | None => (key, EmptyString)
            end in
          match QueryUnescape key with
          | None => parseQuery n' m query'
          | Some key =>
              match QueryUnescape value with
              | None => parseQuery n' m query'
              | Some value =>
                  parseQuery n' (<[key := default [] (m !! key) ++ [value]]> m) query'
              end
          end
  end.

(** [u.Query()]: the error of [ParseQuery] is dropped.  Every round
    takes at least one byte off a query that is not empty. *)
Definition Query (u : URL) : Values :=
  parseQuery (S (String.length (RawQuery u))) ∅ (RawQuery u).

(** [fmt.Sscanf(tok, "%d", &field)] on a run of decimal digits, with a
    64-bit [int]: a value that does not fit leaves the field as it is. *)
Definition digit_value (c : ascii) : Z := Z.of_nat (nat_of_ascii c - 48).

Fixpoint decimal (acc : Z) (s : string) : Z :=
  match s with
  | EmptyString => acc
  | String c t => decimal (10 * acc + digit_value c) t
  end.

Definition Sscanf_d (tok : string) (field : Z) : Z :=
  let v := decimal 0 tok in
  if (v <=? 9223372036854775807)%Z then v else field.

End URL.

(** ** The patterns of the parser

    Each definition is the Go pattern of the same name, piece by piece.
    [ws] is [\s+], [quoted1 i] a value between single quotes in group [i],
    [quoted2 i] the same between double quotes, [word i] a run without
    white space, [bounded i] the unquoted value that no option flag, end of
    text or address follows into. *)

Module Patterns.
Import Regexp.

Fixpoint Seq (rs : list regex) : regex :=
  match rs with
  | [] => Empty
  | [r] => r
  | r :: rest => Cat r (Seq rest)
  end.

Fixpoint Alts (rs : list regex) : regex :=
  match rs with
  | [] => Empty
  | [r] => r
  | r :: rest => Alt r (Alts rest)
  end.

Definition ws : regex := Plus true (Cls cls_s).
Definition DQ : regex := Cls (Ascii.eqb dquote).
Definition SQ : regex := Cls (Ascii.eqb squote).

Definition not_squote : ascii -> bool := cls_not (Ascii.eqb squote).
Definition not_dquote : ascii -> bool := cls_not (Ascii.eqb dquote).
Definition not_space : ascii -> bool := cls_not cls_s.
(** the class of bytes that are no white space and no quote *)
Definition url_byte : ascii -> bool := cls_not (cls_or cls_s cls_quote).
(** the class of bytes that are no white space and no dash *)
Definition not_space_dash : ascii -> bool := cls_not (cls_or cls_s (Ascii.eqb "-")).

Definition quoted1 (i : nat) : regex := Seq [SQ; Cap i (Rep true (Cls not_squote)); SQ].
Definition quoted2 (i : nat) : regex := Seq [DQ; Cap i (Rep true (Cls not_dquote)); DQ].
Definition word (i : nat) : regex := Cap i (Plus true (Cls not_space)).

(** http, an optional s, ://, then one or more [url_byte] *)
Definition address : regex :=
  Seq [Lit "http"; Opt (Lit "s"); Lit "://"; Plus true (Cls url_byte)].
Definition address_start : regex := Seq [Lit "http"; Opt (Lit "s"); Lit "://"].

(** a first byte that is no space and no dash, a run without space, then
    lazily more such words, each behind white space *)
Definition bounded (i : nat) : regex :=
  Cap i (Seq [Cls not_space_dash; Rep true (Cls not_space);
              Rep false (Seq [ws; Cls not_space_dash; Rep true (Cls not_space)])]).

Definition next_flag_end_or_address : regex :=
  Alts [Seq [ws; Lit "-"]; EndText; Seq [ws; address_start]].
Definition next_flag_or_end : regex :=
  Alts [Seq [ws; Lit "-"]; EndText].

(** an optional quote, the address in group 1, an optional quote in group 2 *)
Definition urlRegex : Regexp :=
  MustCompile (Seq [Alts [DQ; SQ; Empty]; Cap 1 address; Cap 2 (Alts [DQ; SQ; Empty])]) 2.
Definition urlRegexLoose : Regexp := MustCompile (Cap 1 address) 1.

Definition methodRegex : Regexp :=
  MustCompile (Seq [Lit "-X"; ws; Cap 1 (Plus true (Cls cls_w))]) 1.
Definition requestRegex : Regexp :=
  MustCompile (Seq [Lit "--request"; ws; Cap 1 (Plus true (Cls cls_w))]) 1.

Definition headerRegex : Regexp :=
  MustCompile (Seq [Alt (Lit "-H") (Lit "--header"); ws;
                    Alts [quoted1 1; quoted2 2; word 3]]) 3.

Definition data_flag : regex := Alt (Lit "--data") (Lit "-d").
Definition singleQuoteRegex : Regexp := MustCompile (Seq [data_flag; ws; quoted1 1]) 1.
Definition doubleQuoteRegex : Regexp := MustCompile (Seq [data_flag; ws; quoted2 1]) 1.
(** --data-raw, white space, an optional quote, lazily any bytes of the
    line in group 1, an optional quote, end of text *)
Definition dataRawRegex : Regexp :=
  MustCompile (Seq [Lit "--data-raw"; ws; Opt (Cls cls_quote);
                    Cap 1 (Rep false (Cls cls_dot)); Opt (Cls cls_quote); EndText]) 1.
Definition noQuoteRegex : Regexp := MustCompile (Seq [data_flag; ws; word 1]) 1.
Definition formRegex : Regexp :=
  MustCompile (Seq [Alt (Lit "--form") (Lit "-F"); ws;
                    Alts [quoted1 1; quoted2 2; word 3]]) 3.

Definition cookie_flag : regex := Alt (Lit "-b") (Lit "--cookie").
Definition cookieSingleQuoteRegex : Regexp := MustCompile (Seq [cookie_flag; ws; quoted1 1]) 1.
Definition cookieDoubleQuoteRegex : Regexp := MustCompile (Seq [cookie_flag; ws; quoted2 1]) 1.
Definition cookieNoQuoteRegex : Regexp :=
  MustCompile (Seq [cookie_flag; ws; bounded 1; next_flag_end_or_address]) 1.

(** the shape shared by the scalar options: flag, white space, then a
    quoted value or a bounded one with what must follow it *)
Definition option_value (flag follow : regex) : Regexp :=
  MustCompile (Seq [flag; ws; Alts [quoted1 1; quoted2 2; Seq [bounded 3; follow]]]) 3.

Definition userAgentRegex : Regexp :=
  option_value (Alt (Lit "-A") (Lit "--user-agent")) next_flag_end_or_address.
Definition authRegex : Regexp :=
  option_value (Alt (Lit "-u") (Lit "--user")) next_flag_end_or_address.
Definition refererRegex : Regexp := option_value (Lit "--referer") next_flag_or_end.
Definition proxyRegex : Regexp := option_value (Lit "--proxy") next_flag_or_end.
Definition cacertRegex : Regexp := option_value (Lit "--cacert") next_flag_end_or_address.
Definition cookieJarRegex : Regexp :=
  option_value (Alt (Lit "-c") (Lit "--cookie-jar")) next_flag_end_or_address.

Definition connectTimeoutRegex : Regexp :=
  MustCompile (Seq [Lit "--connect-timeout"; ws; Cap 1 (Plus true (Cls cls_d))]) 1.
Definition maxTimeRegex : Regexp :=
  MustCompile (Seq [Lit "--max-time"; ws; Cap 1 (Plus true (Cls cls_d))]) 1.

End Patterns.

(** ** The parser of [parser.go] *)

Module Parser.
Import GoStrings Regexp Patterns.

Record HTTPRequest : Type := mkHTTPRequest {
  Method : string;
  URL : string;
  BaseURL : string;
  Path : string;
  Headers : gmap string string;
  Body : string;
  Query : gmap string string;
  RawCookie : string;
  ParsedCookies : gmap string string;
  UserAgent : string;
  Auth : string;
  Referer : string;
  Proxy : string;
  ConnectTimeout : Z;
  MaxTime : Z;
  Insecure : bool;
  CACert : string;
  CookieJar : string;
  FollowRedirects : bool
}.

(** the record [Parse] starts from: empty maps, zero values *)
Definition new_request : HTTPRequest :=
  mkHTTPRequest EmptyString EmptyString EmptyString EmptyString ∅ EmptyString ∅
    EmptyString ∅ EmptyString EmptyString EmptyString EmptyString 0 0 false
    EmptyString EmptyString false.

Definition nonempty (s : string) : bool := negb (String.eqb s EmptyString).

Definition extractURL (cmd : string) : option string :=
  match FindStringSubmatch urlRegex cmd with
  | _ :: m1 :: _ => Some m1
  | _ =>
      match FindStringSubmatch urlRegexLoose cmd with
      | _ :: m1 :: _ => Some m1
      | _ => None
      end
  end.

Definition extractMethod (cmd : string) : string :=
  match FindStringSubmatch methodRegex cmd with
  | _ :: m1 :: _ => ToUpper m1
  | _ =>
      match FindStringSubmatch requestRegex cmd with
      | _ :: m1 :: _ => ToUpper m1
      | _ =>
          if Contains cmd "--data" || Contains cmd "-d" then "POST"
          else if Contains cmd "--form" || Contains cmd "-F" then "POST"
          else "GET"
      end
  end.

(** the first of the groups 1 to 3 that is not empty, else the empty text *)
Definition first_group (m : list string) : string :=
  match m with
  | _ :: g1 :: g2 :: g3 :: _ =>
      if nonempty g1 then g1 else if nonempty g2 then g2 else g3
  | _ => EmptyString
  end.

(** one round of the loop of [extractHeaders] *)
Definition add_header (headers : gmap string string) (m : list string)
    : gmap string string :=
  let header := first_group m in
  if nonempty header then
    match SplitN header ":" 2 with
    | [name; value] => <[TrimSpace name := TrimSpace value]> headers
    | _ => headers
    end
  else headers.

Definition extractHeaders_into (cmd : string) (headers : gmap string string)
    : gmap string string :=
  foldl add_header headers (FindAllStringSubmatch headerRegex cmd).

Definition extractBody (cmd : string) : string :=
  match FindStringSubmatch singleQuoteRegex cmd with
  | _ :: m1 :: _ => m1
  | _ =>
  match FindStringSubmatch doubleQuoteRegex cmd with
  | _ :: m1 :: _ => m1
  | _ =>
  match FindStringSubmatch dataRawRegex cmd with
  | _ :: m1 :: _ => m1
  | _ =>
  match FindStringSubmatch noQuoteRegex cmd with
  | _ :: m1 :: _ => m1
  | _ =>
  match FindAllStringSubmatch formRegex cmd with
  | [] => EmptyString
  | formMatches => Join (filter (fun s => nonempty s = true) (map first_group formMatches)) "&"
  end end end end end.

(** the loop of [extractQueryParams] over the parsed query *)
Definition first_values (query : URL.Values) (into : gmap string string)
    : gmap string string :=
  map_fold (fun key values acc =>
              match values with
              | v :: _ => <[key := v]> acc
              | [] => acc
              end) into query.

Definition extractQueryParams_into (url : string) (into : gmap string string)
    : gmap string string :=
  match URL.Parse url with
  | None => into
  | Some parsedURL => first_values (URL.Query parsedURL) into
  end.

(** assignments to the fields of the record *)
Definition set_Method (v : string) (req : HTTPRequest) : HTTPRequest :=
  mkHTTPRequest v (URL req) (BaseURL req) (Path req) (Headers req) (Body
    req) (Query req) (RawCookie req) (ParsedCookies req) (UserAgent req)
    (Auth req) (Referer req) (Proxy req) (ConnectTimeout req) (MaxTime req)
    (Insecure req) (CACert req) (CookieJar req) (FollowRedirects req).
Definition set_URL (v : string) (req : HTTPRequest) : HTTPRequest :=
  mkHTTPRequest (Method req) v (BaseURL req) (Path req) (Headers req) (Body
    req) (Query req) (RawCookie req) (ParsedCookies req) (UserAgent req)
    (Auth req) (Referer req) (Proxy req) (ConnectTimeout req) (MaxTime req)
    (Insecure req) (CACert req) (CookieJar req) (FollowRedirects req).
Definition set_BaseURL (v : string) (req : HTTPRequest) : HTTPRequest :=
  mkHTTPRequest (Method req) (URL req) v (Path req) (Headers req) (Body req)
    (Query req) (RawCookie req) (ParsedCookies req) (UserAgent req) (Auth
    req) (Referer req) (Proxy req) (ConnectTimeout req) (MaxTime req)
    (Insecure req) (CACert req) (CookieJar req) (FollowRedirects req).
Definition set_Path (v : string) (req : HTTPRequest) : HTTPRequest :=
  mkHTTPRequest (Method req) (URL req) (BaseURL req) v (Headers req) (Body
    req) (Query req) (RawCookie req) (ParsedCookies req) (UserAgent req)
    (Auth req) (Referer req) (Proxy req) (ConnectTimeout req) (MaxTime req)
    (Insecure req) (CACert req) (CookieJar req) (FollowRedirects req).
Definition set_Headers (v : gmap string string) (req : HTTPRequest) : HTTPRequest :=
  mkHTTPRequest (Method req) (URL req) (BaseURL req) (Path req) v (Body req)
    (Query req) (RawCookie req) (ParsedCookies req) (UserAgent req) (Auth
    req) (Referer req) (Proxy req) (ConnectTimeout req) (MaxTime req)
    (Insecure req) (CACert req) (CookieJar req) (FollowRedirects req).
Definition set_Body (v : string) (req : HTTPRequest) : HTTPRequest :=
  mkHTTPRequest (Method req) (URL req) (BaseURL req) (Path req) (Headers
    req) v (Query req) (RawCookie req) (ParsedCookies req) (UserAgent req)
    (Auth req) (Referer req) (Proxy req) (ConnectTimeout req) (MaxTime req)
    (Insecure req) (CACert req) (CookieJar req) (FollowRedirects req).
Definition set_Query (v : gmap string string) (req : HTTPRequest) : HTTPRequest :=
  mkHTTPRequest (Method req) (URL req) (BaseURL req) (Path req) (Headers
    req) (Body req) v (RawCookie req) (ParsedCookies req) (UserAgent req)
    (Auth req) (Referer req) (Proxy req) (ConnectTimeout req) (MaxTime req)
    (Insecure req) (CACert req) (CookieJar req) (FollowRedirects req).
Definition set_RawCookie (v : string) (req : HTTPRequest) : HTTPRequest :=
  mkHTTPRequest (Method req) (URL req) (BaseURL req) (Path req) (Headers
    req) (Body req) (Query req) v (ParsedCookies req) (UserAgent req) (Auth
    req) (Referer req) (Proxy req) (ConnectTimeout req) (MaxTime req)
    (Insecure req) (CACert req) (CookieJar req) (FollowRedirects req).
Definition set_ParsedCookies (v : gmap string string) (req : HTTPRequest) : HTTPRequest :=
  mkHTTPRequest (Method req) (URL req) (BaseURL req) (Path req) (Headers
    req) (Body req) (Query req) (RawCookie req) v (UserAgent req) (Auth req)
    (Referer req) (Proxy req) (ConnectTimeout req) (MaxTime req) (Insecure
    req) (CACert req) (CookieJar req) (FollowRedirects req).
Definition set_UserAgent (v : string) (req : HTTPRequest) : HTTPRequest :=
  mkHTTPRequest (Method req) (URL req) (BaseURL req) (Path req) (Headers
    req) (Body req) (Query req) (RawCookie req) (ParsedCookies req) v (Auth
    req) (Referer req) (Proxy req) (ConnectTimeout req) (MaxTime req)
    (Insecure req) (CACert req) (CookieJar req) (FollowRedirects req).
Definition set_Auth (v : string) (req : HTTPRequest) : HTTPRequest :=
  mkHTTPRequest (Method req) (URL req) (BaseURL req) (Path req) (Headers
    req) (Body req) (Query req) (RawCookie req) (ParsedCookies req)
    (UserAgent req) v (Referer req) (Proxy req) (ConnectTimeout req)
    (MaxTime req) (Insecure req) (CACert req) (CookieJar req)
    (FollowRedirects req).
Definition set_Referer (v : string) (req : HTTPRequest) : HTTPRequest :=
  mkHTTPRequest (Method req) (URL req) (BaseURL req) (Path req) (Headers
    req) (Body req) (Query req) (RawCookie req) (ParsedCookies req)
    (UserAgent req) (Auth req) v (Proxy req) (ConnectTimeout req) (MaxTime
    req) (Insecure req) (CACert req) (CookieJar req) (FollowRedirects req).
Definition set_Proxy (v : string) (req : HTTPRequest) : HTTPRequest :=
  mkHTTPRequest (Method req) (URL req) (BaseURL req) (Path req) (Headers
    req) (Body req) (Query req) (RawCookie req) (ParsedCookies req)
    (UserAgent req) (Auth req) (Referer req) v (ConnectTimeout req) (MaxTime
    req) (Insecure req) (CACert req) (CookieJar req) (FollowRedirects req).
Definition set_ConnectTimeout (v : Z) (req : HTTPRequest) : HTTPRequest :=
  mkHTTPRequest (Method req) (URL req) (BaseURL req) (Path req) (Headers
    req) (Body req) (Query req) (RawCookie req) (ParsedCookies req)
    (UserAgent req) (Auth req) (Referer req) (Proxy req) v (MaxTime req)
    (Insecure req) (CACert req) (CookieJar req) (FollowRedirects req).
Definition set_MaxTime (v : Z) (req : HTTPRequest) : HTTPRequest :=
  mkHTTPRequest (Method req) (URL req) (BaseURL req) (Path req) (Headers
    req) (Body req) (Query req) (RawCookie req) (ParsedCookies req)
    (UserAgent req) (Auth req) (Referer req) (Proxy req) (ConnectTimeout
    req) v (Insecure req) (CACert req) (CookieJar req) (FollowRedirects req).
Definition set_Insecure (v : bool) (req : HTTPRequest) : HTTPRequest :=
  mkHTTPRequest (Method req) (URL req) (BaseURL req) (Path req) (Headers
    req) (Body req) (Query req) (RawCookie req) (ParsedCookies req)
    (UserAgent req) (Auth req) (Referer req) (Proxy req) (ConnectTimeout
    req) (MaxTime req) v (CACert req) (CookieJar req) (FollowRedirects req).
Definition set_CACert (v : string) (req : HTTPRequest) : HTTPRequest :=
  mkHTTPRequest (Method req) (URL req) (BaseURL req) (Path req) (Headers
    req) (Body req) (Query req) (RawCookie req) (ParsedCookies req)
    (UserAgent req) (Auth req) (Referer req) (Proxy req) (ConnectTimeout
    req) (MaxTime req) (Insecure req) v (CookieJar req) (FollowRedirects
    req).
Definition set_CookieJar (v : string) (req : HTTPRequest) : HTTPRequest :=
  mkHTTPRequest (Method req) (URL req) (BaseURL req) (Path req) (Headers
    req) (Body req) (Query req) (RawCookie req) (ParsedCookies req)
    (UserAgent req) (Auth req) (Referer req) (Proxy req) (ConnectTimeout
    req) (MaxTime req) (Insecure req) (CACert req) v (FollowRedirects req).
Definition set_FollowRedirects (v : bool) (req : HTTPRequest) : HTTPRequest :=
  mkHTTPRequest (Method req) (URL req) (BaseURL req) (Path req) (Headers
    req) (Body req) (Query req) (RawCookie req) (ParsedCookies req)
    (UserAgent req) (Auth req) (Referer req) (Proxy req) (ConnectTimeout
    req) (MaxTime req) (Insecure req) (CACert req) (CookieJar req) v.

Definition extractHeaders (cmd : string) (req : HTTPRequest) : HTTPRequest :=
  set_Headers (extractHeaders_into cmd (Headers req)) req.

Definition extractQueryParams (req : HTTPRequest) : HTTPRequest :=
  set_Query (extractQueryParams_into (URL req) (Query req)) req.

(** [extractCookieFromParams], which reads the command as it was given *)
Definition extractCookieFromParams (curlCommand : string) : string :=
  let cmd := curlCommand in
  match FindStringSubmatch cookieSingleQuoteRegex cmd with
  | _ :: m1 :: _ => m1
  | _ =>
  match FindStringSubmatch cookieDoubleQuoteRegex cmd with
  | _ :: m1 :: _ => m1
  | _ =>
  match FindStringSubmatch cookieNoQuoteRegex cmd with
  | _ :: m1 :: _ => TrimSpace m1
  | _ => EmptyString
  end end end.

(** one round of the loop over the pieces between semicolons *)
Definition add_cookie (cookies : gmap string string) (pair : string)
    : gmap string string :=
  let pair := TrimSpace pair in
  if nonempty pair then
    match SplitN pair "=" 2 with
    | [key; value] => <[TrimSpace key := TrimSpace value]> cookies
    | _ => cookies
    end
  else cookies.

Definition parse_cookies (cookieData : string) (cookies : gmap string string)
    : gmap string string :=
  foldl add_cookie cookies (Split cookieData ";").

(** the text the cookies are read from: the option, else the header *)
Definition cookie_source (curlCommand : string) (headers : gmap string string) : string :=
  let cookieData := extractCookieFromParams curlCommand in
  if nonempty cookieData then cookieData
  else
    match headers !! "Cookie" with
    | Some cookieHeader => cookieHeader
    | None => default EmptyString (headers !! "cookie")
    end.

Definition extractCookies (curlCommand : string) (req : HTTPRequest) : HTTPRequest :=
  let cookieData := cookie_source curlCommand (Headers req) in
  if nonempty cookieData then
    set_ParsedCookies (parse_cookies cookieData (ParsedCookies req))
      (set_RawCookie cookieData req)
  else req.

(** the value of a scalar option: the first group that is not empty,
    trimmed; [None] leaves the field as it is *)
Definition scalar_option (re : Regexp) (cmd : string) : option string :=
  match FindStringSubmatch re cmd with
  | _ :: g1 :: g2 :: g3 :: _ =>
      if nonempty g1 then Some (TrimSpace g1)
      else if nonempty g2 then Some (TrimSpace g2)
      else if nonempty g3 then Some (TrimSpace g3)
      else None
  | _ => None
  end.

Definition extractUserAgent (cmd : string) (req : HTTPRequest) : HTTPRequest :=
  match scalar_option userAgentRegex cmd with
  | Some v => set_UserAgent v req
  | None => req
  end.

Definition extractAuth (cmd : string) (req : HTTPRequest) : HTTPRequest :=
  match scalar_option authRegex cmd with
  | Some v => set_Auth v req
  | None => req
  end.

Definition extractReferer (cmd : string) (req : HTTPRequest) : HTTPRequest :=
  match scalar_option refererRegex cmd with
  | Some v => set_Referer v req
  | None => req
  end.

Definition extractProxy (cmd : string) (req : HTTPRequest) : HTTPRequest :=
  match scalar_option proxyRegex cmd with
  | Some v => set_Proxy v req
  | None => req
  end.

Definition extractTimeouts (cmd : string) (req : HTTPRequest) : HTTPRequest :=
  let req :=
    match FindStringSubmatch connectTimeoutRegex cmd with
    | _ :: m1 :: _ => set_ConnectTimeout (URL.Sscanf_d m1 (ConnectTimeout req)) req
    | _ => req
    end in
  match FindStringSubmatch maxTimeRegex cmd with
  | _ :: m1 :: _ => set_MaxTime (URL.Sscanf_d m1 (MaxTime req)) req
  | _ => req
  end.

Definition extractSSLOptions (cmd : string) (req : HTTPRequest) : HTTPRequest :=
  let req := if Contains cmd "--insecure" then set_Insecure true req else req in
  match scalar_option cacertRegex cmd with
  | Some v => set_CACert v req
  | None => req
  end.

Definition extractCookieJar (cmd : string) (req : HTTPRequest) : HTTPRequest :=
  match scalar_option cookieJarRegex cmd with
  | Some v => set_CookieJar v req
  | None => req
  end.

Definition extractFollowRedirects (cmd : string) (req : HTTPRequest) : HTTPRequest :=
  if Contains cmd "-L" || Contains cmd "--location"
  then set_FollowRedirects true req else req.

(** the command the passes read: a leading curl and its space cut off;
    nothing else is cleaned (the cleaning lines are commented out) *)
Definition command_text (curlCommand : string) : string :=
  let cmd := curlCommand in
  if HasPrefix cmd "curl " then TrimPrefix cmd "curl " else cmd.

(** scheme, ://, host, and the path of the parsed address *)
Definition set_origin (urlStr : string) (req : HTTPRequest) : HTTPRequest :=
  match URL.Parse urlStr with
  | Some parsedURL =>
      set_Path (URL.Path parsedURL)
        (set_BaseURL (URL.Scheme parsedURL +:+ "://" +:+ URL.Host parsedURL) req)
  | None => req
  end.

(** [Parse]: [None] is the error, the only one there is *)
Definition Parse (curlCommand : string) : option HTTPRequest :=
  let req := new_request in
  let cmd := command_text curlCommand in
  match extractURL cmd with
  | None => None
  | Some urlStr =>
      let req := set_URL urlStr req in
      let req := set_origin urlStr req in
      let req := set_Method (extractMethod cmd) req in
      let req := extractHeaders cmd req in
      let req := set_Body (extractBody cmd) req in
      let req := extractQueryParams req in
      let req := extractCookies curlCommand req in
      let req := extractUserAgent cmd req in
      let req := extractAuth cmd req in
      let req := extractReferer cmd req in
      let req := extractProxy cmd req in
      let req := extractTimeouts cmd req in
      let req := extractSSLOptions cmd req in
      let req := extractCookieJar cmd req in
      let req := extractFollowRedirects cmd req in
      Some req
  end.

End Parser.

(** ** The earlier parser (no cookies, no scalar options)

    Its [extractURL], [extractMethod], [extractHeaders], [extractBody] and
    [extractQueryParams] are, line by line, the ones of [parser.go]; its
    [Parse] cleans the command first. *)

Module ParserV1.
Import GoStrings Regexp Patterns.

Record HTTPRequest : Type := mkHTTPRequest {
  Method : string;
  URL : string;
  BaseURL : string;
  Path : string;
  Headers : gmap string string;
  Body : string;
  Query : gmap string string
}.

Definition new_request : HTTPRequest :=
  mkHTTPRequest EmptyString EmptyString EmptyString EmptyString ∅ EmptyString ∅.

Definition set_Method (v : string) (req : HTTPRequest) : HTTPRequest :=
  mkHTTPRequest v (URL req) (BaseURL req) (Path req) (Headers req) (Body req) (Query req).
Definition set_URL (v : string) (req : HTTPRequest) : HTTPRequest :=
  mkHTTPRequest (Method req) v (BaseURL req) (Path req) (Headers req) (Body req) (Query req).
Definition set_BaseURL (v : string) (req : HTTPRequest) : HTTPRequest :=
  mkHTTPRequest (Method req) (URL req) v (Path req) (Headers req) (Body req) (Query req).
Definition set_Path (v : string) (req : HTTPRequest) : HTTPRequest :=
  mkHTTPRequest (Method req) (URL req) (BaseURL req) v (Headers req) (Body req) (Query req).
Definition set_Headers (v : gmap string string) (req : HTTPRequest) : HTTPRequest :=
  mkHTTPRequest (Method req) (URL req) (BaseURL req) (Path req) v (Body req) (Query req).
Definition set_Body (v : string) (req : HTTPRequest) : HTTPRequest :=
  mkHTTPRequest (Method req) (URL req) (BaseURL req) (Path req) (Headers req) v (Query req).
Definition set_Query (v : gmap string string) (req : HTTPRequest) : HTTPRequest :=
  mkHTTPRequest (Method req) (URL req) (BaseURL req) (Path req) (Headers req) (Body req) v.

Definition extractURL : string -> option string := Parser.extractURL.
Definition extractMethod : string -> string := Parser.extractMethod.
Definition extractBody : string -> string := Parser.extractBody.

Definition extractHeaders (cmd : string) (req : HTTPRequest) : HTTPRequest :=
  set_Headers (Parser.extractHeaders_into cmd (Headers req)) req.

Definition extractQueryParams (req : HTTPRequest) : HTTPRequest :=
  set_Query (Parser.extractQueryParams_into (URL req) (Query req)) req.

(** one round of the loop of [parseCookieString]: a piece with an equals
    sign gives a name and a value, any other piece that is not empty a
    name with the empty value *)
Definition add_cookie_pair (cookies : gmap string string) (pair : string)
    : gmap string string :=
  let pair := TrimSpace pair in
  match SplitN pair "=" 2 with
  | [key; value] => <[TrimSpace key := TrimSpace value]> cookies
  | [key] =>
      if Parser.nonempty key then <[TrimSpace key := EmptyString]> cookies
      else cookies
  | _ => cookies
  end.

(** [parseCookieString], which no other function of the file calls *)
Definition parseCookieString (cookieStr : string) (cookies : gmap string string)
    : gmap string string :=
  foldl add_cookie_pair cookies (Split cookieStr ";").

(** continuation lines joined, the other backslashes dropped, white space
    around the command trimmed *)
Definition clean (curlCommand : string) : string :=
  let cmd := ReplaceAll curlCommand (String "\" (String LF EmptyString)) " " in
  let cmd := ReplaceAll cmd "\" EmptyString in
  TrimSpace cmd.

Definition command_text (curlCommand : string) : string :=
  let cmd := clean curlCommand in
  if HasPrefix cmd "curl " then TrimPrefix cmd "curl " else cmd.

Definition set_origin (urlStr : string) (req : HTTPRequest) : HTTPRequest :=
  match URL.Parse urlStr with
  | Some parsedURL =>
      set_Path (URL.Path parsedURL)
        (set_BaseURL (URL.Scheme parsedURL +:+ "://" +:+ URL.Host parsedURL) req)
  | None => req
  end.

Definition Parse (curlCommand : string) : option HTTPRequest :=
  let req := new_request in
  let cmd := command_text curlCommand in
  match extractURL cmd with
  | None => None
  | Some urlStr =>
      let req := set_URL urlStr req in
      let req := set_origin urlStr req in
      let req := set_Method (extractMethod cmd) req in
      let req := extractHeaders cmd req in
      let req := set_Body (extractBody cmd) req in
      let req := extractQueryParams req in
      Some req
  end.

End ParserV1.

(** ** Reference definitions

    What the statements below compare the parser with: direct scans of the
    text, written without the pattern matcher. *)

Module Reference.
Import GoStrings Regexp Patterns Parser.

(** a greedy run of bytes of [p]: the longest first, then shorter ones *)
Fixpoint greedy_try {A : Type} (p : ascii -> bool) (k : string -> option A)
    (s : string) : option A :=
  match s with
  | EmptyString => k s
  | String c t =>
      if p c then
        match greedy_try p k t with
        | Some x => Some x
        | None => k s
        end
      else k s
  end.


(** the longest prefix of bytes of [p], and what follows it *)
Fixpoint span (p : ascii -> bool) (s : string) : string * string :=
  match s with
  | EmptyString => (EmptyString, EmptyString)
  | String c t =>
      if p c then let '(a, b) := span p t in (String c a, b)
      else (EmptyString, s)
  end.

(** every byte of the text is one of [p] *)
Fixpoint all_bytes (p : ascii -> bool) (s : string) : bool :=
  match s with
  | EmptyString => true
  | String c t => p c && all_bytes p t
  end.

(** [scheme] and then at least one byte that is no white space and no
    quote: the address that starts here, and the text behind it *)
Definition address_with (scheme s : string) : option (string * string) :=
  match strip_prefix s scheme with
  | None => None
  | Some t =>
      match span url_byte t with
      | (EmptyString, _) => None
      | (bytes, rest) => Some (scheme +:+ bytes, rest)
      end
  end.

Definition address_at (s : string) : option (string * string) :=
  match address_with "https://" s with
  | Some a => Some a
  | None => address_with "http://" s
  end.

(** the address that starts leftmost in the text *)
Fixpoint leftmost_address (s : string) : option string :=
  match address_at s with
  | Some (a, _) => Some a
  | None =>
      match s with
      | EmptyString => None
      | String _ t => leftmost_address t
      end
  end.

(** [flag], white space, then a run of bytes of [p]: the run *)
Definition flag_word_at (flag : string) (p : ascii -> bool) (s : string)
    : option string :=
  match strip_prefix s flag with
  | None => None
  | Some t =>
      match span cls_s t with
      | (EmptyString, _) => None
      | (_, t') =>
          match span p t' with
          | (EmptyString, _) => None
          | (w, _) => Some w
          end
      end
  end.

(** the leftmost place where [flag], white space and such a run stand *)
Fixpoint flag_word (flag : string) (p : ascii -> bool) (s : string)
    : option string :=
  match flag_word_at flag p s with
  | Some w => Some w
  | None =>
      match s with
      | EmptyString => None
      | String _ t => flag_word flag p t
      end
  end.

(** group 1 of the leftmost match *)
Definition group1 (re : Regexp) (s : string) : option string :=
  match FindStringSubmatch re s with
  | _ :: m1 :: _ => Some m1
  | _ => None
  end.

(** the continuation at the end of a pattern *)
Definition final (s0 : string) (cs : list string) (s' : string)
    : option (list string * string) :=
  Some (<[0 := consumed s0 s']> cs, s').

Definition quote_opt : regex := Alts [DQ; SQ; Empty].

(** the address the pattern finds at the very start of [s] *)
Definition here_address (s : string) : option string :=
  match address_at s with
  | Some (a, _) => Some a
  | None =>
      match s with
      | EmptyString => None
      | String q t =>
          if cls_quote q then fst <$> address_at t else None
      end
  end.

Definition flag_pattern (flag : string) (p : ascii -> bool) : Regexp :=
  MustCompile (Seq [Lit flag; ws; Cap 1 (Plus true (Cls p))]) 1.


(** the fields the scalar passes leave alone *)
Definition core (req : HTTPRequest) :=
  (Method req, URL req, BaseURL req, Path req, Headers req, Body req,
   Query req, RawCookie req, ParsedCookies req).

(** the record before the scalar passes *)
Definition main_passes (curlCommand urlStr : string) : HTTPRequest :=
  let cmd := command_text curlCommand in
  extractCookies curlCommand
    (extractQueryParams
       (set_Body (extractBody cmd)
          (extractHeaders cmd
             (set_Method (extractMethod cmd)
                (set_origin urlStr (set_URL urlStr new_request)))))).

(** the value of the last pair with key [k] *)
Fixpoint last_value (k : string) (l : list (string * string)) : option string :=
  match l with
  | [] => None
  | (n, v) :: rest =>
      match last_value k rest with
      | Some v' => Some v'
      | None => if decide (n = k) then Some v else None
      end
  end.

(** the value of the first pair with key [k] *)
Fixpoint first_value (k : string) (l : list (string * string)) : option string :=
  match l with
  | [] => None
  | (n, v) :: rest => if decide (n = k) then Some v else first_value k rest
  end.

(** the text of a header option: cut at its first colon, both sides trimmed;
    nothing without a colon *)
Definition header_entry (header : string) : option (string * string) :=
  match Cut header ":" with
  | Some (name, value) => Some (TrimSpace name, TrimSpace value)
  | None => None
  end.

(** the header options of the command, in order: for each match of the
    header pattern the value that is not empty *)
Definition header_texts (cmd : string) : list string :=
  filter (fun h => h <> EmptyString)
    (map first_group (FindAllStringSubmatch headerRegex cmd)).

Definition header_entries (cmd : string) : list (string * string) :=
  omap header_entry (header_texts cmd).

(** a piece of the cookie text: trimmed, cut at its first equals sign, both
    sides trimmed; nothing without an equals sign *)
Definition cookie_entry (piece : string) : option (string * string) :=
  match Cut (TrimSpace piece) "=" with
  | Some (key, value) => Some (TrimSpace key, TrimSpace value)
  | None => None
  end.

Definition cookie_entries (cookieData : string) : list (string * string) :=
  omap cookie_entry (Split cookieData ";").

(** a piece of the query between ampersands: dropped with a semicolon in it
    or when empty, else cut at its first equals sign and both sides decoded *)
Definition query_entry (piece : string) : option (string * string) :=
  if Contains piece ";" then None
  else if String.eqb piece EmptyString then None
  else
    let '(key, value) :=
      match Cut piece "=" with
      | Some (k, v) => (k, v)
      | None => (piece, EmptyString)
      end in
    key' ← URL.QueryUnescape key;
    value' ← URL.QueryUnescape value;
    Some (key', value').

Definition query_entries (rawQuery : string) : list (string * string) :=
  omap query_entry (Split rawQuery "&").

Fixpoint values_of (k : string) (l : list (string * string)) : list string :=
  match l with
  | [] => []
  | (n, v) :: rest =>
      if decide (n = k) then v :: values_of k rest else values_of k rest
  end.

Definition add_value (m : URL.Values) (e : string * string) : URL.Values :=
  <[e.1 := default [] (m !! e.1) ++ [e.2]]> m.

Fixpoint has_byte (c : ascii) (s : string) : bool :=
  match s with
  | EmptyString => false
  | String x t => Ascii.eqb c x || has_byte c t
  end.

(** the text before the first [sep], all of it when there is none *)
Definition before (sep s : string) : string :=
  match Cut s sep with
  | Some (b, _) => b
  | None => s
  end.

(** the address up to its query string or fragment *)
Definition up_to_query (target : string) : string :=
  before "?" (before "#" target).

Definition continuation : string := String "\" (String LF EmptyString).

(** the command with its continuation lines joined *)
Definition joined (s : string) : string := ReplaceAll s continuation " ".

(** the fields the two records share *)
Definition shared (r : Parser.HTTPRequest) : ParserV1.HTTPRequest :=
  ParserV1.mkHTTPRequest (Parser.Method r) (Parser.URL r) (Parser.BaseURL r)
    (Parser.Path r) (Parser.Headers r) (Parser.Body r) (Parser.Query r).

(** what either parser does with the text its passes read *)
Definition parse_text (cmd : string) : option ParserV1.HTTPRequest :=
  match Parser.extractURL cmd with
  | None => None
  | Some urlStr =>
      Some (ParserV1.mkHTTPRequest (Parser.extractMethod cmd) urlStr
              (Parser.BaseURL (Parser.set_origin urlStr Parser.new_request))
              (Parser.Path (Parser.set_origin urlStr Parser.new_request))
              (Parser.extractHeaders_into cmd ∅) (Parser.extractBody cmd)
              (Parser.extractQueryParams_into urlStr ∅))
  end.

(** the values of the form options, in order: for each match of the form
    pattern the value that is not empty *)
Definition form_values (cmd : string) : list string :=
  filter (fun s => nonempty s = true)
    (map first_group (FindAllStringSubmatch formRegex cmd)).




Definition cmd_split : string :=
  "curl -X \" +:+ String LF "POST https://h.org/p".
Definition cmd_two_addresses : string := "curl http://a.com 'http://b.com'".
Definition cmd_dash_in_host : string := "curl https://my-domain.com/".
Definition cmd_bad_escape : string := "curl https://h.org/%zz?a=1".
Definition cmd_escaped_path : string := "curl https://h.org/a%20b?x=1".
Definition cmd_backslash_in_path : string := "curl https://h.org/a\b".
Definition cmd_backslash_in_scheme : string := "curl http:/\/h.org".
Definition cmd_plain : string := "curl https://h.org/get?a=1&a=2&b=3".
Definition cmd_cookie_and_header : string :=
  "curl -b 'x=1; y=2' -H " +:+ String dquote "Cookie: z=3"
  +:+ String dquote " https://h.org/c".

Definition cmd_two_forms : string :=
  "curl -F " +:+ String dquote "a=1" +:+ String dquote " -F "
  +:+ String dquote "b=2" +:+ String dquote " https://h.org/post".
Definition cmd_three_headers : string :=
  "curl -H ' Content-Type :  application/json ' -H 'X: 1' --header X:2 https://h.org/x".

(** the scalar options, each with the value its pattern gives *)
Definition scalars (req : HTTPRequest) :=
  (UserAgent req, Auth req, Referer req, Proxy req, CACert req, CookieJar req,
   ConnectTimeout req, MaxTime req, Insecure req, FollowRedirects req).

Definition scalars_of (cmd : string) :=
  (default EmptyString (scalar_option userAgentRegex cmd),
   default EmptyString (scalar_option authRegex cmd),
   default EmptyString (scalar_option refererRegex cmd),
   default EmptyString (scalar_option proxyRegex cmd),
   default EmptyString (scalar_option cacertRegex cmd),
   default EmptyString (scalar_option cookieJarRegex cmd),
   match group1 connectTimeoutRegex cmd with
   | Some digits => URL.Sscanf_d digits 0
   | None => 0%Z
   end,
   match group1 maxTimeRegex cmd with
   | Some digits => URL.Sscanf_d digits 0
   | None => 0%Z
   end,
   Contains cmd "--insecure",
   Contains cmd "-L" || Contains cmd "--location").








(** the text starts, or ends, with the encoding of a white space *)
Definition starts_with_space (s : string) : bool :=
  match strip_any space_encodings s with Some _ => true | None => false end.

Definition ends_with_space (s : string) : bool :=
  match strip_any (map String.rev space_encodings) (String.rev s) with
  | Some _ => true
  | None => false
  end.

(** no white space at either end *)
Definition trimmed (s : string) : Prop :=
  starts_with_space s = false /\ ends_with_space s = false.

(** the scalar options that hold a text *)
Inductive scalar : Type :=
| SUserAgent | SAuth | SReferer | SProxy | SCACert | SCookieJar.

Definition scalar_field (o : scalar) (req : HTTPRequest) : string :=
  match o with
  | SUserAgent => UserAgent req
  | SAuth => Auth req
  | SReferer => Referer req
  | SProxy => Proxy req
  | SCACert => CACert req
  | SCookieJar => CookieJar req
  end.

Definition scalar_regex (o : scalar) : Regexp :=
  match o with
  | SUserAgent => userAgentRegex
  | SAuth => authRegex
  | SReferer => refererRegex
  | SProxy => proxyRegex
  | SCACert => cacertRegex
  | SCookieJar => cookieJarRegex
  end.

(** a run of white space that is not empty *)
Definition blank (sp : string) : bool := nonempty sp && all_bytes cls_s sp.

(** the ways the flag of a scalar option is written *)
Definition spellings (o : scalar) : list string :=
  match o with
  | SUserAgent => ["-A"; "--user-agent"]
  | SAuth => ["-u"; "--user"]
  | SReferer => ["--referer"]
  | SProxy => ["--proxy"]
  | SCACert => ["--cacert"]
  | SCookieJar => ["-c"; "--cookie-jar"]
  end.

(** the options whose unquoted value stops in front of an address *)
Definition stops_at_address (o : scalar) : bool :=
  match o with
  | SReferer | SProxy => false
  | _ => true
  end.

Definition scalar_flag (o : scalar) : regex :=
  match o with
  | SUserAgent => Alt (Lit "-A") (Lit "--user-agent")
  | SAuth => Alt (Lit "-u") (Lit "--user")
  | SReferer => Lit "--referer"
  | SProxy => Lit "--proxy"
  | SCACert => Lit "--cacert"
  | SCookieJar => Alt (Lit "-c") (Lit "--cookie-jar")
  end.

Definition scalar_follow (o : scalar) : regex :=
  if stops_at_address o then next_flag_end_or_address else next_flag_or_end.

(** the pattern can only match where a dash stands *)
Definition dash_led (r : regex) : Prop :=
  forall cs c t (k : list string -> string -> option (list string * string)),
    c <> "-"%char -> run r cs (String c t) k = None.

(** what does not start with white space *)
Definition no_space_ahead (s : string) : Prop :=
  match s with EmptyString => True | String c _ => cls_s c = false end.

(** a word of an unquoted value: it is not empty, holds no white space and
    does not start with a dash *)
Definition plain_word (w : string) : bool :=
  match w with
  | EmptyString => false
  | String c t => not_space_dash c && all_bytes not_space t
  end.

(** the first word does not start with a quote either *)
Definition first_word (w : string) : bool :=
  plain_word w
  && match w with
     | EmptyString => false
     | String c _ => negb (cls_quote c)
     end.

Definition starts_address (w : string) : bool :=
  HasPrefix w "http://" || HasPrefix w "https://".

(** a later word of the value of option [o], with the white space in
    front of it: where the value stops in front of an address, the word
    does not start one *)
Definition later_word (o : scalar) (p : string * string) : bool :=
  blank p.1 && plain_word p.2 && negb (stops_at_address o && starts_address p.2).

Fixpoint more_words (ps : list (string * string)) : string :=
  match ps with
  | [] => EmptyString
  | (sp, w) :: rest => sp +:+ w +:+ more_words rest
  end.

(** what stands behind an unquoted value: the end of the text, white space
    and the dash of the next option, or white space and an address *)
Inductive follower : Type :=
| AtEnd
| NextFlag (sp rest : string)
| NextAddress (sp : string) (secure : bool) (rest : string).

Definition follower_text (f : follower) : string :=
  match f with
  | AtEnd => EmptyString
  | NextFlag sp rest => sp +:+ String "-" rest
  | NextAddress sp secure rest =>
      sp +:+ (if secure then "https://" else "http://") +:+ rest
  end.

Definition follower_ok (o : scalar) (f : follower) : bool :=
  match f with
  | AtEnd => true
  | NextFlag sp _ => blank sp
  | NextAddress sp _ _ => blank sp && stops_at_address o
  end.

(** the round of the lazy repetition of an unquoted value *)
Definition next_word : regex :=
  Seq [ws; Cls not_space_dash; Rep true (Cls not_space)].

(** the end of the text, or white space ahead *)
Definition space_or_end (s : string) : Prop :=
  match s with EmptyString => True | String c _ => cls_s c = true end.

(** what a timeout option gives: the decimal value of its digits when it
    fits a 64-bit integer, zero otherwise and without the option *)
Definition timeout_value (digits : option string) : Z :=
  match digits with
  | Some d =>
      let v := URL.decimal 0 d in
      if (v <=? 9223372036854775807)%Z then v else 0%Z
  | None => 0%Z
  end.

(** the bytes of a method: upper-case letters, digits, the underscore *)
Definition method_byte (c : ascii) : bool :=
  is_upper c || is_digit c || Ascii.eqb c "_".

(** [sub] stands somewhere in [s] *)
Definition occurs_in (sub s : string) : Prop :=
  exists a b, s = a +:+ sub +:+ b.

(** the text is empty or starts with a byte no address can hold *)
Definition no_address_byte_ahead (s : string) : Prop :=
  match s with EmptyString => True | String c _ => url_byte c = false end.

(** the text behind the first [sep], nothing when there is none *)
Definition behind (sep s : string) : string :=
  match Cut s sep with
  | Some (_, a) => a
  | None => EmptyString
  end.

(** the query string of an address: behind its first question mark, up to
    its first hash *)
Definition query_text (target : string) : string :=
  behind "?" (before "#" target).

(** no text of the list holds the byte [c] *)
Definition all_free (c : ascii) (l : list string) : Prop :=
  Forall (fun g => has_byte c g = false) l.

(** a piece of the cookie text as [parseCookieString] reads it: trimmed and
    cut at its first equals sign; without one, a name with the empty value *)
Definition cookie_pair_entry (piece : string) : option (string * string) :=
  let p := TrimSpace piece in
  match Cut p "=" with
  | Some (key, value) => Some (TrimSpace key, TrimSpace value)
  | None => if nonempty p then Some (TrimSpace p, EmptyString) else None
  end.

Definition cookie_pair_entries (cookieStr : string) : list (string * string) :=
  omap cookie_pair_entry (Split cookieStr ";").

(** name=value *)
Definition cookie_text (p : string * string) : string := p.1 +:+ "=" +:+ p.2.

(** a name and a value that can stand in a cookie text as they are *)
Definition clean_cookie (p : string * string) : Prop :=
  trimmed p.1 /\ trimmed p.2 /\ has_byte "=" p.1 = false
  /\ has_byte ";" p.1 = false /\ has_byte ";" p.2 = false.

(** the cookie text of a list of pairs *)
Definition cookie_line (l : list (string * string)) : string :=
  Join (map cookie_text l) "; ".

Definition cmd_padded_agent : string :=
  "curl http://h.org -A ' Mozilla/5.0 ' -H 'a: b'".
Definition cmd_proxy_then_target : string :=
  "curl --proxy http://p.org:8080 http://h.org/x".
Definition cmd_timeouts : string :=
  "curl --connect-timeout 30s --max-time 99999999999999999999 http://h.org".
Definition cmd_switch_in_target : string := "curl http://h.org/-L".
Definition cmd_insecure : string := "curl http://h.org --insecure".
Definition cmd_lower_method : string := "curl -X patch http://h.org".
Definition cmd_query_behind_hash : string := "curl http://h.org/p#f?x=1".
Definition cmd_escaped_quote : string :=
  "curl -d '{k:\" +:+ String dquote "v\" +:+ String dquote "}' http://h.org/a\b".
Definition cmd_cookie_line : string :=
  "curl http://h.org -b 'x=1; y=2; x=3'".

(** a pattern that no text without dash holds a match of *)
Definition needs_dash (re : Regexp) : Prop :=
  dash_led (prog re) /\ match_here re EmptyString = None.

Definition cmd_quoted_first : string := "curl 'http://b.com' http://a.com".

End Reference.

(** * Facts about strings *)

Section StringFacts.
Import GoStrings.

Lemma append_cons (c : ascii) (s t : string) :
  String c s +:+ t = String c (s +:+ t).
Proof. reflexivity. Qed.

Lemma append_nil_l (s : string) : EmptyString +:+ s = s.
Proof. reflexivity. Qed.

Lemma append_nil_r (s : string) : s +:+ EmptyString = s.
Proof. induction s as [|c s IH]; [done |]. by rewrite append_cons, IH. Qed.

Lemma append_assoc (a b c : string) : (a +:+ b) +:+ c = a +:+ (b +:+ c).
Proof. induction a as [|x a IH]; [done |]. by rewrite !append_cons, IH. Qed.

Lemma length_append (a b : string) :
  String.length (a +:+ b) = String.length a + String.length b.
Proof. induction a as [|x a IH]; [done |]. rewrite append_cons. cbn. by rewrite IH. Qed.

Lemma substring_all (a b : string) : substring 0 (String.length a) (a +:+ b) = a.
Proof.
  induction a as [|x a IH]; [by destruct b |].
  rewrite append_cons. cbn. by rewrite IH.
Qed.

Lemma strip_prefix_Some (s p t : string) :
  strip_prefix s p = Some t <-> s = p +:+ t.
Proof.
  revert s. induction p as [|a p IH]; intros s; cbn.
  - rewrite append_nil_l. split; [by intros [= ->] | by intros ->].
  - rewrite append_cons. destruct s as [|b s]; [split; discriminate |].
    destruct (Ascii.eqb_spec a b) as [->|Hne].
    + rewrite IH. split; [by intros -> | by intros [= ->]].
    + split; [discriminate | intros [= ? _]; done].
Qed.

Lemma strip_prefix_app (p t : string) : strip_prefix (p +:+ t) p = Some t.
Proof. by apply strip_prefix_Some. Qed.

Lemma strip_prefix_length (s p t : string) :
  strip_prefix s p = Some t -> String.length s = String.length p + String.length t.
Proof. intros ->%strip_prefix_Some. apply length_append. Qed.

End StringFacts.

(** * Facts about the matcher *)

Section RunFacts.
Import GoStrings Regexp Patterns Reference.
Context {A : Type}.
Implicit Types (k : list string -> string -> option A) (cs : list string).

Lemma consumed_app (a b : string) : consumed (a +:+ b) b = a.
Proof.
  unfold consumed. rewrite length_append.
  replace (String.length a + String.length b - String.length b)
    with (String.length a) by lia.
  apply substring_all.
Qed.

Lemma run_Lit l cs s k :
  run (Lit l) cs s k =
  match strip_prefix s l with Some t => k cs t | None => None end.
Proof.
  revert s. induction l as [|a l IH]; intros s; cbn; [done |].
  destruct s as [|b s]; [done |]. destruct (Ascii.eqb a b); [apply IH | done].
Qed.

Lemma iterate_cls_greedy p k cs n s :
  String.length s <= n ->
  iterate (run (Cls p)) true k n cs s = greedy_try p (k cs) s.
Proof.
  revert s. induction n as [|n IH]; intros s Hn.
  - destruct s; [done | cbn in Hn; lia].
  - destruct s as [|c t]; cbn; [done |].
    destruct (p c); [| done].
    rewrite Nat.ltb_irrefl, Nat.leb_refl || idtac.
    assert (Hlt : Nat.ltb (String.length t) (S (String.length t)) = true)
      by (apply Nat.ltb_lt; lia).
    cbn in Hlt. rewrite Hlt. rewrite IH by (cbn in Hn; lia). done.
Qed.

Lemma run_star_greedy p cs s k :
  run (Rep true (Cls p)) cs s k = greedy_try p (k cs) s.
Proof. cbn. by apply iterate_cls_greedy. Qed.



End RunFacts.

Section SpanFacts.
Import GoStrings Regexp Patterns Reference.

Lemma span_app p s a b : span p s = (a, b) -> s = a +:+ b.
Proof.
  revert a b. induction s as [|c t IH]; intros a b; cbn.
  - by intros [= <- <-].
  - destruct (p c).
    + destruct (span p t) as [a' b'] eqn:E. intros [= <- <-].
      rewrite append_cons. f_equal. by apply IH.
    + by intros [= <- <-].
Qed.

Lemma greedy_try_span {A} p (k : string -> option A) s a b x :
  span p s = (a, b) -> k b = Some x -> greedy_try p k s = Some x.
Proof.
  revert a b. induction s as [|c t IH]; intros a b; cbn.
  - by intros [= <- <-].
  - destruct (p c).
    + destruct (span p t) as [a' b'] eqn:E. intros [= <- <-] Hk.
      by rewrite (IH _ _ eq_refl Hk).
    + by intros [= <- <-].
Qed.

Lemma strip_prefix_cat s p1 p2 :
  strip_prefix s (p1 +:+ p2) = strip_prefix s p1 ≫= fun t => strip_prefix t p2.
Proof.
  revert s. induction p1 as [|a p1 IH]; intros s.
  - done.
  - rewrite append_cons. cbn. destruct s as [|b s]; [done |].
    destruct (Ascii.eqb a b); [apply IH | done].
Qed.

End SpanFacts.

Section AddressFacts.
Import GoStrings Regexp Patterns Reference.
Context {A : Type}.
Implicit Types (k : list string -> string -> option A) (cs : list string).

Lemma run_Cat r1 r2 cs s k :
  run (Cat r1 r2) cs s k = run r1 cs s (fun cs' s' => run r2 cs' s' k).
Proof. reflexivity. Qed.

Lemma run_Alt r1 r2 cs s k :
  run (Alt r1 r2) cs s k =
  match run r1 cs s k with Some x => Some x | None => run r2 cs s k end.
Proof. reflexivity. Qed.

Lemma run_Cap i r1 cs s k :
  run (Cap i r1) cs s k =
  run r1 cs s (fun cs' s' => k (<[i := consumed s s']> cs') s').
Proof. reflexivity. Qed.

Lemma run_Plus_cls p cs s k :
  run (Plus true (Cls p)) cs s k =
  match s with
  | EmptyString => None
  | String c t => if p c then greedy_try p (k cs) t else None
  end.
Proof.
  unfold Plus. rewrite run_Cat. destruct s as [|c t]; [done |].
  cbn [run]. destruct (p c); [| done].
  change (run (Rep true (Cls p)) cs t k = greedy_try p (k cs) t).
  apply run_star_greedy.
Qed.

(** one or more bytes of [p], then a continuation that cannot fail *)
Lemma run_Plus_span p cs s k :
  (forall t, k cs t <> None) ->
  run (Plus true (Cls p)) cs s k =
  match span p s with
  | (EmptyString, _) => None
  | (_, rest) => k cs rest
  end.
Proof.
  intros Hk. rewrite run_Plus_cls. destruct s as [|c t]; [done |].
  cbn [span]. destruct (p c); [| done].
  destruct (span p t) as [a b] eqn:E.
  destruct (k cs b) as [x|] eqn:Ek; [| by destruct (Hk b)].
  apply (greedy_try_span _ _ _ _ _ _ E Ek).
Qed.

Lemma run_address cs s k :
  (forall t, k cs t <> None) ->
  run address cs s k =
  match address_at s with
  | Some (_, rest) => k cs rest
  | None => None
  end.
Proof.
  intros Hk. unfold address. cbn [Seq].
  rewrite run_Cat, run_Lit.
  unfold address_at, address_with.
  change "https://" with ("http" +:+ "s://").
  change "http://" with ("http" +:+ "://").
  rewrite !strip_prefix_cat.
  destruct (strip_prefix s "http") as [s1|]; [cbn [mbind option_bind] | done].
  rewrite run_Cat. unfold Opt. rewrite run_Alt.
  rewrite run_Lit.
  change "s://" with ("s" +:+ "://"). rewrite strip_prefix_cat.
  destruct (strip_prefix s1 "s") as [s2|] eqn:E2; cbn [mbind option_bind].
  - rewrite run_Cat, run_Lit.
    destruct (strip_prefix s2 "://") as [s3|] eqn:E3.
    + rewrite (run_Plus_span _ _ _ _ Hk).
      destruct (span url_byte s3) as [[|c a] b] eqn:E.
      * cbn [run]. rewrite ?run_Cat, run_Lit.
        apply strip_prefix_Some in E2. subst s1.
        change ("s" +:+ s2) with (String "s" s2). by cbn.
      * destruct (k cs b) eqn:Ek; [done | by destruct (Hk b)].
    + cbn [run]. rewrite ?run_Cat, run_Lit.
      apply strip_prefix_Some in E2. subst s1.
        change ("s" +:+ s2) with (String "s" s2). by cbn.
  - cbn [run]. rewrite ?run_Cat, run_Lit.
    destruct (strip_prefix s1 "://") as [s3|] eqn:E3; [| done].
    rewrite (run_Plus_span _ _ _ _ Hk).
    by destruct (span url_byte s3) as [[|c a] b] eqn:E.
Qed.

End AddressFacts.

Section UrlFacts.
Import GoStrings Regexp Patterns Reference.

Lemma address_with_app scheme s a rest :
  address_with scheme s = Some (a, rest) -> s = a +:+ rest.
Proof.
  unfold address_with.
  destruct (strip_prefix s scheme) as [t|] eqn:E; [| done].
  apply strip_prefix_Some in E.
  destruct (span url_byte t) as [[|c b] r] eqn:Es; [done |].
  intros [= <- <-]. apply span_app in Es. subst. by rewrite append_assoc.
Qed.

Lemma address_at_app s a rest : address_at s = Some (a, rest) -> s = a +:+ rest.
Proof.
  unfold address_at. destruct (address_with "https://" s) as [[a' r']|] eqn:E.
  - intros [= <- <-]. by apply address_with_app in E.
  - apply address_with_app.
Qed.

Lemma address_at_head s a rest :
  address_at s = Some (a, rest) -> exists t, s = String "h" t.
Proof.
  unfold address_at, address_with.
  destruct (strip_prefix s "https://") as [t|] eqn:E.
  - apply strip_prefix_Some in E. subst s. eauto.
  - destruct (strip_prefix s "http://") as [t|] eqn:E'; [| done].
    apply strip_prefix_Some in E'. subst s. eauto.
Qed.

Lemma run_cap_address {A} i cs s (k : list string -> string -> option A) :
  (forall cs' t, k cs' t <> None) ->
  run (Cap i address) cs s k =
  match address_at s with
  | Some (a, rest) => k (<[i := a]> cs) rest
  | None => None
  end.
Proof.
  intros Hk. rewrite run_Cap, run_address by (intros t; apply Hk).
  destruct (address_at s) as [[a rest]|] eqn:E; [| done].
  apply address_at_app in E. subst s. by rewrite consumed_app.
Qed.

Lemma run_tail s0 cs t :
  exists g2 rest,
    run (Cap 2 quote_opt) cs t (final s0)
    = Some (<[0 := consumed s0 rest]> (<[2 := g2]> cs), rest).
Proof.
  rewrite run_Cap. unfold quote_opt, final. cbn [Alts]. rewrite !run_Alt.
  destruct t as [|c t]; cbn [run DQ SQ]; [eauto |].
  destruct (Ascii.eqb dquote c); [eauto |].
  destruct (Ascii.eqb squote c); eauto.
Qed.

Lemma run_tail_total s0 cs t : run (Cap 2 quote_opt) cs t (final s0) <> None.
Proof. destruct (run_tail s0 cs t) as (? & ? & ->). done. Qed.

Lemma run_body s0 cs s :
  run (Cat (Cap 1 address) (Cap 2 quote_opt)) cs s (final s0) =
  match address_at s with
  | Some (a, rest) => run (Cap 2 quote_opt) (<[1 := a]> cs) rest (final s0)
  | None => None
  end.
Proof.
  rewrite run_Cat. rewrite run_cap_address; [done |].
  intros. apply run_tail_total.
Qed.

Lemma run_url_prog s0 cs s :
  run (prog urlRegex) cs s (final s0) =
  let body u := run (Cat (Cap 1 address) (Cap 2 quote_opt)) cs u (final s0) in
  match s with
  | EmptyString => body s
  | String c t =>
      if Ascii.eqb dquote c then
        match body t with Some x => Some x | None => body s end
      else if Ascii.eqb squote c then
        match body t with Some x => Some x | None => body s end
      else body s
  end.
Proof.
  cbv zeta. destruct s as [|c t]; [reflexivity |].
  change (run (prog urlRegex) cs (String c t) (final s0)) with
    (match (if Ascii.eqb dquote c
            then run (Cat (Cap 1 address) (Cap 2 quote_opt)) cs t (final s0)
            else None) with
     | Some x => Some x
     | None =>
         match (if Ascii.eqb squote c
                then run (Cat (Cap 1 address) (Cap 2 quote_opt)) cs t (final s0)
                else None) with
         | Some x => Some x
         | None => run (Cat (Cap 1 address) (Cap 2 quote_opt)) cs (String c t) (final s0)
         end
     end).
  destruct (run (Cat (Cap 1 address) (Cap 2 quote_opt)) cs t (final s0)) eqn:Et;
    by destruct (Ascii.eqb dquote c), (Ascii.eqb squote c).
Qed.

Lemma match_here_url s :
  match here_address s with
  | Some a => exists g0 g2 rest, match_here urlRegex s = Some ([g0; a; g2], rest)
  | None => match_here urlRegex s = None
  end.
Proof.
  unfold match_here. change (NumSubexp urlRegex) with 2. cbn [replicate].
  fold (final s). rewrite run_url_prog. cbv zeta.
  unfold here_address.
  destruct (address_at s) as [[a rest]|] eqn:E.
  - destruct (address_at_head _ _ _ E) as [t ->].
    change (Ascii.eqb dquote "h") with false.
    change (Ascii.eqb squote "h") with false. cbv iota.
    rewrite run_body, E.
    destruct (run_tail (String "h" t) (<[1:=a]> [EmptyString; EmptyString; EmptyString]) rest)
      as (g2 & rest' & ->).
    by eexists _, _, _.
  - destruct s as [|q t]; [by rewrite run_body, E |].
    rewrite !run_body, E.
    unfold cls_quote. rewrite (Ascii.eqb_sym q squote), (Ascii.eqb_sym q dquote).
    destruct (Ascii.eqb dquote q) eqn:Ed.
    + rewrite orb_true_r. destruct (address_at t) as [[a rest]|] eqn:Et;
        cbn [fmap option_fmap option_map fst].
      * destruct (run_tail (String q t) (<[1:=a]> [EmptyString; EmptyString; EmptyString]) rest)
          as (g2 & rest' & ->).
        by eexists _, _, _.
      * done.
    + rewrite orb_false_r. destruct (Ascii.eqb squote q) eqn:Es; [| done].
      destruct (address_at t) as [[a rest]|] eqn:Et;
        cbn [fmap option_fmap option_map fst].
      * destruct (run_tail (String q t) (<[1:=a]> [EmptyString; EmptyString; EmptyString]) rest)
          as (g2 & rest' & ->).
        by eexists _, _, _.
      * done.
Qed.

Lemma leftmost_address_here s :
  leftmost_address s =
  match here_address s with
  | Some a => Some a
  | None =>
      match s with
      | EmptyString => None
      | String _ t => leftmost_address t
      end
  end.
Proof.
  unfold here_address. destruct s as [|q t]; cbn [leftmost_address].
  - by destruct (address_at EmptyString) as [[? ?]|].
  - destruct (address_at (String q t)) as [[a r]|]; [done |].
    destruct (cls_quote q); [| done].
    destruct t as [|c t']; cbn [leftmost_address].
    + by destruct (address_at EmptyString) as [[? ?]|].
    + by destruct (address_at (String c t')) as [[? ?]|].
Qed.

Lemma group1_url s : group1 urlRegex s = leftmost_address s.
Proof.
  unfold group1, FindStringSubmatch.
  induction s as [|c t IH]; rewrite leftmost_address_here;
    cbn [find]; pose proof (match_here_url EmptyString) as H0;
    [| pose proof (match_here_url (String c t)) as H].
  - destruct (here_address EmptyString).
    + destruct H0 as (g0 & g2 & rest & ->). done.
    + by rewrite H0.
  - destruct (here_address (String c t)).
    + destruct H as (g0 & g2 & rest & ->). done.
    + by rewrite H.
Qed.

Lemma match_here_loose s :
  match address_at s with
  | Some (a, _) => exists g0 rest, match_here urlRegexLoose s = Some ([g0; a], rest)
  | None => match_here urlRegexLoose s = None
  end.
Proof.
  unfold match_here, urlRegexLoose. cbn [prog NumSubexp replicate].
  rewrite run_cap_address by done.
  destruct (address_at s) as [[a rest]|]; [| done].
  by eexists _, _.
Qed.

Lemma group1_loose s : group1 urlRegexLoose s = leftmost_address s.
Proof.
  unfold group1, FindStringSubmatch.
  induction s as [|c t IH]; cbn [find leftmost_address].
  - pose proof (match_here_loose EmptyString) as H.
    destruct (address_at EmptyString) as [[a r]|].
    + destruct H as (g0 & rest & ->). done.
    + by rewrite H.
  - pose proof (match_here_loose (String c t)) as H.
    destruct (address_at (String c t)) as [[a r]|].
    + destruct H as (g0 & rest & ->). done.
    + by rewrite H.
Qed.

Lemma extractURL_group1 cmd :
  Parser.extractURL cmd =
  match group1 urlRegex cmd with
  | Some a => Some a
  | None => group1 urlRegexLoose cmd
  end.
Proof.
  unfold Parser.extractURL, group1.
  destruct (FindStringSubmatch urlRegex cmd) as [|? [|? ?]]; done.
Qed.

Lemma extractURL_leftmost cmd : Parser.extractURL cmd = leftmost_address cmd.
Proof.
  rewrite extractURL_group1, group1_url, group1_loose.
  by destruct (leftmost_address cmd).
Qed.

End UrlFacts.

Section FlagFacts.
Import GoStrings Regexp Patterns Reference.

Lemma greedy_try_blocked {A} q (k : string -> option A) s :
  (forall c t, q c = true -> k (String c t) = None) ->
  greedy_try q k s = k (snd (span q s)).
Proof.
  intros Hk. induction s as [|c t IH]; cbn [greedy_try span]; [done |].
  destruct (q c) eqn:Eq; [| done].
  rewrite IH. destruct (span q t) as [a b]. cbn [snd].
  destruct (k b); [done |]. by apply Hk.
Qed.


Lemma match_here_flag flag p s :
  (forall c, cls_s c = true -> p c = false) ->
  match flag_word_at flag p s with
  | Some w => exists g0 rest, match_here (flag_pattern flag p) s = Some ([g0; w], rest)
  | None => match_here (flag_pattern flag p) s = None
  end.
Proof.
  intros Hdisj. unfold match_here, flag_pattern.
  cbn [prog NumSubexp replicate Seq]. fold (final s).
  rewrite run_Cat, run_Lit. unfold flag_word_at.
  destruct (strip_prefix s flag) as [t|]; [| done].
  rewrite run_Cat. unfold ws. rewrite run_Plus_cls.
  set (k' := fun u : string =>
     run (Cap 1 (Plus true (Cls p))) [EmptyString; EmptyString] u (final s)).
  change (match t with
          | EmptyString => None
          | String c t0 => if cls_s c then greedy_try cls_s k' t0 else None
          end) with
    (match t with
     | EmptyString => None
     | String c t0 => if cls_s c then greedy_try cls_s k' t0 else None
     end).
  assert (Hk' : forall u, k' u =
     match span p u with
     | (EmptyString, _) => None
     | (w, rest) => Some ([consumed s rest; w], rest)
     end).
  { intros u. unfold k'. rewrite run_Cap.
    rewrite run_Plus_span by done.
    destruct (span p u) as [[|c a] b] eqn:E; [done |].
    unfold final. apply span_app in E. rewrite E, consumed_app. done. }
  assert (Hblock : forall c u, cls_s c = true -> k' (String c u) = None).
  { intros c u Hc. rewrite Hk'. cbn [span]. by rewrite (Hdisj c Hc). }
  destruct t as [|c t0]; [done |]. cbn [span].
  destruct (cls_s c) eqn:Ec; [| done].
  rewrite (greedy_try_blocked _ _ _ Hblock).
  destruct (span cls_s t0) as [sp t2]. cbn [snd]. rewrite Hk'.
  destruct (span p t2) as [[|c' w] rest]; [done |].
  by eexists _, _.
Qed.

Lemma group1_flag_word flag p s :
  (forall c, cls_s c = true -> p c = false) ->
  group1 (flag_pattern flag p) s = flag_word flag p s.
Proof.
  intros Hdisj. unfold group1, FindStringSubmatch.
  induction s as [|c t IH]; cbn [find flag_word].
  - pose proof (match_here_flag flag p EmptyString Hdisj) as H.
    destruct (flag_word_at flag p EmptyString).
    + by destruct H as (g0 & rest & ->).
    + by rewrite H.
  - pose proof (match_here_flag flag p (String c t) Hdisj) as H.
    destruct (flag_word_at flag p (String c t)).
    + by destruct H as (g0 & rest & ->).
    + by rewrite H.
Qed.

Lemma space_not_word c : cls_s c = true -> cls_w c = false.
Proof.
  unfold cls_s. intros H.
  repeat (apply orb_true_iff in H as [H|H]);
    apply Ascii.eqb_eq in H; subst c; reflexivity.
Qed.

Lemma space_not_digit c : cls_s c = true -> cls_d c = false.
Proof.
  unfold cls_s. intros H.
  repeat (apply orb_true_iff in H as [H|H]);
    apply Ascii.eqb_eq in H; subst c; reflexivity.
Qed.

Lemma extractMethod_flag_word cmd :
  Parser.extractMethod cmd =
  match flag_word "-X" cls_w cmd with
  | Some w => ToUpper w
  | None =>
      match flag_word "--request" cls_w cmd with
      | Some w => ToUpper w
      | None =>
          if Contains cmd "--data" || Contains cmd "-d"
             || Contains cmd "--form" || Contains cmd "-F"
          then "POST" else "GET"
      end
  end.
Proof.
  rewrite <- !(group1_flag_word _ _ _ space_not_word).
  unfold Parser.extractMethod, group1.
  change (flag_pattern "-X" cls_w) with methodRegex.
  change (flag_pattern "--request" cls_w) with requestRegex.
  destruct (FindStringSubmatch methodRegex cmd) as [|? [|? ?]];
    destruct (FindStringSubmatch requestRegex cmd) as [|? [|? ?]]; try done;
    by destruct (Contains cmd "--data"), (Contains cmd "-d"),
         (Contains cmd "--form"), (Contains cmd "-F").
Qed.

End FlagFacts.

Section AddressExists.
Import GoStrings Regexp Patterns Reference.



Lemma leftmost_address_eq s :
  leftmost_address s =
  match address_at s with
  | Some (a, _) => Some a
  | None =>
      match s with
      | EmptyString => None
      | String _ t => leftmost_address t
      end
  end.
Proof. by destruct s. Qed.


End AddressExists.

Section ParseFacts.
Import GoStrings Regexp Patterns Reference Parser.

Lemma core_extractUserAgent cmd req : core (extractUserAgent cmd req) = core req.
Proof. unfold extractUserAgent. by destruct (scalar_option _ _). Qed.
Lemma core_extractAuth cmd req : core (extractAuth cmd req) = core req.
Proof. unfold extractAuth. by destruct (scalar_option _ _). Qed.
Lemma core_extractReferer cmd req : core (extractReferer cmd req) = core req.
Proof. unfold extractReferer. by destruct (scalar_option _ _). Qed.
Lemma core_extractProxy cmd req : core (extractProxy cmd req) = core req.
Proof. unfold extractProxy. by destruct (scalar_option _ _). Qed.
Lemma core_extractTimeouts cmd req : core (extractTimeouts cmd req) = core req.
Proof.
  unfold extractTimeouts.
  destruct (FindStringSubmatch connectTimeoutRegex cmd) as [|? [|? ?]];
    by destruct (FindStringSubmatch maxTimeRegex cmd) as [|? [|? ?]].
Qed.
Lemma core_extractSSLOptions cmd req : core (extractSSLOptions cmd req) = core req.
Proof.
  unfold extractSSLOptions.
  by destruct (Contains cmd "--insecure"), (scalar_option _ _).
Qed.
Lemma core_extractCookieJar cmd req : core (extractCookieJar cmd req) = core req.
Proof. unfold extractCookieJar. by destruct (scalar_option _ _). Qed.
Lemma core_extractFollowRedirects cmd req :
  core (extractFollowRedirects cmd req) = core req.
Proof.
  unfold extractFollowRedirects.
  by destruct (Contains cmd "-L" || Contains cmd "--location").
Qed.

Lemma Parse_core curlCommand r :
  Parse curlCommand = Some r ->
  exists urlStr,
    extractURL (command_text curlCommand) = Some urlStr
    /\ core r = core (main_passes curlCommand urlStr).
Proof.
  unfold Parse. destruct (extractURL (command_text curlCommand)) as [u|]; [| done].
  intros [= <-]. exists u. split; [done |].
  by rewrite core_extractFollowRedirects, core_extractCookieJar,
    core_extractSSLOptions, core_extractTimeouts, core_extractProxy,
    core_extractReferer, core_extractAuth, core_extractUserAgent.
Qed.

Lemma Parse_None curlCommand :
  Parse curlCommand = None <-> extractURL (command_text curlCommand) = None.
Proof.
  unfold Parse. by destruct (extractURL (command_text curlCommand)).
Qed.

Lemma nonempty_false s : nonempty s = false <-> s = EmptyString.
Proof. unfold nonempty. by rewrite negb_false_iff, String.eqb_eq. Qed.

Lemma nonempty_true s : nonempty s = true <-> s <> EmptyString.
Proof. unfold nonempty. by rewrite negb_true_iff, String.eqb_neq. Qed.

Lemma extractCookies_fields c req :
  RawCookie req = EmptyString -> ParsedCookies req = ∅ ->
  let r := extractCookies c req in
  (Method r, URL r, BaseURL r, Path r, Headers r, Body r, Query r)
  = (Method req, URL req, BaseURL req, Path req, Headers req, Body req, Query req)
  /\ RawCookie r = cookie_source c (Headers req)
  /\ ParsedCookies r = parse_cookies (RawCookie r) ∅.
Proof.
  intros Hraw Hparsed. unfold extractCookies.
  destruct (nonempty (cookie_source c (Headers req))) eqn:Ec.
  - cbv zeta. unfold set_ParsedCookies, set_RawCookie.
    cbn [Method URL BaseURL Path Headers Body Query RawCookie ParsedCookies].
    by rewrite Hparsed.
  - cbv zeta. apply nonempty_false in Ec. rewrite Ec, Hraw, Hparsed. done.
Qed.

(** what the fields of the record are, pass by pass *)
Lemma Parse_fields curlCommand r :
  Parse curlCommand = Some r ->
  let cmd := command_text curlCommand in
  exists urlStr,
    extractURL cmd = Some urlStr
    /\ URL r = urlStr
    /\ Method r = extractMethod cmd
    /\ Headers r = extractHeaders_into cmd ∅
    /\ Body r = extractBody cmd
    /\ Query r = extractQueryParams_into urlStr ∅
    /\ BaseURL r = BaseURL (set_origin urlStr new_request)
    /\ Path r = Path (set_origin urlStr new_request)
    /\ RawCookie r = cookie_source curlCommand (Headers r)
    /\ ParsedCookies r = parse_cookies (RawCookie r) ∅.
Proof.
  intros (u & Hu & Hcore)%Parse_core. exists u. split; [done |].
  unfold core in Hcore.
  injection Hcore as -> -> -> -> -> -> -> -> ->.
  unfold main_passes.
  set (cmd := command_text curlCommand).
  set (req := extractQueryParams _).
  assert (Hrest : URL req = u /\ Method req = extractMethod cmd
                  /\ Headers req = extractHeaders_into cmd ∅
                  /\ Body req = extractBody cmd
                  /\ Query req = extractQueryParams_into u ∅
                  /\ BaseURL req = BaseURL (set_origin u new_request)
                  /\ Path req = Path (set_origin u new_request)
                  /\ RawCookie req = EmptyString /\ ParsedCookies req = ∅).
  { unfold req, extractQueryParams, extractHeaders, set_origin.
    by destruct (URL.Parse u). }
  destruct Hrest as (H1 & H2 & Hh & H3 & H4 & H5 & H6 & H7 & H8).
  destruct (extractCookies_fields curlCommand req H7 H8) as (Hc & Hr & Hp).
  injection Hc as E1 E2 E3 E4 E5 E6 E7.
  rewrite E1, E2, E3, E4, E5, E6, E7, Hp, Hr. clear.
  subst req cmd. unfold extractQueryParams, extractHeaders, set_origin.
  by destruct (URL.Parse u).
Qed.

End ParseFacts.

Section FoldFacts.
Import GoStrings Regexp Patterns Reference Parser.

Lemma omap_cons {X Y} (f : X -> option Y) (x : X) (l : list X) :
  omap f (x :: l) = match f x with Some y => y :: omap f l | None => omap f l end.
Proof. reflexivity. Qed.

Lemma omap_map {X Y Z} (f : Y -> option Z) (g : X -> Y) (l : list X) :
  omap f (map g l) = omap (fun x => f (g x)) l.
Proof.
  induction l as [|x l IH]; [done |].
  cbn [map]. by rewrite !omap_cons, IH.
Qed.

Lemma foldl_last_value {X} (add : gmap string string -> X -> gmap string string)
    (entry : X -> option (string * string)) :
  (forall h x, add h x = match entry x with
                         | Some (n, v) => <[n := v]> h
                         | None => h
                         end) ->
  forall xs h k,
    foldl add h xs !! k =
    match last_value k (omap entry xs) with
    | Some v => Some v
    | None => h !! k
    end.
Proof.
  intros Hadd xs. induction xs as [|x xs IH]; intros h k; [done |].
  cbn [foldl]. rewrite IH, Hadd, omap_cons.
  destruct (entry x) as [[n v]|]; cbn [last_value]; [| done].
  destruct (last_value k (omap entry xs)); [done |].
  destruct (decide (n = k)) as [->|Hne].
  - by rewrite lookup_insert_eq.
  - by rewrite lookup_insert_ne.
Qed.


Lemma SplitN_2 s sep :
  SplitN s sep 2 =
  match Cut s sep with
  | Some (before, after) => [before; after]
  | None => [s]
  end.
Proof. cbn. by destruct (Cut s sep) as [[? ?]|]. Qed.

Lemma add_header_entry h m :
  add_header h m =
  match (if nonempty (first_group m) then header_entry (first_group m) else None) with
  | Some (n, v) => <[n := v]> h
  | None => h
  end.
Proof.
  unfold add_header, header_entry. destruct (nonempty (first_group m)); [| done].
  rewrite SplitN_2. by destruct (Cut (first_group m) ":") as [[? ?]|].
Qed.

Lemma omap_filter_nonempty (f : string -> option (string * string)) (l : list string) :
  omap (fun h => if nonempty h then f h else None) l
  = omap f (filter (fun h => h <> EmptyString) l).
Proof.
  induction l as [|x l IH]; [done |].
  rewrite omap_cons, filter_cons.
  destruct (nonempty x) eqn:E.
  - apply nonempty_true in E. rewrite decide_True by done.
    by rewrite omap_cons, IH.
  - apply nonempty_false in E. rewrite decide_False by (by intros ?). done.
Qed.

Lemma extractHeaders_lookup cmd h k :
  extractHeaders_into cmd h !! k =
  match last_value k (header_entries cmd) with
  | Some v => Some v
  | None => h !! k
  end.
Proof.
  unfold extractHeaders_into, header_entries, header_texts.
  rewrite (foldl_last_value add_header _ add_header_entry).
  by rewrite <- omap_filter_nonempty, omap_map.
Qed.

Lemma add_cookie_entry h piece :
  add_cookie h piece =
  match cookie_entry piece with
  | Some (n, v) => <[n := v]> h
  | None => h
  end.
Proof.
  unfold add_cookie, cookie_entry. rewrite SplitN_2.
  destruct (nonempty (TrimSpace piece)) eqn:E.
  - by destruct (Cut (TrimSpace piece) "=") as [[? ?]|].
  - apply nonempty_false in E. by rewrite E.
Qed.

Lemma parse_cookies_lookup cookieData h k :
  parse_cookies cookieData h !! k =
  match last_value k (cookie_entries cookieData) with
  | Some v => Some v
  | None => h !! k
  end.
Proof.
  unfold parse_cookies, cookie_entries.
  by rewrite (foldl_last_value add_cookie _ add_cookie_entry).
Qed.

End FoldFacts.

Section QueryFacts.
Import GoStrings Regexp Patterns Reference Parser.

Lemma Cut_Some s sep b a :
  Cut s sep = Some (b, a) -> s = b +:+ sep +:+ a.
Proof.
  revert b. induction s as [|c t IH]; intros b; cbn [Cut].
  - destruct (strip_prefix EmptyString sep) as [x|] eqn:E; [| done].
    intros [= <- <-]. by apply strip_prefix_Some in E.
  - destruct (strip_prefix (String c t) sep) as [x|] eqn:E.
    + intros [= <- <-]. by apply strip_prefix_Some in E.
    + destruct (Cut t sep) as [[b' a']|]; [| done].
      intros [= <- <-]. rewrite append_cons. f_equal. by apply IH.
Qed.

Lemma Cut_length s sep b a :
  Cut s sep = Some (b, a) ->
  String.length s = String.length b + String.length sep + String.length a.
Proof. intros ->%Cut_Some. rewrite !length_append. lia. Qed.

Lemma parseQuery_step n m q :
  URL.parseQuery (S n) m q =
  if String.eqb q EmptyString then m
  else
    let '(piece, q') :=
      match Cut q "&" with
      | Some (k, q') => (k, q')
      | None => (q, EmptyString)
      end in
    URL.parseQuery n
      (match query_entry piece with
       | Some e => add_value m e
       | None => m
       end) q'.
Proof.
  cbn [URL.parseQuery]. destruct (String.eqb q EmptyString); [done |].
  destruct (match Cut q "&" with Some (k, q') => (k, q') | None => (q, EmptyString) end)
    as [piece q'].
  unfold query_entry.
  destruct (Contains piece ";"); [done |].
  destruct (String.eqb piece EmptyString); [done |].
  destruct (match Cut piece "=" with Some (k, v) => (k, v) | None => (piece, EmptyString) end)
    as [key value].
  destruct (URL.QueryUnescape key) as [key'|]; [| done].
  by destruct (URL.QueryUnescape value) as [value'|].
Qed.

Lemma parseQuery_entries n q m :
  String.length q <= n ->
  URL.parseQuery (S n) m q
  = foldl add_value m (omap query_entry (split_upto n q "&")).
Proof.
  revert q m. induction n as [|n IH]; intros q m Hn.
  - destruct q; [done | cbn in Hn; lia].
  - rewrite parseQuery_step. cbn [split_upto].
    destruct (String.eqb_spec q EmptyString) as [->|Hq]; [done |].
    destruct (Cut q "&") as [[piece q']|] eqn:E.
    + apply Cut_length in E. cbn in E.
      rewrite IH by lia. rewrite omap_cons.
      by destruct (query_entry piece).
    + rewrite parseQuery_step. cbn [String.eqb]. rewrite omap_cons.
      by destruct (query_entry q).
Qed.

Lemma Query_entries u :
  URL.Query u = foldl add_value ∅ (query_entries (URL.RawQuery u)).
Proof. unfold URL.Query, query_entries, Split. by apply parseQuery_entries. Qed.

Lemma foldl_add_value es m k :
  foldl add_value m es !! k =
  match m !! k, values_of k es with
  | None, [] => None
  | o, vs => Some (default [] o ++ vs)
  end.
Proof.
  revert m. induction es as [|[n v] es IH]; intros m; cbn [foldl values_of].
  - destruct (m !! k); [by rewrite app_nil_r | done].
  - rewrite IH. unfold add_value. cbn [fst snd].
    destruct (decide (n = k)) as [->|Hne].
    + rewrite lookup_insert_eq.
      destruct (m !! k); cbn [default id]; by rewrite <- ?app_assoc.
    + by rewrite lookup_insert_ne.
Qed.

Lemma first_value_head k es : first_value k es = head (values_of k es).
Proof.
  induction es as [|[n v] es IH]; [done |].
  cbn [first_value values_of]. by destruct (decide (n = k)).
Qed.

Lemma first_values_lookup (query : URL.Values) into k :
  first_values query into !! k =
  match query !! k with
  | Some (v :: _) => Some v
  | _ => into !! k
  end.
Proof.
  unfold first_values. revert k.
  apply (map_fold_weak_ind
    (fun r (m : URL.Values) => forall k, r !! k =
       match m !! k with Some (v :: _) => Some v | _ => into !! k end)).
  - intros k. by rewrite lookup_empty.
  - intros i x m r Hi Hr k. destruct (decide (i = k)) as [->|Hne].
    + rewrite lookup_insert_eq. destruct x as [|v x].
      * by rewrite Hr, Hi.
      * by rewrite lookup_insert_eq.
    + rewrite lookup_insert_ne by done. destruct x as [|v x].
      * apply Hr.
      * rewrite lookup_insert_ne by done. apply Hr.
Qed.

Lemma extractQueryParams_lookup urlStr u k :
  URL.Parse urlStr = Some u ->
  extractQueryParams_into urlStr ∅ !! k
  = first_value k (query_entries (URL.RawQuery u)).
Proof.
  intros Hu. unfold extractQueryParams_into. rewrite Hu.
  rewrite first_values_lookup, Query_entries, foldl_add_value, first_value_head.
  rewrite !lookup_empty. cbn [default].
  by destruct (values_of k (query_entries (URL.RawQuery u))).
Qed.

Lemma extractQueryParams_unparsed urlStr :
  URL.Parse urlStr = None -> extractQueryParams_into urlStr ∅ = ∅.
Proof. intros Hu. unfold extractQueryParams_into. by rewrite Hu. Qed.

End QueryFacts.

Section ByteFacts.
Import GoStrings Regexp Patterns Reference Parser.

Lemma has_byte_app c a b : has_byte c (a +:+ b) = has_byte c a || has_byte c b.
Proof.
  induction a as [|x a IH]; [done |].
  rewrite append_cons. cbn [has_byte]. by rewrite IH, orb_assoc.
Qed.

Lemma Cut_first_byte s c sep :
  has_byte c s = false -> Cut s (String c sep) = None.
Proof.
  induction s as [|x t IH]; [done |].
  cbn [has_byte Cut strip_prefix]. intros [H1 H2]%orb_false_iff.
  rewrite H1, (IH H2). done.
Qed.

Lemma CutLast_first_byte s c sep :
  has_byte c s = false -> CutLast s (String c sep) = None.
Proof.
  induction s as [|x t IH]; [done |].
  cbn [has_byte CutLast strip_prefix]. intros [H1 H2]%orb_false_iff.
  rewrite H1, (IH H2). done.
Qed.

Lemma Cut_app_byte a b c :
  has_byte c a = false ->
  Cut (a +:+ b) (String c EmptyString) =
  match Cut b (String c EmptyString) with
  | Some (x, y) => Some (a +:+ x, y)
  | None => None
  end.
Proof.
  induction a as [|x a IH]; intros H.
  - rewrite append_nil_l. by destruct (Cut b _) as [[? ?]|].
  - cbn [has_byte] in H. apply orb_false_iff in H as [H1 H2].
    rewrite append_cons. cbn [Cut strip_prefix]. rewrite H1, (IH H2).
    by destruct (Cut b _) as [[? ?]|].
Qed.

Lemma before_app_byte a b c :
  has_byte c a = false ->
  before (String c EmptyString) (a +:+ b) = a +:+ before (String c EmptyString) b.
Proof.
  intros H. unfold before. rewrite (Cut_app_byte _ _ _ H).
  by destruct (Cut b _) as [[? ?]|].
Qed.

Lemma before_has_byte c d s :
  has_byte c s = false -> has_byte c (before (String d EmptyString) s) = false.
Proof.
  unfold before. destruct (Cut s _) as [[b a]|] eqn:E; [| done].
  apply Cut_Some in E. intros H. rewrite E, has_byte_app in H.
  by apply orb_false_iff in H as [? _].
Qed.

Lemma HasSuffix_byte s c :
  HasSuffix s (String c EmptyString) = true -> exists b, s = b +:+ String c EmptyString.
Proof.
  induction s as [|x t IH]; [done |].
  cbn [HasSuffix]. intros [H|H]%orb_true_iff.
  - apply String.eqb_eq in H. exists EmptyString. by rewrite H.
  - destruct (IH H) as [b ->]. by exists (String x b).
Qed.

Lemma has_byte_last b c : has_byte c (b +:+ String c EmptyString) = true.
Proof.
  rewrite has_byte_app. cbn [has_byte]. by rewrite Ascii.eqb_refl, orb_true_r.
Qed.

Lemma Cut_byte_Some s c :
  has_byte c s = true -> exists b a, Cut s (String c EmptyString) = Some (b, a).
Proof.
  induction s as [|x t IH]; [done |].
  cbn [has_byte Cut strip_prefix]. destruct (Ascii.eqb c x) eqn:E; [eauto |].
  cbn [orb]. intros H. destruct (IH H) as (b & a & ->). eauto.
Qed.

Lemma drop_last_app b c : URL.drop_last (b +:+ String c EmptyString) = b.
Proof.
  unfold URL.drop_last. rewrite length_append. cbn [String.length].
  replace (String.length b + 1 - 1) with (String.length b) by lia.
  apply substring_all.
Qed.

Lemma Cut_byte_app_l a b c x y :
  Cut a (String c EmptyString) = Some (x, y) ->
  Cut (a +:+ b) (String c EmptyString) = Some (x, y +:+ b).
Proof.
  revert x. induction a as [|d a IH]; intros x; [done |].
  rewrite append_cons. cbn [Cut strip_prefix].
  destruct (Ascii.eqb c d); [by intros [= <- <-] |].
  destruct (Cut a _) as [[x' y']|]; [| done].
  intros [= <- <-]. by rewrite (IH _ eq_refl).
Qed.

(** a text that ends with its only [c] *)
Lemma Count_one_last s c :
  HasSuffix s (String c EmptyString) = true ->
  Count s (String c EmptyString) = 1 ->
  before (String c EmptyString) s = URL.drop_last s.
Proof.
  intros [b ->]%HasSuffix_byte Hcount. rewrite drop_last_app.
  destruct (has_byte c b) eqn:Hb.
  - exfalso. unfold Count in Hcount.
    rewrite length_append in Hcount. cbn [String.length] in Hcount.
    replace (String.length b + 1) with (S (String.length b)) in Hcount by lia.
    cbn [count_upto] in Hcount.
    destruct (Cut_byte_Some _ _ Hb) as (x & y & Hxy).
    rewrite (Cut_byte_app_l _ _ _ _ _ Hxy) in Hcount.
    destruct b as [|b0 b]; [done |]. cbn [String.length count_upto] in Hcount.
    destruct (Cut_byte_Some _ _ (has_byte_last y c)) as (x' & y' & Hxy').
    rewrite Hxy' in Hcount. done.
  - rewrite before_app_byte by done. unfold before. cbn [Cut strip_prefix].
    by rewrite Ascii.eqb_refl, append_nil_r.
Qed.

Lemma query_split rest :
  (let '(rest', _, _) :=
     if HasSuffix rest "?" && Nat.eqb (Count rest "?") 1
     then (URL.drop_last rest, true, EmptyString)
     else match Cut rest "?" with
          | Some (b, a) => (b, false, a)
          | None => (rest, false, EmptyString)
          end in rest') = before "?" rest.
Proof.
  destruct (HasSuffix rest "?") eqn:Hs; cbn [andb].
  - destruct (Nat.eqb_spec (Count rest "?") 1) as [Hc|Hc].
    + symmetry. by apply Count_one_last.
    + unfold before. by destruct (Cut rest "?") as [[? ?]|].
  - unfold before. by destruct (Cut rest "?") as [[? ?]|].
Qed.

Lemma unescape_plain mode s s' :
  URL.unescape mode s = Some s' -> has_byte "%" s = false ->
  mode <> URL.encodeQueryComponent -> s' = s.
Proof.
  intros H Hno Hmode. revert s' H. induction s as [|c t IH]; intros s' H.
  - by injection H as <-.
  - cbn [has_byte] in Hno. apply orb_false_iff in Hno as [Hc Ht].
    cbn [URL.unescape] in H. rewrite (Ascii.eqb_sym c "%"), Hc in H.
    destruct (Ascii.eqb c "+") eqn:Ep.
    + destruct (URL.unescape mode t) as [t'|]; [| done].
      injection H as <-. rewrite (IH Ht t' eq_refl).
      apply Ascii.eqb_eq in Ep. subst c. by destruct mode.
    + destruct (URL.is_host_mode mode && _ && _); [done |].
      destruct (URL.unescape mode t) as [t'|]; [| done].
      injection H as <-. by rewrite (IH Ht t' eq_refl).
Qed.

Lemma CutLast_Some s sep b a :
  CutLast s sep = Some (b, a) -> s = b +:+ sep +:+ a.
Proof.
  revert b. induction s as [|c t IH]; intros b; cbn [CutLast].
  - destruct (strip_prefix EmptyString sep) as [x|] eqn:E; [| done].
    intros [= <- <-]. by apply strip_prefix_Some in E.
  - destruct (CutLast t sep) as [[b' a']|].
    + intros [= <- <-]. rewrite append_cons. f_equal. by apply IH.
    + destruct (strip_prefix (String c t) sep) as [x|] eqn:E; [| done].
      intros [= <- <-]. by apply strip_prefix_Some in E.
Qed.

Lemma parseHost_plain host h :
  URL.parseHost host = Some h -> has_byte "%" host = false -> h = host.
Proof.
  unfold URL.parseHost. intros H Hno.
  destruct (HasPrefix host "[").
  - destruct (CutLast host "]") as [[inside colonPort]|] eqn:E; [| done].
    destruct (negb (URL.validOptionalPort colonPort)); [done |].
    assert (Hin : has_byte "%" inside = false).
    { apply CutLast_Some in E. rewrite E, has_byte_app in Hno.
      by apply orb_false_iff in Hno as [? _]. }
    rewrite (Cut_first_byte _ _ _ Hin) in H.
    by apply unescape_plain in H.
  - destruct (CutLast host ":") as [[? port]|].
    + destruct (URL.validOptionalPort _); [| done]. by apply unescape_plain in H.
    + by apply unescape_plain in H.
Qed.

Lemma parseAuthority_plain authority user host :
  URL.parseAuthority authority = Some (user, host) ->
  has_byte "%" authority = false -> has_byte "@" authority = false ->
  host = authority.
Proof.
  unfold URL.parseAuthority. intros H Hp Ha.
  rewrite (CutLast_first_byte _ _ _ Ha) in H.
  destruct (URL.parseHost authority) as [h|] eqn:E; [| done].
  cbn in H. injection H as _ <-. by apply parseHost_plain in E.
Qed.

Lemma parse_origin sch t url :
  sch = "http" \/ sch = "https" ->
  URL.parse (sch +:+ "://" +:+ t) = Some url ->
  has_byte "%" t = false -> has_byte "@" t = false ->
  URL.Scheme url +:+ "://" +:+ URL.Host url +:+ URL.Path url
  = before "?" (sch +:+ "://" +:+ t).
Proof.
  intros Hsch H Hp Ha. unfold URL.parse in H.
  destruct (URL.stringContainsCTLByte _); [done |].
  assert (Hstar : String.eqb (sch +:+ "://" +:+ t) "*" = false)
    by (by destruct Hsch as [-> | ->]).
  rewrite Hstar in H.
  assert (Hget : URL.getScheme (sch +:+ "://" +:+ t) = Some (sch, "//" +:+ t))
    by (by destruct Hsch as [-> | ->]).
  rewrite Hget in H. cbn [mbind option_bind] in H.
  assert (Hlow : ToLower sch = sch) by (by destruct Hsch as [-> | ->]).
  rewrite Hlow in H.
  pose proof (query_split ("//" +:+ t)) as Hsplit.
  destruct (if HasSuffix ("//" +:+ t) "?" && Nat.eqb (Count ("//" +:+ t) "?") 1
            then (URL.drop_last ("//" +:+ t), true, EmptyString)
            else match Cut ("//" +:+ t) "?" with
                 | Some (b, a) => (b, false, a)
                 | None => ("//" +:+ t, false, EmptyString)
                 end) as [[rest force] rawQuery].
  rewrite (before_app_byte "//" t "?" eq_refl) in Hsplit. subst rest.
  set (t1 := before "?" t) in *.
  assert (Hp1 : has_byte "%" t1 = false) by (by apply before_has_byte).
  assert (Ha1 : has_byte "@" t1 = false) by (by apply before_has_byte).
  change (HasPrefix ("//" +:+ t1) "/") with true in H.
  change (HasPrefix ("//" +:+ t1) "//") with true in H.
  change (TrimPrefix ("//" +:+ t1) "//") with t1 in H.
  assert (Hne : String.eqb sch EmptyString = false)
    by (by destruct Hsch as [-> | ->]).
  rewrite Hne in H. cbn [negb andb orb] in H.
  assert (Hbefore : before "?" (sch +:+ "://" +:+ t) = sch +:+ "://" +:+ t1).
  { destruct Hsch as [-> | ->].
    - rewrite <- append_assoc.
      by rewrite (before_app_byte ("http" +:+ "://") t "?" eq_refl), append_assoc.
    - rewrite <- append_assoc.
      by rewrite (before_app_byte ("https" +:+ "://") t "?" eq_refl), append_assoc. }
  rewrite Hbefore.
  destruct (Cut t1 "/") as [[authority p]|] eqn:Ecut.
  - pose proof (Cut_Some _ _ _ _ Ecut) as Ht1.
    rewrite Ht1, !has_byte_app in Hp1, Ha1.
    apply orb_false_iff in Hp1 as [Hp1 Hp2]. apply orb_false_iff in Ha1 as [Ha1 Ha2].
    destruct (URL.parseAuthority authority) as [[user host]|] eqn:Eauth; [| done].
    cbn [mbind option_bind] in H.
    destruct (URL.unescape URL.encodePath ("/" +:+ p)) as [path|] eqn:Epath; [| done].
    cbn [mbind option_bind] in H. injection H as <-. cbn [URL.Scheme URL.Host URL.Path].
    apply parseAuthority_plain in Eauth; [| done..]. subst host.
    apply unescape_plain in Epath; [| done..]. subst path.
    by rewrite Ht1.
  - destruct (URL.parseAuthority t1) as [[user host]|] eqn:Eauth; [| done].
    cbn [mbind option_bind] in H. cbn [URL.unescape] in H.
    cbn [fmap option_fmap option_map mbind option_bind] in H.
    injection H as <-. cbn [URL.Scheme URL.Host URL.Path].
    apply parseAuthority_plain in Eauth; [| done..]. subst host.
    by rewrite append_nil_r.
Qed.

End ByteFacts.

Section OriginFacts.
Import GoStrings Regexp Patterns Reference Parser.

Lemma Parse_origin sch t u :
  sch = "http" \/ sch = "https" ->
  URL.Parse (sch +:+ "://" +:+ t) = Some u ->
  has_byte "%" t = false -> has_byte "@" t = false ->
  URL.Scheme u +:+ "://" +:+ URL.Host u +:+ URL.Path u
  = up_to_query (sch +:+ "://" +:+ t).
Proof.
  intros Hsch H Hp Ha. unfold URL.Parse in H. unfold up_to_query, before at 2.
  assert (Hcut : Cut (sch +:+ "://" +:+ t) "#" =
                 match Cut t "#" with
                 | Some (x, y) => Some (sch +:+ "://" +:+ x, y)
                 | None => None
                 end).
  { rewrite <- append_assoc.
    destruct Hsch as [-> | ->].
    - rewrite (Cut_app_byte ("http" +:+ "://") t "#" eq_refl).
      destruct (Cut t "#") as [[? ?]|]; [| done]. by rewrite append_assoc.
    - rewrite (Cut_app_byte ("https" +:+ "://") t "#" eq_refl).
      destruct (Cut t "#") as [[? ?]|]; [| done]. by rewrite append_assoc. }
  rewrite Hcut in H |- *.
  destruct (Cut t "#") as [[x frag]|] eqn:E.
  - apply Cut_Some in E. rewrite E, !has_byte_app in Hp, Ha.
    apply orb_false_iff in Hp as [Hp _]. apply orb_false_iff in Ha as [Ha _].
    destruct (URL.parse (sch +:+ "://" +:+ x)) as [url|] eqn:Eu; [| done].
    cbn [mbind option_bind] in H.
    rewrite <- (parse_origin sch x url Hsch Eu Hp Ha).
    destruct (String.eqb frag EmptyString); [by injection H as <- |].
    destruct (URL.unescape URL.encodeFragment frag); [| done].
    cbn [mbind option_bind] in H. by injection H as <-.
  - destruct (URL.parse (sch +:+ "://" +:+ t)) as [url|] eqn:Eu; [| done].
    cbn [mbind option_bind String.eqb] in H. injection H as <-.
    by apply parse_origin.
Qed.

Lemma address_at_scheme_split s a rest :
  address_at s = Some (a, rest) ->
  exists sch t, (sch = "http" \/ sch = "https") /\ a = sch +:+ "://" +:+ t.
Proof.
  unfold address_at, address_with.
  destruct (strip_prefix s "https://") as [t|].
  - destruct (span url_byte t) as [[|c b] r].
    + destruct (strip_prefix s "http://") as [t'|]; [| done].
      destruct (span url_byte t') as [[|c' b'] r']; [done |].
      intros [= <- <-]. exists "http", (String c' b'). eauto.
    + intros [= <- <-]. exists "https", (String c b). eauto.
  - destruct (strip_prefix s "http://") as [t'|]; [| done].
    destruct (span url_byte t') as [[|c' b'] r']; [done |].
    intros [= <- <-]. exists "http", (String c' b'). eauto.
Qed.

Lemma leftmost_address_scheme s a :
  leftmost_address s = Some a ->
  exists sch t, (sch = "http" \/ sch = "https") /\ a = sch +:+ "://" +:+ t.
Proof.
  induction s as [|c s IH]; rewrite leftmost_address_eq.
  - destruct (address_at EmptyString) as [[a' r]|] eqn:E; [| done].
    intros [= <-]. by apply address_at_scheme_split in E.
  - destruct (address_at (String c s)) as [[a' r]|] eqn:E; [| done].
    intros [= <-]. by apply address_at_scheme_split in E.
Qed.

Lemma set_origin_fields urlStr u :
  URL.Parse urlStr = Some u ->
  BaseURL (set_origin urlStr new_request) = URL.Scheme u +:+ "://" +:+ URL.Host u
  /\ Path (set_origin urlStr new_request) = URL.Path u.
Proof. intros H. unfold set_origin. by rewrite H. Qed.

Lemma set_origin_unparsed urlStr :
  URL.Parse urlStr = None ->
  BaseURL (set_origin urlStr new_request) = EmptyString
  /\ Path (set_origin urlStr new_request) = EmptyString.
Proof. intros H. unfold set_origin. by rewrite H. Qed.

End OriginFacts.

Section CleanFacts.
Import GoStrings Regexp Patterns Reference Parser.

Lemma Cut_blank_join s x y R :
  Cut s continuation = Some (x, y) ->
  Cut R continuation = None ->
  Cut (x +:+ " " +:+ R) continuation = None.
Proof.
  intros Hs HR. revert x Hs. induction s as [|c t IH]; intros x Hs.
  - done.
  - unfold continuation in *. cbn [Cut strip_prefix] in Hs.
    destruct (Ascii.eqb "\" c) eqn:Ec.
    + destruct t as [|d t'].
      * done.
      * destruct (Ascii.eqb LF d) eqn:Ed.
        -- injection Hs as <- <-. rewrite append_nil_l.
           change (" " +:+ R) with (String " " R). cbn [Cut strip_prefix].
           change (Ascii.eqb "\" " ") with false. cbv iota. by rewrite HR.
        -- destruct (Cut (String d t') _) as [[x' y']|] eqn:E'; [| done].
           injection Hs as <- <-. rewrite append_cons. cbn [Cut strip_prefix].
           rewrite Ec. rewrite (IH _ eq_refl).
           destruct x' as [|e x'].
           ++ by rewrite append_nil_l.
           ++ rewrite append_cons.
              assert (e = d) as ->.
              { apply Cut_Some in E'. rewrite append_cons in E'. by injection E'. }
              by rewrite Ed.
    + destruct (Cut t _) as [[x' y']|] eqn:E'; [| done].
      injection Hs as <- <-. rewrite append_cons. cbn [Cut strip_prefix].
      by rewrite Ec, (IH _ eq_refl).
Qed.

Lemma replace_upto_no_continuation n s :
  String.length s <= n ->
  Cut (replace_upto n s continuation " ") continuation = None.
Proof.
  revert s. induction n as [|n IH]; intros s Hn.
  - destruct s; [done | cbn in Hn; lia].
  - cbn [replace_upto]. destruct (Cut s continuation) as [[x y]|] eqn:E; [| done].
    apply (Cut_blank_join s x y); [done |].
    apply IH. apply Cut_length in E. cbn in E. lia.
Qed.

Lemma replace_upto_absent n s old new :
  Cut s old = None -> replace_upto n s old new = s.
Proof. intros H. destruct n; [done |]. cbn [replace_upto]. by rewrite H. Qed.

Lemma joined_idempotent s : joined (joined s) = joined s.
Proof.
  unfold joined at 1. unfold ReplaceAll. apply replace_upto_absent.
  unfold joined, ReplaceAll. by apply replace_upto_no_continuation.
Qed.

Lemma clean_joined s : ParserV1.clean (joined s) = ParserV1.clean s.
Proof.
  unfold ParserV1.clean. fold continuation. fold (joined (joined s)).
  fold (joined s). by rewrite joined_idempotent.
Qed.

Lemma clean_plain s :
  has_byte "\" s = false -> TrimSpace s = s -> ParserV1.clean s = s.
Proof.
  intros Hb Ht. unfold ParserV1.clean, ReplaceAll.
  rewrite (replace_upto_absent _ s) by (by apply Cut_first_byte).
  rewrite (replace_upto_absent _ s) by (by apply Cut_first_byte).
  done.
Qed.

End CleanFacts.

Section AgreeFacts.
Import GoStrings Regexp Patterns Reference.

Lemma ParseV1_text s : ParserV1.Parse s = parse_text (ParserV1.command_text s).
Proof.
  unfold ParserV1.Parse, parse_text, ParserV1.extractURL.
  destruct (Parser.extractURL (ParserV1.command_text s)) as [u|]; [| done].
  unfold ParserV1.extractQueryParams, ParserV1.extractHeaders, ParserV1.set_origin,
    Parser.set_origin.
  by destruct (URL.Parse u).
Qed.

Lemma Parse_text s : shared <$> Parser.Parse s = parse_text (Parser.command_text s).
Proof.
  unfold parse_text. destruct (Parser.Parse s) as [r|] eqn:E.
  - destruct (Parse_fields s r E) as (u & Hu & H1 & H2 & H3 & H4 & H5 & H6 & H7 & _).
    rewrite Hu. cbn [fmap option_fmap option_map]. unfold shared.
    by rewrite H1, H2, H3, H4, H5, H6, H7.
  - apply Parse_None in E. by rewrite E.
Qed.

Lemma command_text_clean s :
  ParserV1.command_text s = Parser.command_text (ParserV1.clean s).
Proof. reflexivity. Qed.

Lemma ParseV1_clean s : ParserV1.Parse s = shared <$> Parser.Parse (ParserV1.clean s).
Proof. by rewrite ParseV1_text, Parse_text, command_text_clean. Qed.

Lemma command_text_TrimPrefix s : Parser.command_text s = TrimPrefix s "curl ".
Proof.
  unfold Parser.command_text, HasPrefix, TrimPrefix.
  by destruct (strip_prefix s "curl ").
Qed.

End AgreeFacts.

Section TrimFacts.
Import GoStrings Regexp Patterns Reference.

Lemma has_byte_rev_app c s acc :
  has_byte c (String.rev_app s acc) = has_byte c s || has_byte c acc.
Proof.
  revert acc. induction s as [|x s IH]; intros acc; [done |].
  cbn [String.rev_app has_byte]. rewrite IH. cbn [has_byte].
  by destruct (Ascii.eqb c x), (has_byte c s), (has_byte c acc).
Qed.

Lemma has_byte_rev c s : has_byte c (String.rev s) = has_byte c s.
Proof. unfold String.rev. by rewrite has_byte_rev_app, orb_false_r. Qed.

Lemma strip_any_has_byte c encs s t :
  strip_any encs s = Some t -> has_byte c s = false -> has_byte c t = false.
Proof.
  induction encs as [|e encs IH]; [done |]. cbn [strip_any].
  destruct (strip_prefix s e) as [t'|] eqn:E; [| done].
  intros [= <-] H. apply strip_prefix_Some in E. rewrite E, has_byte_app in H.
  by apply orb_false_iff in H as [_ ?].
Qed.

Lemma trim_left_has_byte c encs s :
  has_byte c s = false -> has_byte c (trim_left encs s) = false.
Proof.
  unfold trim_left. generalize (String.length s) as n. intros n. revert s.
  induction n as [|n IH]; intros s H; [done |]. cbn [trim_left_upto].
  destruct (strip_any encs s) as [t|] eqn:E; [| done].
  apply IH. by apply (strip_any_has_byte c encs s).
Qed.

Lemma TrimSpace_has_byte c s :
  has_byte c s = false -> has_byte c (TrimSpace s) = false.
Proof.
  intros H. unfold TrimSpace. rewrite has_byte_rev.
  apply trim_left_has_byte. rewrite has_byte_rev. by apply trim_left_has_byte.
Qed.

Lemma Cut_byte_before s c b a :
  Cut s (String c EmptyString) = Some (b, a) -> has_byte c b = false.
Proof.
  revert b. induction s as [|x t IH]; intros b; [done |].
  cbn [Cut strip_prefix]. destruct (Ascii.eqb c x) eqn:E; [by intros [= <- <-] |].
  destruct (Cut t _) as [[b' a']|]; [| done].
  intros [= <- <-]. cbn [has_byte]. by rewrite E, (IH _ eq_refl).
Qed.

Lemma Cut_byte_None s c : Cut s (String c EmptyString) = None -> has_byte c s = false.
Proof.
  destruct (has_byte c s) eqn:E; [| done].
  destruct (Cut_byte_Some _ _ E) as (b & a & ->). done.
Qed.

Lemma replace_upto_drops_byte n s c :
  String.length s <= n ->
  has_byte c (replace_upto n s (String c EmptyString) EmptyString) = false.
Proof.
  revert s. induction n as [|n IH]; intros s Hn.
  - destruct s; [done | cbn in Hn; lia].
  - cbn [replace_upto].
    destruct (Cut s (String c EmptyString)) as [[b a]|] eqn:E.
    + rewrite append_nil_l, has_byte_app, (Cut_byte_before _ _ _ _ E).
      apply IH. apply Cut_length in E. cbn in E. lia.
    + by apply Cut_byte_None.
Qed.

Lemma clean_no_backslash s : has_byte "\" (ParserV1.clean s) = false.
Proof.
  unfold ParserV1.clean. apply TrimSpace_has_byte.
  unfold ReplaceAll at 1. by apply replace_upto_drops_byte.
Qed.

End TrimFacts.

Section BodyFacts.
Import GoStrings Regexp Patterns Reference Parser.

Lemma extractBody_chain cmd :
  extractBody cmd =
  match group1 singleQuoteRegex cmd with
  | Some v => v
  | None =>
  match group1 doubleQuoteRegex cmd with
  | Some v => v
  | None =>
  match group1 dataRawRegex cmd with
  | Some v => v
  | None =>
  match group1 noQuoteRegex cmd with
  | Some v => v
  | None => Join (form_values cmd) "&"
  end end end end.
Proof.
  unfold extractBody, group1, form_values.
  destruct (FindStringSubmatch singleQuoteRegex cmd) as [|? [|? ?]];
  destruct (FindStringSubmatch doubleQuoteRegex cmd) as [|? [|? ?]];
  destruct (FindStringSubmatch dataRawRegex cmd) as [|? [|? ?]];
  destruct (FindStringSubmatch noQuoteRegex cmd) as [|? [|? ?]]; try done;
  by destruct (FindAllStringSubmatch formRegex cmd).
Qed.




End BodyFacts.

Section ScalarFacts.
Import GoStrings Regexp Patterns Reference Parser.

Lemma scalars_main_passes c u : scalars (main_passes c u) = scalars new_request.
Proof.
  unfold main_passes, extractCookies, extractQueryParams, extractHeaders, set_origin.
  destruct (nonempty _); by destruct (URL.Parse u).
Qed.

Lemma extractUserAgent_set cmd req :
  extractUserAgent cmd req
  = set_UserAgent (default (UserAgent req) (scalar_option userAgentRegex cmd)) req.
Proof. unfold extractUserAgent. destruct (scalar_option _ _); by destruct req. Qed.

Lemma extractAuth_set cmd req :
  extractAuth cmd req = set_Auth (default (Auth req) (scalar_option authRegex cmd)) req.
Proof. unfold extractAuth. destruct (scalar_option _ _); by destruct req. Qed.

Lemma extractReferer_set cmd req :
  extractReferer cmd req
  = set_Referer (default (Referer req) (scalar_option refererRegex cmd)) req.
Proof. unfold extractReferer. destruct (scalar_option _ _); by destruct req. Qed.

Lemma extractProxy_set cmd req :
  extractProxy cmd req = set_Proxy (default (Proxy req) (scalar_option proxyRegex cmd)) req.
Proof. unfold extractProxy. destruct (scalar_option _ _); by destruct req. Qed.

Lemma extractCookieJar_set cmd req :
  extractCookieJar cmd req
  = set_CookieJar (default (CookieJar req) (scalar_option cookieJarRegex cmd)) req.
Proof. unfold extractCookieJar. destruct (scalar_option _ _); by destruct req. Qed.

Lemma extractSSLOptions_set cmd req :
  extractSSLOptions cmd req
  = set_CACert (default (CACert req) (scalar_option cacertRegex cmd))
      (set_Insecure (Contains cmd "--insecure" || Insecure req) req).
Proof.
  unfold extractSSLOptions.
  destruct (Contains cmd "--insecure"), (scalar_option _ _); by destruct req.
Qed.

Lemma extractFollowRedirects_set cmd req :
  extractFollowRedirects cmd req
  = set_FollowRedirects
      (Contains cmd "-L" || Contains cmd "--location" || FollowRedirects req) req.
Proof.
  unfold extractFollowRedirects.
  destruct (Contains cmd "-L" || Contains cmd "--location"); by destruct req.
Qed.

Lemma extractTimeouts_set cmd req :
  extractTimeouts cmd req
  = set_MaxTime
      (match group1 maxTimeRegex cmd with
       | Some digits => URL.Sscanf_d digits (MaxTime req)
       | None => MaxTime req
       end)
      (set_ConnectTimeout
         (match group1 connectTimeoutRegex cmd with
          | Some digits => URL.Sscanf_d digits (ConnectTimeout req)
          | None => ConnectTimeout req
          end) req).
Proof.
  unfold extractTimeouts, group1.
  destruct (FindStringSubmatch connectTimeoutRegex cmd) as [|? [|? ?]];
    destruct (FindStringSubmatch maxTimeRegex cmd) as [|? [|? ?]];
    by destruct req.
Qed.

Lemma Parse_scalars curlCommand r :
  Parse curlCommand = Some r ->
  scalars r = scalars_of (command_text curlCommand).
Proof.
  unfold Parse. destruct (extractURL (command_text curlCommand)) as [u|]; [| done].
  intros [= <-]. fold (main_passes curlCommand u).
  pose proof (scalars_main_passes curlCommand u) as Hm.
  set (cmd := command_text curlCommand) in *.
  revert Hm. generalize (main_passes curlCommand u). intros req Hm.
  rewrite extractFollowRedirects_set, extractCookieJar_set, extractSSLOptions_set,
    extractTimeouts_set, extractProxy_set, extractReferer_set, extractAuth_set,
    extractUserAgent_set.
  destruct req. injection Hm as -> -> -> -> -> -> -> -> -> ->.
  unfold scalars, scalars_of. cbn -[Contains scalar_option group1 URL.Sscanf_d].
  by rewrite !orb_false_r.
Qed.

End ScalarFacts.

Section RawFacts.
Import GoStrings Regexp Patterns Reference Parser.



Lemma find_Some re s start cs rest :
  find re s = Some (start, cs, rest) ->
  exists pre, s = pre +:+ start /\ match_here re start = Some (cs, rest).
Proof.
  induction s as [|c t IH]; cbn [find].
  - destruct (match_here re EmptyString) as [[cs' r']|] eqn:E; [| done].
    intros [= <- <- <-]. by exists EmptyString.
  - destruct (match_here re (String c t)) as [[cs' r']|] eqn:E.
    + intros [= <- <- <-]. by exists EmptyString.
    + intros H. destruct (IH H) as (pre & -> & Hm). by exists (String c pre).
Qed.




End RawFacts.

Section SuppliedFacts.
Import GoStrings Regexp Patterns Reference Parser.

Lemma span_all p a b :
  all_bytes p a = true ->
  match b with EmptyString => True | String c _ => p c = false end ->
  span p (a +:+ b) = (a, b).
Proof.
  intros Ha Hb. induction a as [|x a IH].
  - rewrite append_nil_l. destruct b as [|c b]; [done |]. cbn [span]. by rewrite Hb.
  - cbn [all_bytes] in Ha. apply andb_true_iff in Ha as [Hx Ha].
    rewrite append_cons. cbn [span]. by rewrite Hx, (IH Ha).
Qed.



Lemma run_Cls_cons {A} p cs c t (k : list string -> string -> option A) :
  run (Cls p) cs (String c t) k = if p c then k cs t else None.
Proof. reflexivity. Qed.

Lemma run_quoted1 s0 cs t rest :
  all_bytes not_squote t = true ->
  run (quoted1 1) cs (String squote (t +:+ String squote rest)) (final s0)
  = final s0 (<[1 := t]> cs) rest.
Proof.
  intros Ht. unfold quoted1. cbn [Seq]. rewrite run_Cat. unfold SQ.
  rewrite run_Cls_cons, Ascii.eqb_refl, run_Cat, run_Cap, run_star_greedy.
  erewrite greedy_try_span.
  - reflexivity.
  - apply span_all; [done |]. by cbn.
  - by rewrite run_Cls_cons, Ascii.eqb_refl, consumed_app.
Qed.

Lemma run_quoted2 s0 cs t rest :
  all_bytes not_dquote t = true ->
  run (quoted2 2) cs (String dquote (t +:+ String dquote rest)) (final s0)
  = final s0 (<[2 := t]> cs) rest.
Proof.
  intros Ht. unfold quoted2. cbn [Seq]. rewrite run_Cat. unfold DQ.
  rewrite run_Cls_cons, Ascii.eqb_refl, run_Cat, run_Cap, run_star_greedy.
  erewrite greedy_try_span.
  - reflexivity.
  - apply span_all; [done |]. by cbn.
  - by rewrite run_Cls_cons, Ascii.eqb_refl, consumed_app.
Qed.



End SuppliedFacts.

Section RenderedFacts.
Import GoStrings Regexp Patterns Reference Parser.

Lemma find_eq re s :
  find re s =
  match match_here re s with
  | Some (cs, s') => Some (s, cs, s')
  | None =>
      match s with
      | EmptyString => None
      | String _ t => find re t
      end
  end.
Proof. by destruct s. Qed.












Lemma command_text_curl s : command_text ("curl " +:+ s) = s.
Proof.
  unfold command_text, HasPrefix, TrimPrefix. by rewrite strip_prefix_app.
Qed.

End RenderedFacts.

(** * The bounds of the repetitions are never reached *)

Section BoundFacts.
Import GoStrings Regexp Patterns Reference Parser.

(** what follows a pattern is only asked about tails of the text *)
Lemma run_tail_of_text {A} r cs s (k : list string -> string -> option A) x :
  run r cs s k = Some x ->
  exists cs' w s', s = w +:+ s' /\ k cs' s' = Some x.
Proof.
  revert cs s k x. induction r as [|p|r1 IH1 r2 IH2|r1 IH1 r2 IH2|g r1 IH|i r1 IH|];
    intros cs s k x H.
  - by exists cs, EmptyString, s.
  - destruct s as [|c t]; [done |]. cbn [run] in H.
    destruct (p c); [| done]. by exists cs, (String c EmptyString), t.
  - rewrite run_Cat in H. apply IH1 in H as (cs1 & w1 & s1 & -> & H).
    apply IH2 in H as (cs2 & w2 & s2 & -> & H).
    exists cs2, (w1 +:+ w2), s2. by rewrite append_assoc.
  - rewrite run_Alt in H. destruct (run r1 cs s k) eqn:E.
    + injection H as <-. by apply IH1 in E.
    + by apply IH2 in H.
  - cbn [run] in H. remember (String.length s) as n eqn:En. clear En.
    revert cs s x H. induction n as [|n IHn]; intros cs s x H.
    + by exists cs, EmptyString, s.
    + cbn [iterate] in H.
      assert (Hmore : forall y,
        run r1 cs s (fun cs' s' =>
          if Nat.ltb (String.length s') (String.length s)
          then iterate (run r1) g k n cs' s' else None) = Some y ->
        exists cs' w s', s = w +:+ s' /\ k cs' s' = Some y).
      { intros y Hy. apply IH in Hy as (cs1 & w1 & s1 & -> & Hy).
        destruct (Nat.ltb _ _); [| done].
        apply IHn in Hy as (cs2 & w2 & s2 & -> & Hy).
        exists cs2, (w1 +:+ w2), s2. by rewrite append_assoc. }
      destruct g.
      * destruct (run r1 cs s _) eqn:E.
        -- injection H as <-. by apply Hmore.
        -- by exists cs, EmptyString, s.
      * destruct (k cs s) eqn:E.
        -- injection H as <-. by exists cs, EmptyString, s.
        -- by apply Hmore.
  - rewrite run_Cap in H. apply IH in H as (cs1 & w1 & s1 & -> & H). eauto.
  - destruct s; [| done]. by exists cs, EmptyString, EmptyString.
Qed.

Lemma run_never {A} r cs s (k : list string -> string -> option A) :
  (forall cs' s', k cs' s' = None) -> run r cs s k = None.
Proof.
  intros Hk. destruct (run r cs s k) as [x|] eqn:E; [| done].
  apply run_tail_of_text in E as (cs' & w & s' & _ & E). by rewrite Hk in E.
Qed.

Lemma iterate_ext {A} body g (k1 k2 : list string -> string -> option A) n cs s :
  (forall cs0 s0 (j1 j2 : list string -> string -> option A),
     String.length s0 <= String.length s ->
     (forall cs' s', String.length s' <= String.length s0 -> j1 cs' s' = j2 cs' s') ->
     body cs0 s0 j1 = body cs0 s0 j2) ->
  (forall cs' s', String.length s' <= String.length s -> k1 cs' s' = k2 cs' s') ->
  iterate body g k1 n cs s = iterate body g k2 n cs s.
Proof.
  revert cs s. induction n as [|n IHn]; intros cs s Hbody Hk.
  - by apply Hk.
  - cbn [iterate]. rewrite (Hk cs s) by done.
    rewrite (Hbody cs s _ (fun cs' s' =>
      if Nat.ltb (String.length s') (String.length s)
      then iterate body g k2 n cs' s' else None)); [done.. |].
    intros cs' s' Hs'. destruct (Nat.ltb _ _); [| done].
    apply IHn.
    + intros cs0 s0 j1 j2 Hs0. apply Hbody. lia.
    + intros cs'' s'' Hs''. apply Hk. lia.
Qed.

(** the matcher asks what follows only about texts that are no longer *)
Lemma run_ext {A} r cs s (k1 k2 : list string -> string -> option A) :
  (forall cs' s', String.length s' <= String.length s -> k1 cs' s' = k2 cs' s') ->
  run r cs s k1 = run r cs s k2.
Proof.
  revert cs s k1 k2. induction r as [|p|r1 IH1 r2 IH2|r1 IH1 r2 IH2|g r1 IH|i r1 IH|];
    intros cs s k1 k2 Hk.
  - by apply Hk.
  - destruct s as [|c t]; [done |]. cbn [run]. destruct (p c); [| done].
    apply Hk. cbn. lia.
  - rewrite !run_Cat. apply IH1. intros cs' s' Hs'. apply IH2.
    intros cs'' s'' Hs''. apply Hk. lia.
  - rewrite !run_Alt, (IH1 cs s k1 k2 Hk), (IH2 cs s k1 k2 Hk). done.
  - cbn [run]. apply iterate_ext; [| done].
    intros cs0 s0 j1 j2 _ Hj. by apply IH.
  - rewrite !run_Cap. apply IH. intros cs' s' Hs'. by apply Hk.
  - destruct s; [| done]. by apply Hk.
Qed.

Lemma iterate_one_more {A} r1 g (k : list string -> string -> option A) n cs s :
  String.length s <= n ->
  iterate (run r1) g k (S n) cs s = iterate (run r1) g k n cs s.
Proof.
  revert cs s. induction n as [|n IHn]; intros cs s Hn.
  - destruct s; [| cbn in Hn; lia]. cbn [iterate String.length].
    rewrite run_never by done. by destruct g, (k cs EmptyString).
  - cbn [iterate].
    rewrite (run_ext r1 cs s _ (fun cs' s' =>
      if Nat.ltb (String.length s') (String.length s)
      then iterate (run r1) g k n cs' s' else None)); [done |].
    intros cs' s' Hs'. destruct (Nat.ltb_spec (String.length s') (String.length s));
      [| done].
    change (iterate (run r1) g k (S n) cs' s' = iterate (run r1) g k n cs' s').
    apply IHn. lia.
Qed.

(** more rounds than the text is long change nothing *)
Lemma iterate_bound {A} r1 g (k : list string -> string -> option A) n cs s :
  String.length s <= n ->
  iterate (run r1) g k n cs s = run (Rep g r1) cs s k.
Proof.
  cbn [run]. induction n as [|n IHn]; intros Hn.
  - by replace (String.length s) with 0 by lia.
  - destruct (decide (String.length s = S n)) as [->|Hne]; [done |].
    rewrite iterate_one_more by lia. apply IHn. lia.
Qed.

Lemma match_here_rest re s cs rest :
  match_here re s = Some (cs, rest) -> String.length rest <= String.length s.
Proof.
  unfold match_here. intros (cs' & w & s' & -> & H)%run_tail_of_text.
  injection H as _ <-. rewrite length_append. lia.
Qed.

Lemma find_rest re s start cs rest :
  find re s = Some (start, cs, rest) -> String.length rest <= String.length s.
Proof.
  intros (pre & -> & H)%find_Some. apply match_here_rest in H.
  rewrite length_append. lia.
Qed.

Lemma find_all_S re n s prev :
  find_all (S n) re s prev =
  match find re s with
  | None => []
  | Some (start, cs, rest) =>
      if Nat.eqb (String.length rest) (String.length s) then
        let this :=
          if bool_decide (prev = Some (String.length start)) then [] else [cs] in
        match s with
        | EmptyString => this
        | String _ t => this ++ find_all n re t (Some (String.length rest))
        end
      else cs :: find_all n re rest (Some (String.length rest))
  end.
Proof. reflexivity. Qed.

Lemma find_all_one_more re n s prev :
  String.length s < n ->
  find_all (S n) re s prev = find_all n re s prev.
Proof.
  revert s prev. induction n as [|n IHn]; intros s prev Hn; [lia |].
  rewrite (find_all_S re (S n)), (find_all_S re n).
  destruct (find re s) as [[[start cs] rest]|] eqn:E; [| done].
  apply find_rest in E.
  destruct (Nat.eqb_spec (String.length rest) (String.length s)) as [Hl|Hl].
  - destruct s as [|c t]; [done |]. cbv zeta. f_equal. apply IHn.
    cbn in Hn. lia.
  - f_equal. apply IHn. lia.
Qed.

(** [FindAllStringSubmatch] with any larger bound gives the same matches *)
Lemma find_all_bound re n s :
  String.length s < n ->
  find_all n re s None = FindAllStringSubmatch re s.
Proof.
  unfold FindAllStringSubmatch. induction n as [|n IHn]; intros Hn; [lia |].
  destruct (decide (String.length s = n)) as [->|Hne]; [done |].
  rewrite find_all_one_more by lia. apply IHn. lia.
Qed.

Lemma split_upto_one_more n s c sep :
  String.length s <= n ->
  split_upto (S n) s (String c sep) = split_upto n s (String c sep).
Proof.
  revert s. induction n as [|n IHn]; intros s Hn.
  - destruct s; [done | cbn in Hn; lia].
  - change (split_upto (S (S n)) s (String c sep)) with
      (match Cut s (String c sep) with
       | Some (b, a) => b :: split_upto (S n) a (String c sep)
       | None => [s]
       end).
    change (split_upto (S n) s (String c sep)) with
      (match Cut s (String c sep) with
       | Some (b, a) => b :: split_upto n a (String c sep)
       | None => [s]
       end).
    destruct (Cut s (String c sep)) as [[b a]|] eqn:E; [| done].
    apply Cut_length in E. cbn [String.length] in E. f_equal.
    apply IHn. lia.
Qed.

(** [Split] and [SplitN] cut as often as the separator occurs *)
Lemma split_upto_bound n s c sep :
  String.length s <= n ->
  split_upto n s (String c sep) = Split s (String c sep).
Proof.
  unfold Split. induction n as [|n IHn]; intros Hn.
  - by replace (String.length s) with 0 by lia.
  - destruct (decide (String.length s = S n)) as [->|Hne]; [done |].
    rewrite split_upto_one_more by lia. apply IHn. lia.
Qed.

Lemma replace_upto_one_more n s c sep new :
  String.length s <= n ->
  replace_upto (S n) s (String c sep) new = replace_upto n s (String c sep) new.
Proof.
  revert s. induction n as [|n IHn]; intros s Hn.
  - destruct s; [done | cbn in Hn; lia].
  - change (replace_upto (S (S n)) s (String c sep) new) with
      (match Cut s (String c sep) with
       | Some (b, a) => b +:+ new +:+ replace_upto (S n) a (String c sep) new
       | None => s
       end).
    change (replace_upto (S n) s (String c sep) new) with
      (match Cut s (String c sep) with
       | Some (b, a) => b +:+ new +:+ replace_upto n a (String c sep) new
       | None => s
       end).
    destruct (Cut s (String c sep)) as [[b a]|] eqn:E; [| done].
    apply Cut_length in E. cbn [String.length] in E. do 2 f_equal.
    apply IHn. lia.
Qed.

(** [ReplaceAll] replaces every occurrence *)
Lemma replace_upto_bound n s c sep new :
  String.length s <= n ->
  replace_upto n s (String c sep) new = ReplaceAll s (String c sep) new.
Proof.
  unfold ReplaceAll. induction n as [|n IHn]; intros Hn.
  - by replace (String.length s) with 0 by lia.
  - destruct (decide (String.length s = S n)) as [->|Hne]; [done |].
    rewrite replace_upto_one_more by lia. apply IHn. lia.
Qed.

Lemma strip_any_shorter encs s t :
  Forall (fun e => e <> EmptyString) encs ->
  strip_any encs s = Some t -> String.length t < String.length s.
Proof.
  induction 1 as [|e encs He Hencs IH]; [done |]. cbn [strip_any].
  destruct (strip_prefix s e) as [t'|] eqn:E; [| done].
  intros [= <-]. apply strip_prefix_length in E. destruct e; [done |].
  cbn [String.length] in E. lia.
Qed.

Lemma trim_left_upto_one_more encs n s :
  Forall (fun e => e <> EmptyString) encs ->
  String.length s <= n ->
  trim_left_upto (S n) encs s = trim_left_upto n encs s.
Proof.
  intros Hencs. revert s. induction n as [|n IHn]; intros s Hn.
  - destruct s; [| cbn in Hn; lia]. cbn [trim_left_upto].
    destruct (strip_any encs EmptyString) as [t|] eqn:E; [| done].
    apply (strip_any_shorter _ _ _ Hencs) in E. cbn in E. lia.
  - change (trim_left_upto (S (S n)) encs s) with
      (match strip_any encs s with
       | Some t => trim_left_upto (S n) encs t
       | None => s
       end).
    change (trim_left_upto (S n) encs s) with
      (match strip_any encs s with
       | Some t => trim_left_upto n encs t
       | None => s
       end).
    destruct (strip_any encs s) as [t|] eqn:E; [| done].
    apply (strip_any_shorter _ _ _ Hencs) in E. apply IHn. lia.
Qed.

(** trimming goes on until no white space is left at the start *)
Lemma trim_left_upto_bound encs n s :
  Forall (fun e => e <> EmptyString) encs ->
  String.length s <= n ->
  trim_left_upto n encs s = trim_left encs s.
Proof.
  intros Hencs. unfold trim_left. induction n as [|n IHn]; intros Hn.
  - by replace (String.length s) with 0 by lia.
  - destruct (decide (String.length s = S n)) as [->|Hne]; [done |].
    rewrite trim_left_upto_one_more by (done || lia). apply IHn. lia.
Qed.

Lemma space_encodings_nonempty :
  Forall (fun e => e <> EmptyString) space_encodings
  /\ Forall (fun e => e <> EmptyString) (map String.rev space_encodings).
Proof. split; repeat constructor; discriminate. Qed.

(** the loop over the query ends before its bound *)
Lemma parseQuery_bound n q m :
  String.length q <= n ->
  URL.parseQuery (S n) m q = URL.parseQuery (S (String.length q)) m q.
Proof.
  intros Hn. rewrite !parseQuery_entries by lia.
  by rewrite (split_upto_bound n q "&" EmptyString Hn).
Qed.

End BoundFacts.

Section TrimmedFacts.
Import GoStrings Regexp Patterns Reference Parser.

Lemma rev_app_append s acc : String.rev_app s acc = String.rev s +:+ acc.
Proof.
  unfold String.rev. revert acc. induction s as [|c s IH]; intros acc; [done |].
  cbn [String.rev_app]. rewrite (IH (String c acc)), (IH (String c EmptyString)).
  by rewrite append_assoc.
Qed.

Lemma rev_cons c s : String.rev (String c s) = String.rev s +:+ String c EmptyString.
Proof. unfold String.rev at 1. cbn [String.rev_app]. apply rev_app_append. Qed.

Lemma rev_append a b : String.rev (a +:+ b) = String.rev b +:+ String.rev a.
Proof.
  induction a as [|c a IH].
  - by rewrite append_nil_l, append_nil_r.
  - by rewrite append_cons, !rev_cons, IH, append_assoc.
Qed.

Lemma rev_involutive s : String.rev (String.rev s) = s.
Proof.
  induction s as [|c s IH]; [done |].
  by rewrite rev_cons, rev_append, IH.
Qed.

Lemma strip_any_Some encs s t :
  strip_any encs s = Some t -> exists e, s = e +:+ t.
Proof.
  induction encs as [|e encs IH]; [done |]. cbn [strip_any].
  destruct (strip_prefix s e) as [t'|] eqn:E; [| done].
  intros [= <-]. apply strip_prefix_Some in E. eauto.
Qed.

Lemma trim_left_upto_suffix n encs s :
  exists pre, s = pre +:+ trim_left_upto n encs s.
Proof.
  revert s. induction n as [|n IH]; intros s; [by exists EmptyString |].
  cbn [trim_left_upto]. destruct (strip_any encs s) as [t|] eqn:E.
  - apply strip_any_Some in E as [e ->]. destruct (IH t) as [pre Hpre].
    exists (e +:+ pre). by rewrite append_assoc, <- Hpre.
  - by exists EmptyString.
Qed.

Lemma trim_left_upto_done encs n s :
  Forall (fun e => e <> EmptyString) encs ->
  String.length s <= n ->
  strip_any encs (trim_left_upto n encs s) = None.
Proof.
  intros Hencs. revert s. induction n as [|n IH]; intros s Hn.
  - destruct s; [| cbn in Hn; lia]. cbn [trim_left_upto].
    destruct (strip_any encs EmptyString) as [t|] eqn:E; [| done].
    apply (strip_any_shorter _ _ _ Hencs) in E. cbn in E. lia.
  - cbn [trim_left_upto]. destruct (strip_any encs s) as [t|] eqn:E; [| done].
    apply IH. apply (strip_any_shorter _ _ _ Hencs) in E. lia.
Qed.

Lemma trim_left_done encs s :
  Forall (fun e => e <> EmptyString) encs ->
  strip_any encs (trim_left encs s) = None.
Proof. intros H. by apply trim_left_upto_done. Qed.

Lemma strip_any_prefix encs a b :
  strip_any encs (a +:+ b) = None -> strip_any encs a = None.
Proof.
  induction encs as [|e encs IH]; [done |]. cbn [strip_any].
  destruct (strip_prefix a e) as [t|] eqn:E.
  - apply strip_prefix_Some in E. subst a.
    by rewrite append_assoc, strip_prefix_app.
  - destruct (strip_prefix (a +:+ b) e); [done | apply IH].
Qed.

(** what [TrimSpace] returns has no white space at either end *)
Lemma TrimSpace_trimmed s :
  starts_with_space (TrimSpace s) = false /\ ends_with_space (TrimSpace s) = false.
Proof.
  destruct space_encodings_nonempty as [H1 H2].
  unfold starts_with_space, ends_with_space, TrimSpace.
  set (T := trim_left space_encodings s).
  set (X := trim_left (map String.rev space_encodings) (String.rev T)).
  split.
  - destruct (trim_left_upto_suffix (String.length (String.rev T))
                (map String.rev space_encodings) (String.rev T)) as [pre Hpre].
    fold (trim_left (map String.rev space_encodings) (String.rev T)) in Hpre.
    fold X in Hpre.
    assert (HT : T = String.rev X +:+ String.rev pre).
    { by rewrite <- rev_append, <- Hpre, rev_involutive. }
    pose proof (trim_left_done space_encodings s H1) as Hdone. fold T in Hdone.
    rewrite HT in Hdone. by rewrite (strip_any_prefix _ _ _ Hdone).
  - rewrite rev_involutive. unfold X. by rewrite trim_left_done.
Qed.

End TrimmedFacts.

Section ScalarTrimmed.
Import GoStrings Regexp Patterns Reference Parser.

Lemma trimmed_empty : trimmed EmptyString.
Proof. split; reflexivity. Qed.

Lemma scalar_option_trimmed re cmd v : scalar_option re cmd = Some v -> trimmed v.
Proof.
  unfold scalar_option.
  destruct (FindStringSubmatch re cmd) as [|g0 [|g1 [|g2 [|g3 ?]]]]; try done.
  destruct (nonempty g1); [intros [= <-]; apply TrimSpace_trimmed |].
  destruct (nonempty g2); [intros [= <-]; apply TrimSpace_trimmed |].
  destruct (nonempty g3); [intros [= <-]; apply TrimSpace_trimmed | done].
Qed.

Lemma scalar_default_trimmed re cmd :
  trimmed (default EmptyString (scalar_option re cmd)).
Proof.
  destruct (scalar_option re cmd) as [v|] eqn:E; cbn [default].
  - by apply scalar_option_trimmed in E.
  - apply trimmed_empty.
Qed.

(** every text option is what its pattern gives, the empty text without a match *)
Lemma Parse_scalar_field curlCommand r o :
  Parse curlCommand = Some r ->
  scalar_field o r
  = default EmptyString (scalar_option (scalar_regex o) (command_text curlCommand)).
Proof.
  intros H%Parse_scalars. unfold scalars, scalars_of in H.
  injection H as H1 H2 H3 H4 H5 H6 _ _ _ _.
  by destruct o.
Qed.

End ScalarTrimmed.

Section QuotedFacts.
Import GoStrings Regexp Patterns Reference Parser.

Lemma scalar_regex_eq o :
  scalar_regex o = option_value (scalar_flag o) (scalar_follow o).
Proof. by destruct o. Qed.

Lemma dash_led_Lit l : dash_led (Lit (String "-" l)).
Proof.
  intros cs c t k Hc. rewrite run_Lit. cbn [strip_prefix].
  destruct (Ascii.eqb "-" c) eqn:E; [| done].
  apply Ascii.eqb_eq in E. by subst c.
Qed.

Lemma dash_led_Alt r1 r2 : dash_led r1 -> dash_led r2 -> dash_led (Alt r1 r2).
Proof. intros H1 H2 cs c t k Hc. by rewrite run_Alt, H1, H2. Qed.

Lemma dash_led_Cat r1 r2 : dash_led r1 -> dash_led (Cat r1 r2).
Proof. intros H1 cs c t k Hc. by rewrite run_Cat, H1. Qed.

Lemma dash_led_scalar_flag o : dash_led (scalar_flag o).
Proof.
  destruct o; cbn [scalar_flag];
    repeat first [apply dash_led_Alt | apply dash_led_Lit].
Qed.

Lemma dash_led_option_value flag follow :
  dash_led flag -> dash_led (prog (option_value flag follow)).
Proof. intros H. unfold option_value. cbn [prog Seq]. by apply dash_led_Cat. Qed.

Lemma dash_led_scalar o : dash_led (prog (scalar_regex o)).
Proof.
  rewrite scalar_regex_eq. apply dash_led_option_value, dash_led_scalar_flag.
Qed.

Lemma match_here_dash_led re c t :
  dash_led (prog re) -> c <> "-"%char -> match_here re (String c t) = None.
Proof. intros H Hc. unfold match_here. by apply H. Qed.

(** the search passes over a text without dash *)
Lemma find_skip re pre s :
  dash_led (prog re) -> has_byte "-" pre = false ->
  find re (pre +:+ s) = find re s.
Proof.
  intros Hre Hpre. induction pre as [|c pre IH].
  - by rewrite append_nil_l.
  - cbn [has_byte] in Hpre. apply orb_false_iff in Hpre as [Hc Hpre].
    rewrite append_cons, find_eq.
    rewrite match_here_dash_led; [by apply IH | done |].
    intros ->. by rewrite Ascii.eqb_refl in Hc.
Qed.

Lemma find_no_dash re s :
  dash_led (prog re) -> match_here re EmptyString = None ->
  has_byte "-" s = false -> find re s = None.
Proof.
  intros Hre He Hs. induction s as [|c s IH]; rewrite find_eq.
  - by rewrite He.
  - cbn [has_byte] in Hs. apply orb_false_iff in Hs as [Hc Hs].
    rewrite match_here_dash_led; [by apply IH | done |].
    intros ->. by rewrite Ascii.eqb_refl in Hc.
Qed.

Lemma blank_cons sp :
  blank sp = true ->
  exists c t, sp = String c t /\ cls_s c = true /\ all_bytes cls_s t = true.
Proof.
  unfold blank. destruct sp as [|c t]; [done |].
  cbn [nonempty all_bytes]. intros [_ [Hc Ht]%andb_true_iff]%andb_true_iff. eauto.
Qed.

Lemma run_ws_blank {A} sp rest cs (k : list string -> string -> option A) x :
  blank sp = true -> no_space_ahead rest ->
  k cs rest = Some x -> run ws cs (sp +:+ rest) k = Some x.
Proof.
  intros (c & t & -> & Hc & Ht)%blank_cons Hrest Hk.
  unfold ws. rewrite run_Plus_cls, append_cons, Hc.
  eapply greedy_try_span; [| exact Hk].
  apply span_all; [done |]. by destruct rest.
Qed.

Lemma run_ws_blocked {A} s cs (k : list string -> string -> option A) :
  (forall c t, cls_s c = true -> k cs (String c t) = None) ->
  run ws cs s k =
  match span cls_s s with
  | (EmptyString, _) => None
  | (_, rest) => k cs rest
  end.
Proof.
  intros Hk. unfold ws. rewrite run_Plus_cls.
  destruct s as [|c t]; [done |]. cbn [span].
  destruct (cls_s c) eqn:Ec; [| done].
  rewrite (greedy_try_blocked cls_s (k cs) t Hk).
  by destruct (span cls_s t).
Qed.

Lemma all_bytes_no_byte q v :
  has_byte q v = false -> all_bytes (cls_not (Ascii.eqb q)) v = true.
Proof.
  induction v as [|c v IH]; [done |]. cbn [has_byte all_bytes].
  intros [Hc Hv]%orb_false_iff. rewrite (IH Hv), andb_true_r.
  unfold cls_not. by rewrite Hc.
Qed.

Lemma run_scalar_flag {A} o fl cs rest (k : list string -> string -> option A) x :
  In fl (spellings o) -> k cs rest = Some x ->
  run (scalar_flag o) cs (fl +:+ rest) k = Some x.
Proof.
  intros Hfl Hk.
  destruct o; cbn [spellings In] in Hfl; cbn [scalar_flag];
    repeat match goal with H : _ \/ _ |- _ => destruct H as [<- | H] end;
    try done;
    rewrite ?run_Alt, !run_Lit;
    by rewrite ?strip_prefix_app, ?Hk.
Qed.

(** the match of a scalar option with its value between quotes *)
Lemma match_here_quoted o fl sp q v rest :
  In fl (spellings o) -> blank sp = true ->
  q = squote \/ q = dquote -> has_byte q v = false ->
  exists g0 g1 g2,
    match_here (scalar_regex o) (fl +:+ sp +:+ String q (v +:+ String q rest))
    = Some ([g0; g1; g2; EmptyString], rest)
    /\ (if nonempty g1 then g1 else g2) = v.
Proof.
  intros Hfl Hsp Hq Hv. rewrite scalar_regex_eq.
  unfold match_here, option_value. cbn [prog NumSubexp replicate Seq Alts].
  set (s0 := fl +:+ sp +:+ String q (v +:+ String q rest)).
  fold (final s0).
  apply all_bytes_no_byte in Hv.
  destruct Hq as [-> | ->].
  - eexists _, v, EmptyString. split; [| by destruct v].
    rewrite run_Cat. unfold s0 at 2. apply run_scalar_flag; [done |].
    rewrite run_Cat. apply run_ws_blank; [done | done |].
    rewrite run_Alt, (run_quoted1 s0) by done. reflexivity.
  - eexists _, EmptyString, v. split; [| done].
    rewrite run_Cat. unfold s0 at 2. apply run_scalar_flag; [done |].
    rewrite run_Cat. apply run_ws_blank; [done | done |].
    rewrite !run_Alt.
    replace (run (quoted1 1) _ (String dquote _) (final s0))
      with (@None (list string * string)).
    + rewrite (run_quoted2 s0) by done. reflexivity.
    + unfold quoted1. cbn [Seq]. by rewrite run_Cat.
Qed.

Lemma spelling_dash o fl :
  In fl (spellings o) -> exists t, fl = String "-" t.
Proof.
  destruct o; cbn [spellings In];
    intros H; repeat destruct H as [<- | H]; try done; eauto.
Qed.

Lemma scalar_option_quoted o fl pre sp q v rest :
  In fl (spellings o) -> has_byte "-" pre = false -> blank sp = true ->
  q = squote \/ q = dquote -> has_byte q v = false ->
  default EmptyString
    (scalar_option (scalar_regex o)
       (pre +:+ fl +:+ sp +:+ String q (v +:+ String q rest)))
  = TrimSpace v.
Proof.
  intros Hfl Hpre Hsp Hq Hv.
  destruct (match_here_quoted o fl sp q v rest Hfl Hsp Hq Hv)
    as (g0 & g1 & g2 & Hm & Hg).
  unfold scalar_option, FindStringSubmatch.
  rewrite find_skip; [| apply dash_led_scalar | done].
  rewrite find_eq, Hm. subst v.
  destruct (nonempty g1) eqn:E1; [done |].
  destruct (nonempty g2) eqn:E2; [done |].
  apply nonempty_false in E2. by subst g2.
Qed.

(** the leading curl is cut off in front of a dash as anywhere *)
Lemma command_text_dash pre t :
  command_text (pre +:+ String "-" t) = command_text pre +:+ String "-" t.
Proof.
  rewrite !command_text_TrimPrefix. unfold TrimPrefix.
  destruct pre as [|c1 [|c2 [|c3 [|c4 [|c5 pre]]]]];
    rewrite ?append_cons, ?append_nil_l; cbn [strip_prefix];
    repeat match goal with
           | |- context [Ascii.eqb ?a ?b] =>
               match b with
               | "-"%char => change (Ascii.eqb a b) with false
               | _ => destruct (Ascii.eqb a b)
               end
           end; done.
Qed.

Lemma command_text_no_dash pre :
  has_byte "-" pre = false -> has_byte "-" (command_text pre) = false.
Proof.
  rewrite command_text_TrimPrefix. unfold TrimPrefix.
  destruct (strip_prefix pre "curl ") as [t|] eqn:E; [| done].
  apply strip_prefix_Some in E. subst pre. rewrite has_byte_app.
  by intros [_ ?]%orb_false_iff.
Qed.

End QuotedFacts.

Section UnquotedFacts.
Import GoStrings Regexp Patterns Reference Parser.

Lemma blank_space_or_end sp rest : blank sp = true -> space_or_end (sp +:+ rest).
Proof. intros (c & t & -> & Hc & _)%blank_cons. by rewrite append_cons. Qed.

Lemma blank_span sp rest :
  blank sp = true -> no_space_ahead rest -> span cls_s (sp +:+ rest) = (sp, rest).
Proof.
  intros (c & t & -> & Hc & Ht)%blank_cons Hrest.
  apply span_all; [by cbn [all_bytes]; rewrite Hc, Ht |]. by destruct rest.
Qed.

Lemma plain_word_cons w :
  plain_word w = true ->
  exists c t, w = String c t /\ not_space_dash c = true
              /\ all_bytes not_space t = true.
Proof.
  destruct w as [|c t]; [done |]. cbn [plain_word].
  intros [? ?]%andb_true_iff. eauto.
Qed.

Lemma not_space_dash_inv c :
  not_space_dash c = true -> cls_s c = false /\ c <> "-"%char.
Proof.
  unfold not_space_dash, cls_not, cls_or.
  intros [Hs Hd]%negb_true_iff%orb_false_iff. split; [done |].
  intros ->. done.
Qed.

Lemma space_or_end_span p t X :
  (forall c, cls_s c = true -> p c = false) ->
  all_bytes p t = true -> space_or_end X -> span p (t +:+ X) = (t, X).
Proof.
  intros Hp Ht HX. apply span_all; [done |].
  destruct X as [|c X]; [done |]. by apply Hp.
Qed.

Lemma space_not_not_space c : cls_s c = true -> not_space c = false.
Proof. unfold not_space, cls_not. by intros ->. Qed.

Lemma more_words_space_or_end o ps F :
  Forall (fun p => later_word o p = true) ps -> space_or_end F ->
  space_or_end (more_words ps +:+ F).
Proof.
  intros Hps HF. destruct Hps as [|[sp w] ps Hp _]; [by rewrite append_nil_l |].
  cbn [more_words]. rewrite append_assoc.
  apply blank_space_or_end.
  unfold later_word in Hp. cbn [fst] in Hp.
  by apply andb_true_iff in Hp as [[? _]%andb_true_iff _].
Qed.

Lemma follower_space_or_end o f :
  follower_ok o f = true -> space_or_end (follower_text f).
Proof.
  destruct f as [|sp rest|sp secure rest]; cbn [follower_ok follower_text]; [done | |].
  - apply blank_space_or_end.
  - intros [? _]%andb_true_iff. by apply blank_space_or_end.
Qed.

(** ** The pattern of an address start *)

Lemma run_address_start_None {A} cs s (k : list string -> string -> option A) :
  starts_address s = false -> run address_start cs s k = None.
Proof.
  unfold starts_address, HasPrefix. intros [H1 H2]%orb_false_iff.
  unfold address_start. cbn [Seq]. rewrite run_Cat, run_Lit.
  destruct (strip_prefix s "http") as [t|] eqn:E; [| done].
  apply strip_prefix_Some in E. subst s.
  rewrite run_Cat. unfold Opt. rewrite run_Alt, !run_Lit.
  destruct (strip_prefix t "s") as [t'|] eqn:E'.
  - apply strip_prefix_Some in E'. subst t.
    destruct (strip_prefix t' "://") as [t''|] eqn:E''.
    + apply strip_prefix_Some in E''. subst t'.
      assert (H : strip_prefix ("http" +:+ "s" +:+ "://" +:+ t'') "https://" = Some t'')
        by reflexivity.
      by rewrite H in H2.
    + cbn [run]. rewrite !run_Lit, E''.
      by change (strip_prefix ("s" +:+ t') "://") with (@None string).
  - cbn [run]. rewrite run_Lit.
    destruct (strip_prefix t "://") as [t''|] eqn:E''; [| done].
    apply strip_prefix_Some in E''. subst t.
    assert (H : strip_prefix ("http" +:+ "://" +:+ t'') "http://" = Some t'')
      by reflexivity.
    by rewrite H in H1.
Qed.

Lemma run_address_start {A} (secure : bool) cs rest
    (k : list string -> string -> option A) x :
  k cs rest = Some x ->
  run address_start cs ((if secure then "https://" else "http://") +:+ rest) k
  = Some x.
Proof. intros Hk. destruct secure; cbv; by rewrite ?Hk. Qed.

Lemma space_not_dash c : cls_s c = true -> c <> "-"%char.
Proof. by intros H ->. Qed.

Lemma plain_word_not_space w : plain_word w = true -> all_bytes not_space w = true.
Proof.
  intros (c & t & -> & Hc & Ht)%plain_word_cons. cbn [all_bytes].
  rewrite Ht, andb_true_r. apply not_space_dash_inv in Hc as [Hc _].
  unfold not_space, cls_not. by rewrite Hc.
Qed.

Lemma plain_word_no_space_ahead w X : plain_word w = true -> no_space_ahead (w +:+ X).
Proof.
  intros (c & t & -> & Hc & Ht)%plain_word_cons. rewrite append_cons.
  by apply not_space_dash_inv in Hc as [Hc _].
Qed.

Lemma HasPrefix_word w X p :
  all_bytes not_space w = true -> all_bytes not_space p = true ->
  space_or_end X -> HasPrefix w p = false -> HasPrefix (w +:+ X) p = false.
Proof.
  unfold HasPrefix. revert w.
  induction p as [|a p IH]; intros w Hw Hp HX; [done |].
  cbn [all_bytes] in Hp. apply andb_true_iff in Hp as [Ha Hp].
  destruct w as [|b w].
  - rewrite append_nil_l. intros _. destruct X as [|c X]; [done |].
    cbn [strip_prefix]. destruct (Ascii.eqb a c) eqn:E; [| done].
    apply Ascii.eqb_eq in E. subst c. cbn in HX.
    unfold not_space, cls_not in Ha. by rewrite HX in Ha.
  - rewrite append_cons. cbn [strip_prefix all_bytes] in *.
    apply andb_true_iff in Hw as [_ Hw].
    destruct (Ascii.eqb a b); [by apply IH | done].
Qed.

Lemma starts_address_word w X :
  plain_word w = true -> space_or_end X ->
  starts_address w = false -> starts_address (w +:+ X) = false.
Proof.
  intros Hw%plain_word_not_space HX. unfold starts_address.
  intros [H1 H2]%orb_false_iff.
  by rewrite !HasPrefix_word.
Qed.

Lemma starts_address_space c t : cls_s c = true -> starts_address (String c t) = false.
Proof.
  intros Hc. unfold starts_address, HasPrefix. cbn [strip_prefix].
  destruct (Ascii.eqb "h" c) eqn:E; [| done].
  apply Ascii.eqb_eq in E. by subst c.
Qed.

Lemma later_word_inv o sp w :
  later_word o (sp, w) = true ->
  blank sp = true /\ plain_word w = true
  /\ (stops_at_address o = true -> starts_address w = false).
Proof.
  unfold later_word. cbn [fst snd].
  intros [[? ?]%andb_true_iff Ha%negb_true_iff]%andb_true_iff.
  repeat split; [done | done |]. intros Hs. by rewrite Hs in Ha.
Qed.

Lemma run_EndText_cons {A} cs c t (k : list string -> string -> option A) :
  run EndText cs (String c t) k = None.
Proof. reflexivity. Qed.

Section Follow.
Context (o : scalar) (k : list string -> string -> option (list string * string)).

Lemma run_flag_ahead_blocked cs s :
  run (Cat ws (Lit "-")) cs s k =
  match span cls_s s with
  | (EmptyString, _) => None
  | (_, rest) => run (Lit "-") cs rest k
  end.
Proof.
  rewrite run_Cat. apply run_ws_blocked.
  intros c t Hc. apply dash_led_Lit. by apply space_not_dash.
Qed.

Lemma run_address_ahead_blocked cs s :
  run (Cat ws address_start) cs s k =
  match span cls_s s with
  | (EmptyString, _) => None
  | (_, rest) => run address_start cs rest k
  end.
Proof.
  rewrite run_Cat. apply run_ws_blocked.
  intros c t Hc. by apply run_address_start_None, starts_address_space.
Qed.

Lemma run_follow_eq cs s :
  run (scalar_follow o) cs s k =
  match run (Cat ws (Lit "-")) cs s k with
  | Some x => Some x
  | None =>
      match run EndText cs s k with
      | Some x => Some x
      | None =>
          if stops_at_address o then run (Cat ws address_start) cs s k else None
      end
  end.
Proof.
  unfold scalar_follow, next_flag_end_or_address, next_flag_or_end.
  destruct (stops_at_address o); cbn [Alts Seq]; rewrite ?run_Alt; [done |].
  destruct (run (Cat ws (Lit "-")) cs s k); [done |].
  by destruct (run EndText cs s k).
Qed.

(** in front of a later word nothing that ends the value stands *)
Lemma run_follow_word sp w X cs :
  later_word o (sp, w) = true -> space_or_end X ->
  run (scalar_follow o) cs (sp +:+ w +:+ X) k = None.
Proof.
  intros (Hsp & Hw & Ha)%later_word_inv HX.
  rewrite run_follow_eq, run_flag_ahead_blocked, run_address_ahead_blocked.
  rewrite (blank_span sp (w +:+ X) Hsp (plain_word_no_space_ahead w X Hw)).
  destruct (blank_cons sp Hsp) as (c0 & t0 & -> & _ & _).
  destruct (plain_word_cons w Hw) as (c & t & -> & Hc & _).
  apply not_space_dash_inv in Hc as [_ Hc].
  rewrite !append_cons. rewrite (dash_led_Lit EmptyString cs c _ k Hc).
  cbn [run]. destruct (stops_at_address o); [| done].
  rewrite <- append_cons. apply run_address_start_None.
  by apply starts_address_word; [| | apply Ha].
Qed.


Lemma run_ws_no_space r cs c t :
  cls_s c = false -> run (Cat ws r) cs (String c t) k = None.
Proof. intros Hc. rewrite run_Cat. unfold ws. by rewrite run_Plus_cls, Hc. Qed.

Lemma run_follow_no_space cs c t :
  cls_s c = false -> run (scalar_follow o) cs (String c t) k = None.
Proof.
  intros Hc. rewrite run_follow_eq, !run_ws_no_space by done.
  cbn [run]. by destruct (stops_at_address o).
Qed.

End Follow.

(** what ends the value is found behind it *)
Lemma run_follow_follower o f cs s0 :
  follower_ok o f = true ->
  exists rest,
    run (scalar_follow o) cs (follower_text f) (final s0) = final s0 cs rest.
Proof.
  intros Hf. rewrite run_follow_eq.
  destruct f as [|sp rest|sp secure rest]; cbn [follower_ok follower_text] in *.
  - exists EmptyString. rewrite run_flag_ahead_blocked. cbn [span run].
    reflexivity.
  - exists rest. rewrite run_Cat.
    erewrite run_ws_blank; [reflexivity | done | done |].
    reflexivity.
  - apply andb_true_iff in Hf as [Hsp Ho]. rewrite Ho.
    exists rest. rewrite run_flag_ahead_blocked.
    assert (Hahead : no_space_ahead ((if secure then "https://" else "http://") +:+ rest))
      by by destruct secure.
    rewrite (blank_span sp _ Hsp Hahead).
    destruct (blank_cons sp Hsp) as (c0 & t0 & -> & _ & _).
    replace (run (Lit "-") cs _ (final s0)) with (@None (list string * string))
      by by destruct secure.
    rewrite append_cons, run_EndText_cons, <- append_cons, run_Cat.
    erewrite run_ws_blank; [reflexivity | done | done |].
    by apply run_address_start.
Qed.

End UnquotedFacts.

Section LazyWords.
Import GoStrings Regexp Patterns Reference Parser.

Context (o : scalar)
  (kF : list string -> string -> option (list string * string))
  (g : list string -> string -> list string)
  (k0 : list string -> string -> option (list string * string)).
Hypothesis kF_follow : forall cs s, kF cs s = run (scalar_follow o) (g cs s) s k0.

Lemma iterate_lazy_S {A} body (k : list string -> string -> option A) n cs s :
  iterate body false k (S n) cs s =
  match k cs s with
  | Some x => Some x
  | None =>
      body cs s (fun cs' s' =>
        if Nat.ltb (String.length s') (String.length s)
        then iterate body false k n cs' s' else None)
  end.
Proof. reflexivity. Qed.

Lemma iterate_lazy_done {A} body (k : list string -> string -> option A) n cs s x :
  k cs s = Some x -> iterate body false k n cs s = Some x.
Proof. intros Hk. destruct n; [done |]. by rewrite iterate_lazy_S, Hk. Qed.

(** the lazy repetition takes the later words one by one, up to what ends
    the value *)
Lemma lazy_words ps F cs n x :
  Forall (fun p => later_word o p = true) ps -> space_or_end F ->
  kF cs F = Some x -> length ps <= n ->
  iterate (run next_word) false kF n cs (more_words ps +:+ F) = Some x.
Proof.
  intros Hps HF Hk. revert n.
  induction Hps as [|[sp w] ps Hp Hps IH]; intros n Hn.
  - rewrite append_nil_l. by apply iterate_lazy_done.
  - destruct n as [|n]; [cbn in Hn; lia |].
    cbn [more_words]. rewrite !append_assoc.
    pose proof (more_words_space_or_end o ps F Hps HF) as HX.
    set (X := more_words ps +:+ F) in *.
    rewrite iterate_lazy_S, kF_follow, run_follow_word by done.
    destruct (later_word_inv o sp w Hp) as (Hsp & Hw & _).
    unfold next_word. cbn [Seq]. rewrite run_Cat.
    apply run_ws_blank; [done | by apply plain_word_no_space_ahead |].
    destruct (plain_word_cons w Hw) as (c & t & -> & Hc & Ht).
    rewrite append_cons, run_Cat, run_Cls_cons, Hc, run_star_greedy.
    eapply greedy_try_span.
    + apply space_or_end_span; [apply space_not_not_space | done | done].
    + assert (Hlen : String.length X
                     < String.length (sp +:+ String c (t +:+ X))).
      { rewrite length_append. cbn [String.length]. rewrite length_append. lia. }
      apply Nat.ltb_lt in Hlen. rewrite Hlen.
      apply IH. cbn in Hn. lia.
Qed.

(** in front of a byte that is no white space the repetition cannot go on *)
Lemma lazy_no_space cs c t n :
  cls_s c = false -> iterate (run next_word) false kF n cs (String c t) = None.
Proof.
  intros Hc. destruct n as [|n].
  - cbn [iterate]. by rewrite kF_follow, run_follow_no_space.
  - rewrite iterate_lazy_S, kF_follow, run_follow_no_space by done.
    unfold next_word. cbn [Seq]. by apply run_ws_no_space.
Qed.


End LazyWords.

Section UnquotedMatch.
Import GoStrings Regexp Patterns Reference Parser.

Lemma first_word_inv w :
  first_word w = true ->
  plain_word w = true /\
  exists c t, w = String c t /\ cls_quote c = false
              /\ not_space_dash c = true /\ all_bytes not_space t = true.
Proof.
  unfold first_word. intros [Hw Hq]%andb_true_iff. split; [done |].
  destruct (plain_word_cons w Hw) as (c & t & -> & Hc & Ht).
  exists c, t. by apply negb_true_iff in Hq.
Qed.

Lemma more_words_length o ps F :
  Forall (fun p => later_word o p = true) ps ->
  length ps <= String.length (more_words ps +:+ F).
Proof.
  induction 1 as [|[sp w] ps Hp Hps IH]; [cbn [length]; lia |].
  cbn [more_words length]. rewrite !append_assoc. rewrite !length_append in *.
  destruct (later_word_inv o sp w Hp) as (Hsp & _ & _).
  destruct (blank_cons sp Hsp) as (c0 & t0 & -> & _ & _).
  cbn [String.length]. lia.
Qed.

Lemma run_quoted1_other cs c t k i :
  Ascii.eqb squote c = false ->
  run (quoted1 i) cs (String c t) k = (@None (list string * string)).
Proof.
  intros Hc. unfold quoted1. cbn [Seq]. rewrite run_Cat. unfold SQ.
  by rewrite run_Cls_cons, Hc.
Qed.

Lemma run_quoted2_other cs c t k i :
  Ascii.eqb dquote c = false ->
  run (quoted2 i) cs (String c t) k = (@None (list string * string)).
Proof.
  intros Hc. unfold quoted2. cbn [Seq]. rewrite run_Cat. unfold DQ.
  by rewrite run_Cls_cons, Hc.
Qed.

Lemma cls_quote_inv c :
  cls_quote c = false -> Ascii.eqb squote c = false /\ Ascii.eqb dquote c = false.
Proof.
  unfold cls_quote. intros [H1 H2]%orb_false_iff.
  by rewrite (Ascii.eqb_sym squote), (Ascii.eqb_sym dquote).
Qed.

(** the unquoted value: its first word, then the repetition *)
Lemma run_bounded_follow o s0 cs c t X :
  not_space_dash c = true -> all_bytes not_space t = true -> space_or_end X ->
  run (Cat (bounded 3) (scalar_follow o)) cs (String c t +:+ X) (final s0)
  = iterate (run next_word) false
      (fun cs' s' =>
         run (scalar_follow o) (<[3 := consumed (String c t +:+ X) s']> cs') s'
           (final s0))
      (String.length X) cs X.
Proof.
  intros Hc Ht HX.
  rewrite run_Cat. unfold bounded. rewrite run_Cap. cbn [Seq].
  rewrite append_cons, run_Cat, run_Cls_cons, Hc, run_Cat, run_star_greedy.
  rewrite greedy_try_blocked.
  - rewrite space_or_end_span; [| apply space_not_not_space | done | done].
    reflexivity.
  - intros c' t' Hc'. cbn [run].
    apply (lazy_no_space o _
             (fun cs' s' => <[3 := consumed (String c (t +:+ X)) s']> cs')
             (final s0)); [done |].
    unfold not_space, cls_not in Hc'. by apply negb_true_iff in Hc'.
Qed.

Lemma run_scalar_value o s0 cs s :
  run (Alts [quoted1 1; quoted2 2; Seq [bounded 3; scalar_follow o]]) cs s (final s0)
  = match run (quoted1 1) cs s (final s0) with
    | Some x => Some x
    | None =>
        match run (quoted2 2) cs s (final s0) with
        | Some x => Some x
        | None => run (Cat (bounded 3) (scalar_follow o)) cs s (final s0)
        end
    end.
Proof. cbn [Alts Seq]. by rewrite !run_Alt. Qed.

Lemma match_here_scalar o s :
  match_here (scalar_regex o) s
  = run (scalar_flag o) (replicate 4 EmptyString) s
      (fun cs' s' =>
         run ws cs' s'
           (fun cs'' s'' =>
              run (Alts [quoted1 1; quoted2 2; Seq [bounded 3; scalar_follow o]])
                cs'' s'' (final s))).
Proof.
  rewrite scalar_regex_eq. unfold match_here, option_value.
  cbn [prog NumSubexp Seq]. by rewrite !run_Cat.
Qed.

(** the match of a scalar option with an unquoted value *)
Lemma match_here_unquoted o fl sp w ps f :
  In fl (spellings o) -> blank sp = true -> first_word w = true ->
  Forall (fun p => later_word o p = true) ps -> follower_ok o f = true ->
  exists g0 rest,
    match_here (scalar_regex o)
      (fl +:+ sp +:+ w +:+ more_words ps +:+ follower_text f)
    = Some ([g0; EmptyString; EmptyString; w +:+ more_words ps], rest).
Proof.
  intros Hfl Hsp (Hw & c & t & -> & Hq & Hc & Ht)%first_word_inv Hps Hf.
  set (F := follower_text f).
  remember (fl +:+ sp +:+ String c t +:+ more_words ps +:+ F) as s0 eqn:Es0.
  destruct (run_follow_follower o f
              (<[3 := String c t +:+ more_words ps]> (replicate 4 EmptyString))
              s0 Hf) as [rest Hfol].
  fold F in Hfol.
  exists (consumed s0 rest), rest.
  rewrite match_here_scalar. rewrite Es0 at 1.
  apply run_scalar_flag; [done |].
  apply run_ws_blank; [done | by apply plain_word_no_space_ahead |].
  rewrite run_scalar_value.
  destruct (cls_quote_inv c Hq) as [Hq1 Hq2].
  rewrite append_cons, run_quoted1_other, run_quoted2_other by done.
  rewrite <- append_cons.
  pose proof (follower_space_or_end o f Hf) as HF. fold F in HF.
  rewrite run_bounded_follow;
    [| done | done | by apply (more_words_space_or_end o)].
  apply (lazy_words o _
           (fun cs' s' =>
              <[3 := consumed (String c t +:+ more_words ps +:+ F) s']> cs')
           (final s0)); [done | done | done | | by apply (more_words_length o)].
  rewrite <- append_assoc, consumed_app. exact Hfol.
Qed.


End UnquotedMatch.

Section ScalarValues.
Import GoStrings Regexp Patterns Reference Parser.

Lemma Parse_scalar_at o fl pre rest r :
  In fl (spellings o) ->
  Parse (pre +:+ fl +:+ rest) = Some r ->
  scalar_field o r
  = default EmptyString
      (scalar_option (scalar_regex o) (command_text pre +:+ fl +:+ rest)).
Proof.
  intros Hfl HP. rewrite (Parse_scalar_field _ _ o HP).
  destruct (spelling_dash o fl Hfl) as [t ->].
  by rewrite !append_cons, command_text_dash.
Qed.

Lemma scalar_option_unquoted o fl pre sp w ps f :
  In fl (spellings o) -> has_byte "-" pre = false -> blank sp = true ->
  first_word w = true -> Forall (fun p => later_word o p = true) ps ->
  follower_ok o f = true ->
  default EmptyString
    (scalar_option (scalar_regex o)
       (pre +:+ fl +:+ sp +:+ w +:+ more_words ps +:+ follower_text f))
  = TrimSpace (w +:+ more_words ps).
Proof.
  intros Hfl Hpre Hsp Hw Hps Hf.
  destruct (match_here_unquoted o fl sp w ps f Hfl Hsp Hw Hps Hf)
    as (g0 & rest & Hm).
  unfold scalar_option, FindStringSubmatch.
  rewrite find_skip; [| apply dash_led_scalar | done].
  rewrite find_eq, Hm. cbn [nonempty String.eqb negb].
  destruct (first_word_inv w Hw) as (_ & c & t & -> & _).
  by rewrite append_cons.
Qed.


Lemma match_here_scalar_empty o : match_here (scalar_regex o) EmptyString = None.
Proof. by destruct o. Qed.




End ScalarValues.

Section TimeoutFacts.
Import GoStrings Regexp Patterns Reference Parser.

Lemma decimal_nonneg s acc : (0 <= acc)%Z -> (0 <= URL.decimal acc s)%Z.
Proof.
  revert acc. induction s as [|c s IH]; intros acc Hacc; [done |].
  cbn [URL.decimal]. apply IH. unfold URL.digit_value. lia.
Qed.

Lemma timeout_value_range d :
  (0 <= timeout_value d <= 9223372036854775807)%Z.
Proof.
  destruct d as [d|]; cbn [timeout_value]; [| lia].
  pose proof (decimal_nonneg d 0 ltac:(lia)).
  cbv zeta. destruct (Z.leb_spec (URL.decimal 0 d) 9223372036854775807); lia.
Qed.

Lemma Parse_timeouts curlCommand r :
  Parse curlCommand = Some r ->
  ConnectTimeout r
  = timeout_value (flag_word "--connect-timeout" cls_d (command_text curlCommand))
  /\ MaxTime r
     = timeout_value (flag_word "--max-time" cls_d (command_text curlCommand)).
Proof.
  intros H%Parse_scalars. unfold scalars, scalars_of in H.
  injection H as _ _ _ _ _ _ Hc Hm _ _.
  rewrite Hc, Hm.
  rewrite <- !(group1_flag_word _ _ _ space_not_digit).
  change (flag_pattern "--connect-timeout" cls_d) with connectTimeoutRegex.
  change (flag_pattern "--max-time" cls_d) with maxTimeRegex.
  split.
  - by destruct (group1 connectTimeoutRegex _).
  - by destruct (group1 maxTimeRegex _).
Qed.

Lemma Parse_switches curlCommand r :
  Parse curlCommand = Some r ->
  Insecure r = Contains (command_text curlCommand) "--insecure"
  /\ FollowRedirects r
     = Contains (command_text curlCommand) "-L"
       || Contains (command_text curlCommand) "--location".
Proof.
  intros H%Parse_scalars. unfold scalars, scalars_of in H.
  by injection H as _ _ _ _ _ _ _ _ Hi Hf.
Qed.

End TimeoutFacts.

Section OccursFacts.
Import GoStrings Regexp Patterns Reference Parser.

Lemma Cut_occurs a sub b : Cut (a +:+ sub +:+ b) sub <> None.
Proof.
  induction a as [|c a IH].
  - rewrite append_nil_l.
    destruct (sub +:+ b) eqn:E; cbn [Cut]; rewrite <- E, strip_prefix_app; done.
  - rewrite append_cons. cbn [Cut].
    destruct (strip_prefix _ sub); [done |].
    by destruct (Cut (a +:+ sub +:+ b) sub) as [[? ?]|].
Qed.

Lemma Contains_occurs s sub : Contains s sub = true <-> occurs_in sub s.
Proof.
  unfold Contains, occurs_in. split.
  - destruct (Cut s sub) as [[a b]|] eqn:E; [| done].
    intros _. apply Cut_Some in E. eauto.
  - intros (a & b & ->). pose proof (Cut_occurs a sub b).
    by destruct (Cut _ sub).
Qed.

Lemma occurs_in_trans a b c : occurs_in a b -> occurs_in b c -> occurs_in a c.
Proof.
  intros (x & y & ->) (x' & y' & ->).
  exists (x' +:+ x), (y +:+ y'). by rewrite !append_assoc.
Qed.

Lemma occurs_in_app_l a s b : occurs_in a s -> occurs_in a (s +:+ b).
Proof.
  intros (x & y & ->). exists x, (y +:+ b). by rewrite !append_assoc.
Qed.

Lemma Contains_app_l s sub b :
  Contains s sub = true -> Contains (s +:+ b) sub = true.
Proof. rewrite !Contains_occurs. apply occurs_in_app_l. Qed.

Lemma leftmost_address_occurs s a : leftmost_address s = Some a -> occurs_in a s.
Proof.
  induction s as [|c s IH]; rewrite leftmost_address_eq.
  - destruct (address_at EmptyString) as [[a' r]|] eqn:E; [| done].
    intros [= <-]. apply address_at_app in E.
    exists EmptyString, r. by rewrite append_nil_l.
  - destruct (address_at (String c s)) as [[a' r]|] eqn:E.
    + intros [= <-]. apply address_at_app in E.
      exists EmptyString, r. by rewrite append_nil_l.
    + intros (x & y & ->)%IH. exists (String c x), y. by rewrite append_cons.
Qed.

Lemma Parse_URL_occurs curlCommand r :
  Parse curlCommand = Some r -> occurs_in (URL r) (command_text curlCommand).
Proof.
  intros (u & Hu & -> & _)%Parse_fields.
  rewrite extractURL_leftmost in Hu. by apply leftmost_address_occurs.
Qed.

End OccursFacts.

Section ShapeFacts.
Import GoStrings Regexp Patterns Reference Parser.

Lemma span_spec p s a b :
  span p s = (a, b) ->
  s = a +:+ b /\ all_bytes p a = true
  /\ match b with EmptyString => True | String c _ => p c = false end.
Proof.
  revert a. induction s as [|c s IH]; intros a; cbn [span].
  - by intros [= <- <-].
  - destruct (p c) eqn:Ec.
    + destruct (span p s) as [a' b'] eqn:E. intros [= <- <-].
      destruct (IH a' eq_refl) as (-> & Ha & Hb).
      by rewrite append_cons; cbn [all_bytes]; rewrite Ec, Ha.
    + by intros [= <- <-]; rewrite append_nil_l, Ec.
Qed.

Lemma address_with_shape scheme s a rest :
  address_with scheme s = Some (a, rest) ->
  exists b, a = scheme +:+ b /\ b <> EmptyString /\ all_bytes url_byte b = true
            /\ s = a +:+ rest
            /\ match rest with
               | EmptyString => True
               | String c _ => url_byte c = false
               end.
Proof.
  unfold address_with. destruct (strip_prefix s scheme) as [t|] eqn:E; [| done].
  apply strip_prefix_Some in E. subst s.
  destruct (span url_byte t) as [b r] eqn:Es.
  destruct (span_spec _ _ _ _ Es) as (-> & Hb & Hr).
  destruct b as [|c b]; [done |]. intros [= <- <-].
  exists (String c b). by rewrite append_assoc.
Qed.

Lemma address_at_shape s a rest :
  address_at s = Some (a, rest) ->
  exists scheme b,
    (scheme = "http://" \/ scheme = "https://")
    /\ a = scheme +:+ b /\ b <> EmptyString /\ all_bytes url_byte b = true
    /\ s = a +:+ rest
    /\ match rest with
       | EmptyString => True
       | String c _ => url_byte c = false
       end.
Proof.
  unfold address_at.
  destruct (address_with "https://" s) as [[a' r']|] eqn:E.
  - intros [= <- <-]. apply address_with_shape in E as (b & ?). exists "https://", b.
    split; [by right | done].
  - intros E'. apply address_with_shape in E' as (b & ?). exists "http://", b.
    split; [by left | done].
Qed.

Lemma leftmost_address_shape s a :
  leftmost_address s = Some a ->
  exists scheme b,
    (scheme = "http://" \/ scheme = "https://")
    /\ a = scheme +:+ b /\ b <> EmptyString /\ all_bytes url_byte b = true.
Proof.
  induction s as [|c s IH]; rewrite leftmost_address_eq.
  - destruct (address_at EmptyString) as [[a' r]|] eqn:E; [| done].
    intros [= <-]. apply address_at_shape in E as (sch & b & ? & ? & ? & ? & _).
    by exists sch, b.
  - destruct (address_at (String c s)) as [[a' r]|] eqn:E; [| done].
    intros [= <-]. apply address_at_shape in E as (sch & b & ? & ? & ? & ? & _).
    by exists sch, b.
Qed.

(** ** The method *)

Lemma upper_byte_word c : cls_w c = true -> method_byte (upper_byte c) = true.
Proof.
  destruct c as [[] [] [] [] [] [] [] []]; vm_compute; done.
Qed.

Lemma ToUpper_word w :
  all_bytes cls_w w = true -> all_bytes method_byte (ToUpper w) = true.
Proof.
  induction w as [|c w IH]; [done |]. cbn [all_bytes ToUpper].
  intros [Hc Hw]%andb_true_iff. by rewrite upper_byte_word, IH.
Qed.

Lemma flag_word_at_word flag p s w :
  flag_word_at flag p s = Some w -> w <> EmptyString /\ all_bytes p w = true.
Proof.
  unfold flag_word_at. destruct (strip_prefix s flag) as [t|]; [| done].
  destruct (span cls_s t) as [[|c0 sp] t']; [done |].
  destruct (span p t') as [b r] eqn:E.
  destruct (span_spec _ _ _ _ E) as (_ & Hb & _).
  destruct b as [|c b]; [done |]. by intros [= <-].
Qed.

Lemma flag_word_word flag p s w :
  flag_word flag p s = Some w -> w <> EmptyString /\ all_bytes p w = true.
Proof.
  induction s as [|c s IH]; cbn [flag_word].
  - destruct (flag_word_at flag p EmptyString) as [w'|] eqn:E; [| done].
    intros [= <-]. by apply flag_word_at_word in E.
  - destruct (flag_word_at flag p (String c s)) as [w'|] eqn:E; [| done].
    intros [= <-]. by apply flag_word_at_word in E.
Qed.

Lemma ToUpper_nonempty w : w <> EmptyString -> ToUpper w <> EmptyString.
Proof. by destruct w. Qed.

Lemma extractMethod_shape cmd :
  extractMethod cmd <> EmptyString
  /\ all_bytes method_byte (extractMethod cmd) = true.
Proof.
  rewrite extractMethod_flag_word.
  destruct (flag_word "-X" cls_w cmd) as [w|] eqn:E.
  { apply flag_word_word in E as [? ?]. split; [by apply ToUpper_nonempty |].
    by apply ToUpper_word. }
  destruct (flag_word "--request" cls_w cmd) as [w|] eqn:E'.
  { apply flag_word_word in E' as [? ?]. split; [by apply ToUpper_nonempty |].
    by apply ToUpper_word. }
  by destruct (_ || _).
Qed.

End ShapeFacts.

Section ExtendFacts.
Import GoStrings Regexp Patterns Reference Parser.

Lemma strip_prefix_None_extend a p b :
  strip_prefix a p = None -> String.length p <= String.length a ->
  strip_prefix (a +:+ b) p = None.
Proof.
  revert a. induction p as [|x p IH]; intros a; [done |].
  destruct a as [|y a]; [cbn; lia |].
  rewrite append_cons. cbn [strip_prefix String.length].
  destruct (Ascii.eqb x y); [| done]. intros H Hlen. apply IH; [done | lia].
Qed.

Lemma strip_prefix_Some_extend a p t b :
  strip_prefix a p = Some t -> strip_prefix (a +:+ b) p = Some (t +:+ b).
Proof.
  intros ->%strip_prefix_Some. by rewrite append_assoc, strip_prefix_app.
Qed.

Lemma span_extend p t a0 r b :
  span p t = (a0, r) ->
  span p (t +:+ b)
  = match r with
    | EmptyString => (a0 +:+ (span p b).1, (span p b).2)
    | _ => (a0, r +:+ b)
    end.
Proof.
  revert a0. induction t as [|c t IH]; intros a0; cbn [span].
  - intros [= <- <-]. rewrite !append_nil_l. by destruct (span p b).
  - destruct (p c) eqn:Ec.
    + destruct (span p t) as [a' r'] eqn:E. intros [= <- <-].
      rewrite append_cons. cbn [span]. rewrite Ec, (IH a' eq_refl).
      by destruct r'.
    + intros [= <- <-]. rewrite append_cons. cbn [span]. by rewrite Ec.
Qed.

Lemma address_with_extend scheme a u rest b :
  address_with scheme a = Some (u, rest) ->
  exists x rest',
    address_with scheme (a +:+ b) = Some (u +:+ x, rest')
    /\ (no_address_byte_ahead b -> x = EmptyString).
Proof.
  unfold address_with. destruct (strip_prefix a scheme) as [t|] eqn:E; [| done].
  rewrite (strip_prefix_Some_extend _ _ _ b E).
  destruct (span url_byte t) as [a0 r] eqn:Es.
  rewrite (span_extend _ _ _ _ b Es).
  destruct a0 as [|c a0]; [done |]. intros [= <- <-].
  destruct r as [|c' r].
  - exists (span url_byte b).1, (span url_byte b).2.
    rewrite append_cons, append_assoc. split; [done |].
    destruct b as [|y b]; [done |]. cbn [no_address_byte_ahead span].
    by intros ->.
  - exists EmptyString, (String c' r +:+ b). by rewrite append_nil_r.
Qed.

Lemma address_with_None_extend scheme a b :
  address_with scheme a = None ->
  S (String.length scheme) <= String.length a ->
  address_with scheme (a +:+ b) = None.
Proof.
  unfold address_with. destruct (strip_prefix a scheme) as [t|] eqn:E.
  - rewrite (strip_prefix_Some_extend _ _ _ b E).
    pose proof (strip_prefix_length _ _ _ E) as Hlen.
    destruct (span url_byte t) as [a0 r] eqn:Es.
    rewrite (span_extend _ _ _ _ b Es).
    destruct a0 as [|c a0]; [| done]. intros _ Hl.
    destruct (span_spec _ _ _ _ Es) as (Ht & _ & _).
    rewrite append_nil_l in Ht. subst r.
    destruct t as [|c t]; [cbn in Hlen; lia | done].
  - intros _ Hl. rewrite strip_prefix_None_extend; [done | done | lia].
Qed.

Lemma address_at_extend a u rest b :
  address_at a = Some (u, rest) ->
  exists x rest',
    address_at (a +:+ b) = Some (u +:+ x, rest')
    /\ (no_address_byte_ahead b -> x = EmptyString).
Proof.
  unfold address_at.
  destruct (address_with "https://" a) as [[u' r']|] eqn:E.
  - intros [= <- <-].
    destruct (address_with_extend _ _ _ _ b E) as (x & rest' & -> & Hx).
    by exists x, rest'.
  - intros E'.
    destruct (address_with_extend _ _ _ _ b E') as (x & rest' & Hw & Hx).
    exists x, rest'. split; [| done].
    replace (address_with "https://" (a +:+ b)) with (@None (string * string));
      [done |].
    unfold address_with in E' |- *.
    destruct (strip_prefix a "http://") as [t|] eqn:Et; [| done].
    apply strip_prefix_Some in Et. subst a. by rewrite append_assoc.
Qed.

Lemma address_at_None_extend a b :
  address_at a = None -> 9 <= String.length a -> address_at (a +:+ b) = None.
Proof.
  unfold address_at.
  destruct (address_with "https://" a) as [[u' r']|] eqn:E; [done |].
  intros E' Hlen.
  rewrite !address_with_None_extend; try done; cbn [String.length]; lia.
Qed.

Lemma occurs_in_length sub s : occurs_in sub s -> String.length sub <= String.length s.
Proof. intros (a & b & ->). rewrite !length_append. lia. Qed.

Lemma leftmost_address_length s a :
  leftmost_address s = Some a -> 8 <= String.length s.
Proof.
  intros H. pose proof (leftmost_address_occurs s a H) as Ho%occurs_in_length.
  apply leftmost_address_shape in H as (sch & b & Hsch & -> & Hb & _).
  rewrite length_append in Ho. destruct b as [|c b]; [done |].
  destruct Hsch as [-> | ->]; cbn [String.length] in Ho; lia.
Qed.

(** appending text leaves the address where it starts *)
Lemma leftmost_address_extend a u b :
  leftmost_address a = Some u ->
  exists x,
    leftmost_address (a +:+ b) = Some (u +:+ x)
    /\ (no_address_byte_ahead b -> x = EmptyString).
Proof.
  induction a as [|c a IH]; rewrite leftmost_address_eq.
  - destruct (address_at EmptyString) as [[u' r]|] eqn:E; [| done].
    intros [= <-].
    destruct (address_at_extend _ _ _ b E) as (x & rest' & Hx & Hn).
    exists x. by rewrite leftmost_address_eq, Hx.
  - destruct (address_at (String c a)) as [[u' r]|] eqn:E.
    + intros [= <-].
      destruct (address_at_extend _ _ _ b E) as (x & rest' & Hx & Hn).
      exists x. by rewrite leftmost_address_eq, Hx.
    + intros H. pose proof (leftmost_address_length _ _ H) as Hlen.
      destruct (IH H) as (x & Hx & Hn). exists x. split; [| done].
      rewrite leftmost_address_eq, address_at_None_extend;
        [| done | cbn [String.length]; lia].
      by rewrite append_cons.
Qed.

Lemma command_text_extend a b :
  5 <= String.length (command_text a) ->
  command_text (a +:+ b) = command_text a +:+ b.
Proof.
  rewrite !command_text_TrimPrefix. unfold TrimPrefix.
  destruct (strip_prefix a "curl ") as [t|] eqn:E.
  - by rewrite (strip_prefix_Some_extend _ _ _ b E).
  - intros Hlen. by rewrite strip_prefix_None_extend.
Qed.

End ExtendFacts.

Section EntryFacts.
Import GoStrings Regexp Patterns Reference Parser.

Lemma last_value_In k l v : last_value k l = Some v -> In (k, v) l.
Proof.
  induction l as [|[n v'] l IH]; [done |]. cbn [last_value In].
  destruct (last_value k l) as [v''|].
  - intros [= <-]. right. by apply IH.
  - destruct (decide (n = k)) as [-> |]; [| done]. intros [= <-]. by left.
Qed.

Lemma In_omap {X Y} (f : X -> option Y) (l : list X) (y : Y) :
  In y (omap f l) -> exists x, In x l /\ f x = Some y.
Proof.
  induction l as [|x l IH]; [done |]. rewrite omap_cons.
  destruct (f x) as [y'|] eqn:E.
  - intros [<- | H]; [exists x; split; [by left | done] |].
    destruct (IH H) as (x' & ? & ?). exists x'. split; [by right | done].
  - intros H. destruct (IH H) as (x' & ? & ?). exists x'. split; [by right | done].
Qed.

Lemma Cut_byte_after s c b a :
  Cut s (String c EmptyString) = Some (b, a) ->
  forall d, has_byte d s = false -> has_byte d b = false /\ has_byte d a = false.
Proof.
  intros ->%Cut_Some d. rewrite !has_byte_app.
  intros [? [_ ?]%orb_false_iff]%orb_false_iff. done.
Qed.

(** what a header text gives: a trimmed name without colon, a trimmed value *)
Lemma header_entry_shape h k v :
  header_entry h = Some (k, v) ->
  trimmed k /\ trimmed v /\ has_byte ":" k = false.
Proof.
  unfold header_entry. destruct (Cut h ":") as [[n val]|] eqn:E; [| done].
  intros [= <- <-]. repeat split; try apply TrimSpace_trimmed.
  apply TrimSpace_has_byte. by apply Cut_byte_before in E.
Qed.

Lemma extractHeaders_shape cmd k v :
  extractHeaders_into cmd ∅ !! k = Some v ->
  trimmed k /\ trimmed v /\ has_byte ":" k = false.
Proof.
  rewrite extractHeaders_lookup, lookup_empty.
  destruct (last_value k (header_entries cmd)) as [v'|] eqn:E; [| done].
  intros [= <-]. apply last_value_In in E. unfold header_entries in E.
  apply In_omap in E as (h & _ & Hh). by apply header_entry_shape in Hh.
Qed.

Lemma split_upto_pieces n s c piece :
  String.length s <= n ->
  In piece (split_upto n s (String c EmptyString)) -> has_byte c piece = false.
Proof.
  revert s. induction n as [|n IH]; intros s Hn.
  - destruct s; [| cbn in Hn; lia]. cbn [split_upto In]. by intros [<- | []].
  - cbn [split_upto]. destruct (Cut s (String c EmptyString)) as [[b a]|] eqn:E.
    + intros [<- | H]; [by apply Cut_byte_before in E |].
      apply (IH a); [| done]. apply Cut_length in E. cbn [String.length] in E. lia.
    + intros [<- | []]. by apply Cut_byte_None.
Qed.

Lemma Split_pieces s c piece :
  In piece (Split s (String c EmptyString)) -> has_byte c piece = false.
Proof. by apply split_upto_pieces. Qed.

(** what a piece of the cookie text gives *)
Lemma cookie_entry_shape piece k v :
  has_byte ";" piece = false ->
  cookie_entry piece = Some (k, v) ->
  trimmed k /\ trimmed v /\ has_byte "=" k = false
  /\ has_byte ";" k = false /\ has_byte ";" v = false.
Proof.
  intros Hp%(TrimSpace_has_byte ";"). unfold cookie_entry.
  destruct (Cut (TrimSpace piece) "=") as [[n val]|] eqn:E; [| done].
  intros [= <- <-].
  destruct (Cut_byte_after _ _ _ _ E ";" Hp) as [Hn Hval].
  repeat split; try apply TrimSpace_trimmed; apply TrimSpace_has_byte; try done.
  by apply Cut_byte_before in E.
Qed.

Lemma parse_cookies_shape data k v :
  parse_cookies data ∅ !! k = Some v ->
  trimmed k /\ trimmed v /\ has_byte "=" k = false
  /\ has_byte ";" k = false /\ has_byte ";" v = false.
Proof.
  rewrite parse_cookies_lookup, lookup_empty.
  destruct (last_value k (cookie_entries data)) as [v'|] eqn:E; [| done].
  intros [= <-]. apply last_value_In in E. unfold cookie_entries in E.
  apply In_omap in E as (piece & Hin & Hp).
  apply Split_pieces in Hin. by apply (cookie_entry_shape piece).
Qed.

End EntryFacts.

Section QueryFacts.
Import GoStrings Regexp Patterns Reference Parser.

Lemma Cut_byte_absent s c : has_byte c s = false -> Cut s (String c EmptyString) = None.
Proof.
  intros H. destruct (Cut s _) as [[b a]|] eqn:E; [| done].
  apply Cut_Some in E. rewrite E, !has_byte_app in H. cbn [has_byte] in H.
  by rewrite Ascii.eqb_refl, orb_true_r in H.
Qed.

Lemma behind_app_byte a b c :
  has_byte c a = false ->
  behind (String c EmptyString) (a +:+ b) = behind (String c EmptyString) b.
Proof.
  intros Ha. unfold behind. rewrite (Cut_app_byte a b c Ha).
  by destruct (Cut b _) as [[? ?]|].
Qed.

(** a text that ends with its only [c] has nothing behind it *)
Lemma Count_one_behind s c :
  HasSuffix s (String c EmptyString) = true ->
  Count s (String c EmptyString) = 1 ->
  behind (String c EmptyString) s = EmptyString.
Proof.
  intros [b ->]%HasSuffix_byte Hcount.
  destruct (has_byte c b) eqn:Hb.
  - exfalso. unfold Count in Hcount.
    rewrite length_append in Hcount. cbn [String.length] in Hcount.
    replace (String.length b + 1) with (S (String.length b)) in Hcount by lia.
    cbn [count_upto] in Hcount.
    destruct (Cut_byte_Some _ _ Hb) as (x & y & Hxy).
    rewrite (Cut_byte_app_l _ _ _ _ _ Hxy) in Hcount.
    destruct b as [|b0 b]; [done |]. cbn [String.length count_upto] in Hcount.
    destruct (Cut_byte_Some _ _ (has_byte_last y c)) as (x' & y' & Hxy').
    rewrite Hxy' in Hcount. done.
  - rewrite behind_app_byte by done. unfold behind. cbn [Cut strip_prefix].
    by rewrite Ascii.eqb_refl.
Qed.

Lemma query_split_behind rest :
  (let '(_, _, rawQuery) :=
     if HasSuffix rest "?" && Nat.eqb (Count rest "?") 1
     then (URL.drop_last rest, true, EmptyString)
     else match Cut rest "?" with
          | Some (b, a) => (b, false, a)
          | None => (rest, false, EmptyString)
          end in rawQuery) = behind "?" rest.
Proof.
  destruct (HasSuffix rest "?") eqn:Hs; cbn [andb].
  - destruct (Nat.eqb_spec (Count rest "?") 1) as [Hc|Hc].
    + symmetry. by apply Count_one_behind.
    + unfold behind. by destruct (Cut rest "?") as [[? ?]|].
  - unfold behind. by destruct (Cut rest "?") as [[? ?]|].
Qed.

Lemma parse_RawQuery sch t url :
  sch = "http" \/ sch = "https" ->
  URL.parse (sch +:+ "://" +:+ t) = Some url ->
  URL.RawQuery url = behind "?" (sch +:+ "://" +:+ t).
Proof.
  intros Hsch H. unfold URL.parse in H.
  destruct (URL.stringContainsCTLByte _); [done |].
  assert (Hstar : String.eqb (sch +:+ "://" +:+ t) "*" = false)
    by (by destruct Hsch as [-> | ->]).
  rewrite Hstar in H.
  assert (Hget : URL.getScheme (sch +:+ "://" +:+ t) = Some (sch, "//" +:+ t))
    by (by destruct Hsch as [-> | ->]).
  rewrite Hget in H. cbn [mbind option_bind] in H.
  assert (Hbehind : behind "?" (sch +:+ "://" +:+ t) = behind "?" ("//" +:+ t)).
  { destruct Hsch as [-> | ->].
    - change ("http" +:+ "://" +:+ t) with ("http:" +:+ "//" +:+ t).
      by rewrite (behind_app_byte "http:" ("//" +:+ t) "?" eq_refl).
    - change ("https" +:+ "://" +:+ t) with ("https:" +:+ "//" +:+ t).
      by rewrite (behind_app_byte "https:" ("//" +:+ t) "?" eq_refl). }
  rewrite Hbehind. clear Hbehind.
  pose proof (query_split_behind ("//" +:+ t)) as Hsplit.
  destruct (if HasSuffix ("//" +:+ t) "?" && Nat.eqb (Count ("//" +:+ t) "?") 1
            then (URL.drop_last ("//" +:+ t), true, EmptyString)
            else match Cut ("//" +:+ t) "?" with
                 | Some (b, a) => (b, false, a)
                 | None => ("//" +:+ t, false, EmptyString)
                 end) as [[rest force] rawQuery].
  rewrite <- Hsplit. clear Hsplit.
  repeat match type of H with
         | (if ?c then _ else _) = _ => destruct c; [try done |]
         | (if ?c then _ else _) = _ => destruct c
         end;
    try (by injection H as <-).
  all: repeat match type of H with
         | context [match ?x with _ => _ end] =>
             match x with
             | URL.parseAuthority _ => destruct x as [[? ?]|]
             | URL.unescape _ _ => destruct x
             | Cut _ _ => destruct x as [[? ?]|]
             end; cbn [mbind option_bind] in H; try done
         end.
  all: try (by injection H as <-).
  all: apply bind_Some in H as ([[user host] rest'] & _ & H);
    apply bind_Some in H as (path & _ & H); by injection H as <-.
Qed.

Lemma Parse_RawQuery sch t u :
  sch = "http" \/ sch = "https" ->
  URL.Parse (sch +:+ "://" +:+ t) = Some u ->
  URL.RawQuery u = query_text (sch +:+ "://" +:+ t).
Proof.
  intros Hsch H. unfold URL.Parse in H. unfold query_text, before.
  assert (Hcut : Cut (sch +:+ "://" +:+ t) "#" =
                 match Cut t "#" with
                 | Some (x, y) => Some (sch +:+ "://" +:+ x, y)
                 | None => None
                 end).
  { rewrite <- append_assoc.
    destruct Hsch as [-> | ->].
    - rewrite (Cut_app_byte ("http" +:+ "://") t "#" eq_refl).
      destruct (Cut t "#") as [[? ?]|]; [| done]. by rewrite append_assoc.
    - rewrite (Cut_app_byte ("https" +:+ "://") t "#" eq_refl).
      destruct (Cut t "#") as [[? ?]|]; [| done]. by rewrite append_assoc. }
  rewrite Hcut in H |- *.
  destruct (Cut t "#") as [[x frag]|].
  - destruct (URL.parse (sch +:+ "://" +:+ x)) as [url|] eqn:Eu; [| done].
    cbn [mbind option_bind] in H.
    rewrite <- (parse_RawQuery sch x url Hsch Eu).
    destruct (String.eqb frag EmptyString); [by injection H as <- |].
    destruct (URL.unescape URL.encodeFragment frag); [| done].
    cbn [mbind option_bind] in H. by injection H as <-.
  - destruct (URL.parse (sch +:+ "://" +:+ t)) as [url|] eqn:Eu; [| done].
    cbn [mbind option_bind String.eqb] in H. injection H as <-.
    by apply parse_RawQuery.
Qed.

Lemma query_text_absent target : has_byte "?" target = false -> query_text target = EmptyString.
Proof.
  intros H. unfold query_text, behind.
  by rewrite (Cut_byte_absent _ "?" (before_has_byte "?" "#" target H)).
Qed.

Lemma Parse_query_text curlCommand r u :
  Parse curlCommand = Some r -> URL.Parse (URL r) = Some u ->
  URL.RawQuery u = query_text (URL r).
Proof.
  intros (a & Ha & -> & _)%Parse_fields Hu.
  rewrite extractURL_leftmost in Ha.
  apply leftmost_address_scheme in Ha as (sch & t & Hsch & ->).
  by apply Parse_RawQuery.
Qed.

Lemma Parse_no_query curlCommand r :
  Parse curlCommand = Some r -> has_byte "?" (URL r) = false -> Query r = ∅.
Proof.
  intros HP Hq. pose proof (Parse_query_text curlCommand r) as Hraw.
  destruct (Parse_fields _ _ HP) as (a & _ & Ha & _ & _ & _ & HQ & _).
  rewrite HQ. subst a. unfold extractQueryParams_into.
  destruct (URL.Parse (URL r)) as [u|]; [| done].
  unfold URL.Query. rewrite (Hraw u HP eq_refl), query_text_absent by done.
  cbn [String.length URL.parseQuery String.eqb].
  unfold first_values. apply map_fold_empty.
Qed.

End QueryFacts.

Section PrefixFacts.
Import GoStrings Regexp Patterns Reference Parser.

Lemma dash_led_cookie_flag : dash_led cookie_flag.
Proof. unfold cookie_flag. apply dash_led_Alt; apply dash_led_Lit. Qed.

Lemma find_curl re s :
  dash_led (prog re) -> find re ("curl " +:+ s) = find re s.
Proof. intros H. by apply find_skip. Qed.

Lemma extractCookieFromParams_curl s :
  extractCookieFromParams ("curl " +:+ s) = extractCookieFromParams s.
Proof.
  unfold extractCookieFromParams, FindStringSubmatch.
  by rewrite !find_curl by (apply dash_led_Cat, dash_led_cookie_flag).
Qed.

(** the word curl in front of the command changes nothing *)
Lemma Parse_curl s : HasPrefix s "curl " = false -> Parse ("curl " +:+ s) = Parse s.
Proof.
  intros Hs. unfold Parse. rewrite command_text_curl.
  assert (Hcmd : command_text s = s).
  { unfold command_text. by rewrite Hs. }
  rewrite Hcmd. destruct (extractURL s) as [u|]; [| done].
  unfold extractCookies, cookie_source.
  by rewrite extractCookieFromParams_curl.
Qed.

End PrefixFacts.

Section FreeFacts.
Import GoStrings Regexp Patterns Reference Parser.

Context (c : ascii).

Lemma substring_free n m s :
  has_byte c s = false -> has_byte c (substring n m s) = false.
Proof.
  revert n m. induction s as [|x s IH]; intros n m Hs.
  - by destruct n, m.
  - cbn [has_byte] in Hs. apply orb_false_iff in Hs as [Hx Hs].
    destruct n as [|n]; [| by apply IH].
    destruct m as [|m]; [done |]. cbn [substring has_byte].
    by rewrite Hx, IH.
Qed.

Lemma consumed_free s rest : has_byte c s = false -> has_byte c (consumed s rest) = false.
Proof. apply substring_free. Qed.

Lemma all_free_insert i g l :
  all_free c l -> has_byte c g = false -> all_free c (<[i := g]> l).
Proof. intros Hl Hg. by apply Forall_insert. Qed.

Lemma all_free_replicate n : all_free c (replicate n EmptyString).
Proof. by apply Forall_replicate. Qed.

(** a match ends in a call of what follows the pattern, on a tail of the
    text and with groups taken from the text *)
Lemma iterate_called {A}
    (body : list string -> string -> (list string -> string -> option A) -> option A)
    greedy (k : list string -> string -> option A) n cs s x :
  (forall cs s k' x, has_byte c s = false -> all_free c cs ->
     body cs s k' = Some x ->
     exists cs' s', k' cs' s' = Some x /\ has_byte c s' = false /\ all_free c cs') ->
  has_byte c s = false -> all_free c cs ->
  iterate body greedy k n cs s = Some x ->
  exists cs' s', k cs' s' = Some x /\ has_byte c s' = false /\ all_free c cs'.
Proof.
  intros Hbody. revert cs s.
  induction n as [|n IH]; intros cs s Hs Hcs; cbn [iterate]; [by eauto |].
  set (more := body cs s _).
  assert (Hmore : more = Some x ->
    exists cs' s', k cs' s' = Some x /\ has_byte c s' = false /\ all_free c cs').
  { unfold more. intros H.
    apply Hbody in H as (cs1 & s1 & H & Hs1 & Hcs1); [| done..].
    destruct (Nat.ltb _ _); [| done]. by apply IH in H. }
  destruct greedy.
  - destruct more as [y|]; [by intros [= ->]; apply Hmore | eauto].
  - destruct (k cs s) as [y|] eqn:Ek; [intros [= ->]; eauto | done].
Qed.

Lemma run_called {A} r cs s (k : list string -> string -> option A) x :
  has_byte c s = false -> all_free c cs -> run r cs s k = Some x ->
  exists cs' s', k cs' s' = Some x /\ has_byte c s' = false /\ all_free c cs'.
Proof.
  revert cs s k x.
  induction r as [|p|r1 IH1 r2 IH2|r1 IH1 r2 IH2|g r1 IH1|i r1 IH1|];
    intros cs s k x Hs Hcs; cbn [run].
  - eauto.
  - destruct s as [|a t]; [done |]. destruct (p a); [| done].
    cbn [has_byte] in Hs. apply orb_false_iff in Hs as [_ Hs]. eauto.
  - intros H. apply IH1 in H as (cs1 & s1 & H & Hs1 & Hcs1); [| done..].
    by apply IH2 in H.
  - destruct (run r1 cs s k) as [y|] eqn:E.
    + intros [= ->]. by apply IH1 in E.
    + by apply IH2.
  - apply iterate_called; [| done..]. intros cs0 s0 k' x0. apply IH1.
  - intros H. apply IH1 in H as (cs1 & s1 & H & Hs1 & Hcs1); [| done..].
    exists (<[i := consumed s s1]> cs1), s1. split; [done |]. split; [done |].
    apply all_free_insert; [done |]. by apply consumed_free.
  - destruct s; [eauto | done].
Qed.

Lemma match_here_free re s cs rest :
  has_byte c s = false -> match_here re s = Some (cs, rest) ->
  all_free c cs /\ has_byte c rest = false.
Proof.
  intros Hs H. unfold match_here in H.
  apply run_called in H as (cs' & s' & [= <- <-] & Hs' & Hcs');
    [| done | apply all_free_replicate].
  split; [| done]. apply all_free_insert; [done |]. by apply consumed_free.
Qed.

Lemma find_free re s start cs rest :
  has_byte c s = false -> find re s = Some (start, cs, rest) ->
  all_free c cs /\ has_byte c rest = false.
Proof.
  intros Hs (pre & -> & H)%find_Some. rewrite has_byte_app in Hs.
  apply orb_false_iff in Hs as [_ Hs]. by apply match_here_free in H.
Qed.

Lemma FindStringSubmatch_free re s :
  has_byte c s = false -> all_free c (FindStringSubmatch re s).
Proof.
  intros Hs. unfold FindStringSubmatch.
  destruct (find re s) as [[[start cs] rest]|] eqn:E; [| by constructor].
  by apply find_free in E as [? _].
Qed.

Lemma find_all_free n re s prev :
  has_byte c s = false -> Forall (all_free c) (find_all n re s prev).
Proof.
  revert s prev. induction n as [|n IH]; intros s prev Hs; [by constructor |].
  cbn [find_all]. destruct (find re s) as [[[start cs] rest]|] eqn:E; [| by constructor].
  apply find_free in E as [Hcs Hrest]; [| done].
  destruct (Nat.eqb _ _).
  - assert (Hthis : Forall (all_free c)
              (if bool_decide (prev = Some (String.length start)) then [] else [cs])).
    { destruct (bool_decide _); by repeat constructor. }
    destruct s as [|a t]; [done |]. apply Forall_app. split; [done |].
    apply IH. cbn [has_byte] in Hs. by apply orb_false_iff in Hs as [_ ?].
  - constructor; [done |]. by apply IH.
Qed.

Lemma FindAllStringSubmatch_free re s :
  has_byte c s = false -> Forall (all_free c) (FindAllStringSubmatch re s).
Proof. apply find_all_free. Qed.

Lemma group1_free re s v : has_byte c s = false -> group1 re s = Some v -> has_byte c v = false.
Proof.
  intros Hs. unfold group1.
  pose proof (FindStringSubmatch_free re s Hs) as H.
  destruct (FindStringSubmatch re s) as [|g0 [|g1 l]]; try done.
  intros [= <-]. apply Forall_cons in H as [_ H]. by apply Forall_cons in H as [? _].
Qed.

Lemma first_group_free m : all_free c m -> has_byte c (first_group m) = false.
Proof.
  intros H. unfold first_group.
  destruct m as [|g0 [|g1 [|g2 [|g3 l]]]]; try done.
  apply Forall_cons in H as [_ H]. apply Forall_cons in H as [H1 H].
  apply Forall_cons in H as [H2 H]. apply Forall_cons in H as [H3 _].
  by destruct (nonempty g1), (nonempty g2).
Qed.

Lemma Join_free elems sep :
  all_free c elems -> has_byte c sep = false -> has_byte c (Join elems sep) = false.
Proof.
  intros H Hsep. induction H as [|x l Hx Hl IH]; [done |].
  destruct l as [|y l]; [done |].
  change (Join (x :: y :: l) sep) with (x +:+ sep +:+ Join (y :: l) sep).
  by rewrite !has_byte_app, Hx, Hsep, IH.
Qed.

End FreeFacts.

Section BackslashFacts.
Import GoStrings Regexp Patterns Reference Parser.

Lemma upper_byte_backslash a : Ascii.eqb "\" (upper_byte a) = Ascii.eqb "\" a.
Proof. destruct a as [[] [] [] [] [] [] [] []]; reflexivity. Qed.

Lemma ToUpper_backslash s : has_byte "\" (ToUpper s) = has_byte "\" s.
Proof.
  induction s as [|a s IH]; [done |]. cbn [ToUpper has_byte].
  by rewrite upper_byte_backslash, IH.
Qed.

Lemma submatch1_free c re s :
  has_byte c s = false ->
  match FindStringSubmatch re s with
  | _ :: m1 :: _ => has_byte c m1 = false
  | _ => True
  end.
Proof.
  intros Hs. pose proof (FindStringSubmatch_free c re s Hs) as H.
  destruct (FindStringSubmatch re s) as [|g0 [|g1 l]]; try done.
  apply Forall_cons in H as [_ H]. by apply Forall_cons in H as [? _].
Qed.

Lemma extractURL_free c cmd u :
  has_byte c cmd = false -> extractURL cmd = Some u -> has_byte c u = false.
Proof.
  intros Hc. unfold extractURL.
  pose proof (submatch1_free c urlRegex cmd Hc) as H1.
  pose proof (submatch1_free c urlRegexLoose cmd Hc) as H2.
  destruct (FindStringSubmatch urlRegex cmd) as [|? [|? ?]];
    destruct (FindStringSubmatch urlRegexLoose cmd) as [|? [|? ?]];
    try done; by intros [= <-].
Qed.

Lemma extractMethod_backslash cmd :
  has_byte "\" cmd = false -> has_byte "\" (extractMethod cmd) = false.
Proof.
  intros Hc. unfold extractMethod.
  pose proof (submatch1_free "\" methodRegex cmd Hc) as H1.
  pose proof (submatch1_free "\" requestRegex cmd Hc) as H2.
  destruct (FindStringSubmatch methodRegex cmd) as [|? [|? ?]];
    destruct (FindStringSubmatch requestRegex cmd) as [|? [|? ?]];
    rewrite ?ToUpper_backslash; try done;
    repeat match goal with |- context [if ?b then _ else _] => destruct b end;
    done.
Qed.

Lemma all_free_filter c (P : string -> Prop) `{!forall x, Decision (P x)} l :
  all_free c l -> all_free c (filter P l).
Proof.
  intros Hl. apply Forall_forall. intros x [_ Hx]%list_elem_of_filter.
  by apply (proj1 (Forall_forall _ _) Hl).
Qed.

Lemma all_free_first_groups c ms :
  Forall (all_free c) ms -> all_free c (map first_group ms).
Proof.
  induction 1 as [|m ms Hm Hms IH]; [by constructor |].
  cbn [map]. constructor; [by apply first_group_free | done].
Qed.

Lemma extractBody_backslash cmd :
  has_byte "\" cmd = false -> has_byte "\" (extractBody cmd) = false.
Proof.
  intros Hc. unfold extractBody.
  pose proof (submatch1_free "\" singleQuoteRegex cmd Hc) as H1.
  pose proof (submatch1_free "\" doubleQuoteRegex cmd Hc) as H2.
  pose proof (submatch1_free "\" dataRawRegex cmd Hc) as H3.
  pose proof (submatch1_free "\" noQuoteRegex cmd Hc) as H4.
  pose proof (FindAllStringSubmatch_free "\" formRegex cmd Hc) as H5.
  destruct (FindStringSubmatch singleQuoteRegex cmd) as [|? [|? ?]]; try done;
    destruct (FindStringSubmatch doubleQuoteRegex cmd) as [|? [|? ?]]; try done;
    destruct (FindStringSubmatch dataRawRegex cmd) as [|? [|? ?]]; try done;
    destruct (FindStringSubmatch noQuoteRegex cmd) as [|? [|? ?]]; try done;
    (destruct (FindAllStringSubmatch formRegex cmd) as [|m ms] eqn:E; [done |]);
    (apply Join_free; [| done]); apply all_free_filter;
    by apply all_free_first_groups.
Qed.

Lemma header_entry_free c h k v :
  has_byte c h = false -> header_entry h = Some (k, v) ->
  has_byte c k = false /\ has_byte c v = false.
Proof.
  intros Hh. unfold header_entry.
  destruct (Cut h ":") as [[n val]|] eqn:E; [| done]. intros [= <- <-].
  destruct (Cut_byte_after _ _ _ _ E c Hh).
  split; by apply TrimSpace_has_byte.
Qed.

Lemma In_filter_string (P : string -> Prop) `{!forall x, Decision (P x)} l x :
  In x (filter P l) -> In x l.
Proof.
  rewrite <- !list_elem_of_In. by intros [_ ?]%list_elem_of_filter.
Qed.

Lemma extractHeaders_free c cmd k v :
  has_byte c cmd = false -> extractHeaders_into cmd ∅ !! k = Some v ->
  has_byte c k = false /\ has_byte c v = false.
Proof.
  intros Hc. rewrite extractHeaders_lookup, lookup_empty.
  destruct (last_value k (header_entries cmd)) as [v'|] eqn:E; [| done].
  intros [= <-]. apply last_value_In in E. unfold header_entries in E.
  apply In_omap in E as (h & Hin & Hh). apply (header_entry_free c h); [| done].
  unfold header_texts in Hin. apply In_filter_string in Hin.
  apply in_map_iff in Hin as (m & <- & Hm).
  apply first_group_free.
  pose proof (FindAllStringSubmatch_free c headerRegex cmd Hc) as H.
  rewrite Forall_forall in H. apply H. by apply list_elem_of_In.
Qed.

Lemma TrimPrefix_free c s p : has_byte c s = false -> has_byte c (TrimPrefix s p) = false.
Proof.
  intros Hs. unfold TrimPrefix. destruct (strip_prefix s p) as [t|] eqn:E; [| done].
  apply strip_prefix_Some in E. subst s. rewrite has_byte_app in Hs.
  by apply orb_false_iff in Hs as [_ ?].
Qed.

Lemma command_textV1_backslash s : has_byte "\" (ParserV1.command_text s) = false.
Proof.
  rewrite command_text_clean, command_text_TrimPrefix.
  apply TrimPrefix_free, clean_no_backslash.
Qed.

End BackslashFacts.

Section CookieFacts.
Import GoStrings Regexp Patterns Reference Parser.

Lemma add_cookie_pair_entry h piece :
  ParserV1.add_cookie_pair h piece =
  match cookie_pair_entry piece with
  | Some (n, v) => <[n := v]> h
  | None => h
  end.
Proof.
  unfold ParserV1.add_cookie_pair, cookie_pair_entry. rewrite SplitN_2.
  destruct (Cut (TrimSpace piece) "=") as [[? ?]|]; [done |].
  by destruct (nonempty (TrimSpace piece)).
Qed.

Lemma parseCookieString_lookup cookieStr h k :
  ParserV1.parseCookieString cookieStr h !! k =
  match last_value k (cookie_pair_entries cookieStr) with
  | Some v => Some v
  | None => h !! k
  end.
Proof.
  unfold ParserV1.parseCookieString, cookie_pair_entries.
  by rewrite (foldl_last_value ParserV1.add_cookie_pair _ add_cookie_pair_entry).
Qed.

Lemma foldl_ext_in {X Y} (f g : Y -> X -> Y) (l : list X) (y : Y) :
  (forall x y, In x l -> f y x = g y x) -> foldl f y l = foldl g y l.
Proof.
  revert y. induction l as [|x l IH]; intros y H; [done |].
  cbn [foldl]. rewrite (H x y (or_introl eq_refl)).
  apply IH. intros x' y' Hin. apply H. by right.
Qed.

(** on a text whose pieces all hold an equals sign the loop of
    [parseCookieString] and the loop of [extractCookies] do the same *)
Lemma parseCookieString_parse_cookies cookieStr h :
  (forall piece, In piece (Split cookieStr ";") ->
     TrimSpace piece = EmptyString \/ Contains (TrimSpace piece) "=" = true) ->
  ParserV1.parseCookieString cookieStr h = parse_cookies cookieStr h.
Proof.
  intros H. unfold ParserV1.parseCookieString, parse_cookies.
  apply foldl_ext_in. intros piece m Hin.
  rewrite add_cookie_pair_entry, add_cookie_entry.
  unfold cookie_pair_entry, cookie_entry, Contains in *.
  destruct (H piece Hin) as [-> | Hc]; [done |].
  by destruct (Cut (TrimSpace piece) "=") as [[? ?]|].
Qed.

(** ** Texts that trimming leaves alone *)

Lemma trim_left_None encs s : strip_any encs s = None -> trim_left encs s = s.
Proof.
  intros H. unfold trim_left. destruct (String.length s); [done |].
  cbn [trim_left_upto]. by rewrite H.
Qed.

Lemma trimmed_inv s :
  trimmed s ->
  strip_any space_encodings s = None
  /\ strip_any (map String.rev space_encodings) (String.rev s) = None.
Proof.
  unfold trimmed, starts_with_space, ends_with_space. intros [H1 H2].
  split; [by destruct (strip_any space_encodings s) |].
  by destruct (strip_any _ (String.rev s)).
Qed.

Lemma TrimSpace_id s : trimmed s -> TrimSpace s = s.
Proof.
  intros [H1 H2]%trimmed_inv. unfold TrimSpace.
  by rewrite (trim_left_None _ s H1), (trim_left_None _ _ H2), rev_involutive.
Qed.

Lemma TrimSpace_space s : TrimSpace (String " " s) = TrimSpace s.
Proof.
  assert (H : trim_left space_encodings (String " " s)
              = trim_left space_encodings s).
  { unfold trim_left at 1. cbn [String.length trim_left_upto].
    by change (strip_any space_encodings (String " " s)) with (Some s). }
  unfold TrimSpace. by rewrite H.
Qed.

Lemma strip_prefix_straddle a x b e t :
  strip_prefix (a +:+ String x b) e = Some t -> has_byte x e = false ->
  strip_prefix a e <> None.
Proof.
  revert a t. induction e as [|y e IH]; intros a t; [done |].
  cbn [has_byte]. intros H [Hy He]%orb_false_iff.
  destruct a as [|z a].
  - rewrite append_nil_l in H. cbn [strip_prefix] in H.
    by rewrite Ascii.eqb_sym, Hy in H.
  - rewrite append_cons in H. cbn [strip_prefix] in *.
    destruct (Ascii.eqb y z); [by eapply IH | done].
Qed.

Lemma strip_any_straddle encs a x b :
  Forall (fun e => has_byte x e = false) encs ->
  strip_any encs a = None -> strip_any encs (a +:+ String x b) = None.
Proof.
  induction 1 as [|e encs He Hencs IH]; [done |]. cbn [strip_any].
  destruct (strip_prefix a e) as [t|] eqn:E; [done |]. intros H.
  destruct (strip_prefix (a +:+ String x b) e) as [t|] eqn:E'; [| by apply IH].
  by apply strip_prefix_straddle in E'.
Qed.

Lemma space_encodings_no_equals :
  Forall (fun e => has_byte "=" e = false) space_encodings
  /\ Forall (fun e => has_byte "=" e = false) (map String.rev space_encodings).
Proof. split; repeat constructor. Qed.

Lemma cookie_text_trimmed k v : trimmed k -> trimmed v -> trimmed (k +:+ "=" +:+ v).
Proof.
  intros [Hk _]%trimmed_inv [_ Hv]%trimmed_inv.
  destruct space_encodings_no_equals as [H1 H2].
  unfold trimmed, starts_with_space, ends_with_space.
  change ("=" +:+ v) with (String "=" v).
  rewrite (strip_any_straddle _ k "=" v H1 Hk).
  rewrite rev_append, rev_cons, append_assoc.
  change (String "=" EmptyString +:+ String.rev k) with (String "=" (String.rev k)).
  by rewrite (strip_any_straddle _ (String.rev v) "=" (String.rev k) H2 Hv).
Qed.

Lemma Cut_cookie_text k v :
  has_byte "=" k = false -> Cut (k +:+ "=" +:+ v) "=" = Some (k, v).
Proof.
  intros Hk. rewrite (Cut_app_byte k ("=" +:+ v) "=" Hk).
  change (Cut ("=" +:+ v) "=") with (Some (EmptyString, v)).
  cbv beta iota. by rewrite append_nil_r.
Qed.

Lemma cookie_entry_text p : clean_cookie p -> cookie_entry (cookie_text p) = Some p.
Proof.
  destruct p as [k v]. unfold clean_cookie, cookie_text. cbn [fst snd].
  intros (Hk & Hv & He & _ & _). unfold cookie_entry.
  rewrite (TrimSpace_id _ (cookie_text_trimmed k v Hk Hv)), Cut_cookie_text by done.
  by rewrite !TrimSpace_id.
Qed.

Lemma cookie_pair_entry_text p :
  clean_cookie p -> cookie_pair_entry (cookie_text p) = Some p.
Proof.
  destruct p as [k v]. unfold clean_cookie, cookie_text. cbn [fst snd].
  intros (Hk & Hv & He & _ & _). unfold cookie_pair_entry. cbv zeta.
  rewrite (TrimSpace_id _ (cookie_text_trimmed k v Hk Hv)), Cut_cookie_text by done.
  by rewrite !TrimSpace_id.
Qed.

Lemma cookie_entry_space piece : cookie_entry (String " " piece) = cookie_entry piece.
Proof. unfold cookie_entry. by rewrite TrimSpace_space. Qed.

Lemma cookie_pair_entry_space piece :
  cookie_pair_entry (String " " piece) = cookie_pair_entry piece.
Proof. unfold cookie_pair_entry. by rewrite TrimSpace_space. Qed.

(** ** Cutting a joined text *)

Lemma Join_cons x y l sep : Join (x :: y :: l) sep = x +:+ sep +:+ Join (y :: l) sep.
Proof. reflexivity. Qed.

Lemma Join_space q rest :
  String " " (Join (q :: rest) "; ") = Join (String " " q :: rest) "; ".
Proof. destruct rest; [done |]. by rewrite !Join_cons, append_cons. Qed.

Lemma split_upto_Join n p rest :
  Forall (fun x => has_byte ";" x = false) (p :: rest) ->
  String.length (Join (p :: rest) "; ") <= n ->
  split_upto n (Join (p :: rest) "; ") ";" = p :: map (String " ") rest.
Proof.
  revert n p. induction rest as [|q rest IH]; intros n p Hall Hn.
  - apply Forall_cons in Hall as [Hp _]. cbn [Join map].
    destruct n as [|n]; [done |]. cbn [split_upto].
    by rewrite (Cut_byte_absent p ";" Hp).
  - apply Forall_cons in Hall as [Hp Hall].
    rewrite Join_cons in Hn |- *. rewrite !length_append in Hn.
    destruct n as [|n]; [cbn [String.length] in Hn; lia |].
    cbn [split_upto]. rewrite (Cut_app_byte p _ ";" Hp).
    change (Cut ("; " +:+ Join (q :: rest) "; ") ";")
      with (Some (EmptyString, String " " (Join (q :: rest) "; "))).
    cbv beta iota. rewrite append_nil_r, Join_space. cbn [map]. f_equal.
    apply IH.
    + apply Forall_cons in Hall as [Hq Hall]. by constructor.
    + rewrite <- Join_space. cbn [String.length] in *. lia.
Qed.

Lemma Split_Join p rest :
  Forall (fun x => has_byte ";" x = false) (p :: rest) ->
  Split (Join (p :: rest) "; ") ";" = p :: map (String " ") rest.
Proof. intros H. by apply split_upto_Join. Qed.

Lemma cookie_text_no_semicolon p : clean_cookie p -> has_byte ";" (cookie_text p) = false.
Proof.
  destruct p as [k v]. unfold clean_cookie, cookie_text. cbn [fst snd].
  intros (_ & _ & _ & Hk & Hv). by rewrite !has_byte_app, Hk, Hv.
Qed.

Lemma omap_spaced (entry : string -> option (string * string)) l :
  (forall piece, entry (String " " piece) = entry piece) ->
  (forall p, clean_cookie p -> entry (cookie_text p) = Some p) ->
  Forall clean_cookie l ->
  omap entry (map (String " ") (map cookie_text l)) = l.
Proof.
  intros Hsp Htext. induction 1 as [|p l Hp Hl IH]; [done |].
  cbn [map]. by rewrite omap_cons, Hsp, Htext, IH.
Qed.

Lemma entries_cookie_line (entry : string -> option (string * string)) l :
  entry EmptyString = None ->
  (forall piece, entry (String " " piece) = entry piece) ->
  (forall p, clean_cookie p -> entry (cookie_text p) = Some p) ->
  Forall clean_cookie l ->
  omap entry (Split (cookie_line l) ";") = l.
Proof.
  intros Hempty Hsp Htext Hl. unfold cookie_line.
  destruct Hl as [|p l Hp Hl]; [by cbn; rewrite Hempty |].
  cbn [map]. rewrite Split_Join.
  - by rewrite omap_cons, Htext, omap_spaced.
  - constructor; [by apply cookie_text_no_semicolon |].
    apply Forall_forall. intros x (p' & <- & Hin)%list_elem_of_In%in_map_iff.
    apply cookie_text_no_semicolon.
    by apply (proj1 (Forall_forall _ _) Hl), list_elem_of_In.
Qed.

Lemma cookie_entries_line l : Forall clean_cookie l -> cookie_entries (cookie_line l) = l.
Proof.
  apply entries_cookie_line;
    [done | apply cookie_entry_space | apply cookie_entry_text].
Qed.

Lemma cookie_pair_entries_line l :
  Forall clean_cookie l -> cookie_pair_entries (cookie_line l) = l.
Proof.
  apply entries_cookie_line;
    [done | apply cookie_pair_entry_space | apply cookie_pair_entry_text].
Qed.

End CookieFacts.

Section CookieOption.
Import GoStrings Regexp Patterns Reference Parser.

Lemma run_cookie_flag {A} fl cs rest (k : list string -> string -> option A) x :
  fl = "-b" \/ fl = "--cookie" -> k cs rest = Some x ->
  run cookie_flag cs (fl +:+ rest) k = Some x.
Proof.
  intros [-> | ->] Hk; unfold cookie_flag; rewrite run_Alt, !run_Lit;
    by rewrite ?strip_prefix_app, ?Hk.
Qed.

Lemma match_here_cookie_quoted fl sp v rest :
  fl = "-b" \/ fl = "--cookie" -> blank sp = true -> has_byte squote v = false ->
  exists g0,
    match_here cookieSingleQuoteRegex (fl +:+ sp +:+ String squote (v +:+ String squote rest))
    = Some ([g0; v], rest).
Proof.
  intros Hfl Hsp Hv%all_bytes_no_byte.
  unfold match_here, cookieSingleQuoteRegex. cbn [prog NumSubexp replicate Seq].
  remember (fl +:+ sp +:+ String squote (v +:+ String squote rest)) as s0 eqn:Es0.
  fold (final s0). eexists. rewrite Es0 at 1.
  rewrite run_Cat. apply run_cookie_flag; [done |].
  rewrite run_Cat. apply run_ws_blank; [done | done |].
  rewrite (run_quoted1 s0) by done. reflexivity.
Qed.

Lemma extractCookieFromParams_quoted fl pre sp v rest :
  fl = "-b" \/ fl = "--cookie" -> has_byte "-" pre = false -> blank sp = true ->
  has_byte squote v = false ->
  extractCookieFromParams (pre +:+ fl +:+ sp +:+ String squote (v +:+ String squote rest))
  = v.
Proof.
  intros Hfl Hpre Hsp Hv.
  destruct (match_here_cookie_quoted fl sp v rest Hfl Hsp Hv) as [g0 Hm].
  unfold extractCookieFromParams, FindStringSubmatch.
  rewrite find_skip; [| apply dash_led_Cat, dash_led_cookie_flag | done].
  by rewrite find_eq, Hm.
Qed.

Lemma cookie_line_nonempty p l : cookie_line (p :: l) <> EmptyString.
Proof.
  unfold cookie_line. cbn [map]. destruct (map cookie_text l) as [|y l'];
    [| rewrite Join_cons]; unfold cookie_text; destruct p as [[|c k] v]; done.
Qed.

Lemma Parse_cookies curlCommand r :
  Parse curlCommand = Some r ->
  extractCookieFromParams curlCommand <> EmptyString ->
  RawCookie r = extractCookieFromParams curlCommand
  /\ forall k, ParsedCookies r !! k = last_value k (cookie_entries (RawCookie r)).
Proof.
  intros (u & _ & _ & _ & _ & _ & _ & _ & _ & Hraw & Hparsed)%Parse_fields Hne.
  assert (Hr : RawCookie r = extractCookieFromParams curlCommand).
  { rewrite Hraw. unfold cookie_source.
    apply nonempty_true in Hne. by rewrite Hne. }
  split; [done |]. intros k.
  rewrite Hparsed, parse_cookies_lookup, lookup_empty.
  by destruct (last_value k _).
Qed.

End CookieOption.

Section OriginShape.
Import GoStrings Regexp Patterns Reference Parser.

Lemma unescape_slash p path :
  URL.unescape URL.encodePath (String "/" p) = Some path ->
  exists p', path = String "/" p'.
Proof.
  cbn. destruct (URL.unescape URL.encodePath p) as [p'|]; [| done].
  intros [= <-]. eauto.
Qed.

(** the scheme of a parsed address, and how its path starts *)
Lemma parse_scheme_path sch t url :
  sch = "http" \/ sch = "https" ->
  URL.parse (sch +:+ "://" +:+ t) = Some url ->
  URL.Scheme url = sch
  /\ (URL.Path url = EmptyString \/ HasPrefix (URL.Path url) "/" = true).
Proof.
  intros Hsch H. unfold URL.parse in H.
  destruct (URL.stringContainsCTLByte _); [done |].
  assert (Hstar : String.eqb (sch +:+ "://" +:+ t) "*" = false)
    by (by destruct Hsch as [-> | ->]).
  rewrite Hstar in H.
  assert (Hget : URL.getScheme (sch +:+ "://" +:+ t) = Some (sch, "//" +:+ t))
    by (by destruct Hsch as [-> | ->]).
  rewrite Hget in H. cbn [mbind option_bind] in H.
  assert (Hlow : ToLower sch = sch) by (by destruct Hsch as [-> | ->]).
  rewrite Hlow in H.
  pose proof (query_split ("//" +:+ t)) as Hsplit.
  destruct (if HasSuffix ("//" +:+ t) "?" && Nat.eqb (Count ("//" +:+ t) "?") 1
            then (URL.drop_last ("//" +:+ t), true, EmptyString)
            else match Cut ("//" +:+ t) "?" with
                 | Some (b, a) => (b, false, a)
                 | None => ("//" +:+ t, false, EmptyString)
                 end) as [[rest force] rawQuery].
  rewrite (before_app_byte "//" t "?" eq_refl) in Hsplit. subst rest.
  set (t1 := before "?" t) in *.
  change (HasPrefix ("//" +:+ t1) "/") with true in H.
  change (HasPrefix ("//" +:+ t1) "//") with true in H.
  change (TrimPrefix ("//" +:+ t1) "//") with t1 in H.
  assert (Hne : String.eqb sch EmptyString = false)
    by (by destruct Hsch as [-> | ->]).
  rewrite Hne in H. cbn [negb andb orb] in H.
  destruct (Cut t1 "/") as [[authority p]|].
  - destruct (URL.parseAuthority authority) as [[user host]|]; [| done].
    cbn [mbind option_bind] in H.
    destruct (URL.unescape URL.encodePath ("/" +:+ p)) as [path|] eqn:Epath; [| done].
    cbn [mbind option_bind] in H. injection H as <-. cbn [URL.Scheme URL.Path].
    split; [done |]. right. by apply unescape_slash in Epath as [p' ->].
  - destruct (URL.parseAuthority t1) as [[user host]|]; [| done].
    cbn [mbind option_bind] in H. cbn [URL.unescape] in H.
    cbn [fmap option_fmap option_map mbind option_bind] in H.
    injection H as <-. cbn [URL.Scheme URL.Path]. by split; [| left].
Qed.

Lemma Parse_scheme_path sch t u :
  sch = "http" \/ sch = "https" ->
  URL.Parse (sch +:+ "://" +:+ t) = Some u ->
  URL.Scheme u = sch
  /\ (URL.Path u = EmptyString \/ HasPrefix (URL.Path u) "/" = true).
Proof.
  intros Hsch H. unfold URL.Parse in H.
  assert (Hcut : Cut (sch +:+ "://" +:+ t) "#" =
                 match Cut t "#" with
                 | Some (x, y) => Some (sch +:+ "://" +:+ x, y)
                 | None => None
                 end).
  { rewrite <- append_assoc.
    destruct Hsch as [-> | ->].
    - rewrite (Cut_app_byte ("http" +:+ "://") t "#" eq_refl).
      destruct (Cut t "#") as [[? ?]|]; [| done]. by rewrite append_assoc.
    - rewrite (Cut_app_byte ("https" +:+ "://") t "#" eq_refl).
      destruct (Cut t "#") as [[? ?]|]; [| done]. by rewrite append_assoc. }
  rewrite Hcut in H.
  destruct (Cut t "#") as [[x frag]|].
  - destruct (URL.parse (sch +:+ "://" +:+ x)) as [url|] eqn:Eu; [| done].
    cbn [mbind option_bind] in H.
    pose proof (parse_scheme_path sch x url Hsch Eu) as Hs.
    destruct (String.eqb frag EmptyString); [by injection H as <- |].
    destruct (URL.unescape URL.encodeFragment frag); [| done].
    cbn [mbind option_bind] in H. by injection H as <-.
  - destruct (URL.parse (sch +:+ "://" +:+ t)) as [url|] eqn:Eu; [| done].
    cbn [mbind option_bind String.eqb] in H. injection H as <-.
    by apply (parse_scheme_path sch t).
Qed.

Lemma scheme_before_colon sch t :
  sch = "http" \/ sch = "https" -> before ":" (sch +:+ "://" +:+ t) = sch.
Proof. by intros [-> | ->]. Qed.

Lemma Parse_origin_shape curlCommand r :
  Parse curlCommand = Some r ->
  match URL.Parse (URL r) with
  | Some u =>
      BaseURL r = before ":" (URL r) +:+ "://" +:+ URL.Host u
      /\ (Path r = EmptyString \/ HasPrefix (Path r) "/" = true)
  | None => BaseURL r = EmptyString /\ Path r = EmptyString /\ Query r = ∅
  end.
Proof.
  intros (a & Ha & -> & _ & _ & _ & Hq & Hb & Hp & _)%Parse_fields.
  rewrite extractURL_leftmost in Ha.
  apply leftmost_address_scheme in Ha as (sch & t & Hsch & ->).
  destruct (URL.Parse (sch +:+ "://" +:+ t)) as [u|] eqn:Eu.
  - destruct (set_origin_fields _ u Eu) as [Hb' Hp'].
    destruct (Parse_scheme_path sch t u Hsch Eu) as [Hs Hpath].
    by rewrite Hb, Hp, Hb', Hp', Hs, (scheme_before_colon sch t Hsch).
  - destruct (set_origin_unparsed _ Eu) as [Hb' Hp'].
    by rewrite Hb, Hp, Hb', Hp', Hq, extractQueryParams_unparsed.
Qed.

End OriginShape.

Section BodyMethod.
Import GoStrings Regexp Patterns Reference Parser.

Lemma strip_prefix_occurs s l t : strip_prefix s l = Some t -> occurs_in l s.
Proof.
  intros ->%strip_prefix_Some. exists EmptyString, t. by rewrite append_nil_l.
Qed.

(** a pattern that starts with one of two texts matches only where one of
    them stands *)
Lemma run_flags_occur {A} a b r2 cs s (k : list string -> string -> option A) x :
  run (Cat (Alt (Lit a) (Lit b)) r2) cs s k = Some x ->
  occurs_in a s \/ occurs_in b s.
Proof.
  rewrite run_Cat, run_Alt, !run_Lit.
  destruct (strip_prefix s a) as [t|] eqn:Ea; [left; by eapply strip_prefix_occurs |].
  destruct (strip_prefix s b) as [t|] eqn:Eb; [right; by eapply strip_prefix_occurs |].
  done.
Qed.

Lemma occurs_in_tail sub pre s : occurs_in sub s -> occurs_in sub (pre +:+ s).
Proof.
  intros (a & b & ->). exists (pre +:+ a), b. by rewrite !append_assoc.
Qed.

Lemma find_flags_occur a b r2 n s :
  find (MustCompile (Cat (Alt (Lit a) (Lit b)) r2) n) s <> None ->
  occurs_in a s \/ occurs_in b s.
Proof.
  destruct (find _ s) as [[[start cs] rest]|] eqn:E; [| done]. intros _.
  apply find_Some in E as (pre & -> & Hm). unfold match_here in Hm.
  cbn [prog] in Hm. apply run_flags_occur in Hm as [H | H]; [left | right];
    by apply occurs_in_tail.
Qed.

Lemma group1_find re s v : group1 re s = Some v -> find re s <> None.
Proof.
  unfold group1, FindStringSubmatch. by destruct (find re s) as [[[? ?] ?]|].
Qed.

Lemma find_raw_occurs s : find dataRawRegex s <> None -> occurs_in "--data" s.
Proof.
  destruct (find _ s) as [[[start cs] rest]|] eqn:E; [| done]. intros _.
  apply find_Some in E as (pre & -> & Hm). unfold match_here, dataRawRegex in Hm.
  cbn [prog Seq] in Hm. rewrite run_Cat, run_Lit in Hm.
  destruct (strip_prefix start "--data-raw") as [t|] eqn:Et; [| done].
  apply strip_prefix_Some in Et. subst start.
  exists pre, ("-raw" +:+ t). done.
Qed.

Lemma form_values_find cmd : form_values cmd <> [] -> find formRegex cmd <> None.
Proof.
  unfold form_values, FindAllStringSubmatch. cbn [find_all].
  by destruct (find formRegex cmd) as [[[? ?] ?]|].
Qed.

(** a body that is not empty comes from a data or a form option *)
Lemma extractBody_flag cmd :
  extractBody cmd <> EmptyString ->
  Contains cmd "--data" || Contains cmd "-d"
  || Contains cmd "--form" || Contains cmd "-F" = true.
Proof.
  rewrite extractBody_chain. intros H.
  assert (Hocc : occurs_in "--data" cmd \/ occurs_in "-d" cmd
                 \/ occurs_in "--form" cmd \/ occurs_in "-F" cmd).
  { destruct (group1 singleQuoteRegex cmd) as [v|] eqn:E1.
    { apply group1_find, find_flags_occur in E1. tauto. }
    destruct (group1 doubleQuoteRegex cmd) as [v|] eqn:E2.
    { apply group1_find, find_flags_occur in E2. tauto. }
    destruct (group1 dataRawRegex cmd) as [v|] eqn:E3.
    { apply group1_find, find_raw_occurs in E3. tauto. }
    destruct (group1 noQuoteRegex cmd) as [v|] eqn:E4.
    { apply group1_find, find_flags_occur in E4. tauto. }
    assert (Hf : form_values cmd <> []) by (by intros Hf; rewrite Hf in H).
    apply form_values_find, find_flags_occur in Hf. tauto. }
  rewrite !orb_true_iff, !Contains_occurs. tauto.
Qed.

End BodyMethod.

Section CleanTwice.
Import GoStrings Regexp Patterns Reference Parser.

Lemma clean_idempotent s : ParserV1.clean (ParserV1.clean s) = ParserV1.clean s.
Proof.
  apply clean_plain; [apply clean_no_backslash |].
  apply TrimSpace_id. unfold ParserV1.clean. apply TrimSpace_trimmed.
Qed.

End CleanTwice.

Section NoDash.
Import GoStrings Regexp Patterns Reference Parser.

Lemma needs_dash_find re s : needs_dash re -> has_byte "-" s = false -> find re s = None.
Proof. intros [H1 H2]. by apply find_no_dash. Qed.

Lemma needs_dash_submatch re s :
  needs_dash re -> has_byte "-" s = false -> FindStringSubmatch re s = [].
Proof. intros H Hs. unfold FindStringSubmatch. by rewrite needs_dash_find. Qed.

Lemma needs_dash_all re s :
  needs_dash re -> has_byte "-" s = false -> FindAllStringSubmatch re s = [].
Proof.
  intros H Hs. unfold FindAllStringSubmatch. cbn [find_all].
  by rewrite needs_dash_find.
Qed.

Lemma needs_dash_group1 re s :
  needs_dash re -> has_byte "-" s = false -> group1 re s = None.
Proof. intros H Hs. unfold group1. by rewrite needs_dash_submatch. Qed.

Lemma needs_dash_scalar_option re s :
  needs_dash re -> has_byte "-" s = false -> scalar_option re s = None.
Proof. intros H Hs. unfold scalar_option. by rewrite needs_dash_submatch. Qed.

Lemma needs_dash_Lit l r2 n :
  needs_dash (MustCompile (Cat (Lit (String "-" l)) r2) n).
Proof.
  split; [apply dash_led_Cat, dash_led_Lit |].
  unfold match_here. cbn [prog]. by rewrite run_Cat, run_Lit.
Qed.

Lemma needs_dash_Alt l1 l2 r2 n :
  needs_dash (MustCompile (Cat (Alt (Lit (String "-" l1)) (Lit (String "-" l2))) r2) n).
Proof.
  split; [apply dash_led_Cat, dash_led_Alt; apply dash_led_Lit |].
  unfold match_here. cbn [prog]. by rewrite run_Cat, run_Alt, !run_Lit.
Qed.

Lemma needs_dash_scalar o : needs_dash (scalar_regex o).
Proof. split; [apply dash_led_scalar | apply match_here_scalar_empty]. Qed.

Lemma Contains_dash s sub :
  has_byte "-" s = false -> Contains s (String "-" sub) = false.
Proof.
  intros Hs. destruct (Contains s (String "-" sub)) eqn:E; [| done].
  apply Contains_occurs in E as (a & b & ->).
  rewrite has_byte_app, append_cons in Hs. cbn [has_byte] in Hs.
  by rewrite orb_true_r in Hs.
Qed.

Lemma extractMethod_no_dash cmd : has_byte "-" cmd = false -> extractMethod cmd = "GET".
Proof.
  intros H. unfold extractMethod.
  rewrite (needs_dash_submatch methodRegex), (needs_dash_submatch requestRegex);
    try done; try apply needs_dash_Lit.
  by rewrite !Contains_dash.
Qed.

Lemma extractHeaders_no_dash cmd h :
  has_byte "-" cmd = false -> extractHeaders_into cmd h = h.
Proof.
  intros H. unfold extractHeaders_into.
  by rewrite (needs_dash_all headerRegex); [| apply needs_dash_Alt |].
Qed.

Lemma extractBody_no_dash cmd : has_byte "-" cmd = false -> extractBody cmd = EmptyString.
Proof.
  intros H. unfold extractBody.
  rewrite (needs_dash_submatch singleQuoteRegex), (needs_dash_submatch doubleQuoteRegex),
    (needs_dash_submatch dataRawRegex), (needs_dash_submatch noQuoteRegex),
    (needs_dash_all formRegex);
    try done; first [apply needs_dash_Alt | apply needs_dash_Lit].
Qed.

Lemma extractCookieFromParams_no_dash cmd :
  has_byte "-" cmd = false -> extractCookieFromParams cmd = EmptyString.
Proof.
  intros H. unfold extractCookieFromParams.
  rewrite (needs_dash_submatch cookieSingleQuoteRegex),
    (needs_dash_submatch cookieDoubleQuoteRegex),
    (needs_dash_submatch cookieNoQuoteRegex);
    try done; apply needs_dash_Alt.
Qed.

Lemma scalars_of_no_dash cmd :
  has_byte "-" cmd = false -> scalars_of cmd = scalars new_request.
Proof.
  intros H. unfold scalars_of.
  rewrite !(needs_dash_scalar_option _ cmd) by (done || apply (needs_dash_scalar SUserAgent)
    || apply (needs_dash_scalar SAuth) || apply (needs_dash_scalar SReferer)
    || apply (needs_dash_scalar SProxy) || apply (needs_dash_scalar SCACert)
    || apply (needs_dash_scalar SCookieJar)).
  rewrite (needs_dash_group1 connectTimeoutRegex), (needs_dash_group1 maxTimeRegex);
    try done; try apply needs_dash_Lit.
  by rewrite !Contains_dash.
Qed.

(** a command without any dash: the target and nothing else *)
Lemma Parse_no_dash s r :
  has_byte "-" s = false -> Parse s = Some r ->
  Method r = "GET" /\ Headers r = ∅ /\ Body r = EmptyString
  /\ RawCookie r = EmptyString /\ ParsedCookies r = ∅
  /\ scalars r = scalars new_request.
Proof.
  intros Hs HP. pose proof (command_text_no_dash s Hs) as Hc.
  pose proof (Parse_scalars s r HP) as Hsc.
  destruct (Parse_fields s r HP) as (u & _ & _ & Hm & Hh & Hb & _ & _ & _ & Hraw & Hp).
  rewrite extractHeaders_no_dash in Hh by done.
  assert (Hr : RawCookie r = EmptyString).
  { rewrite Hraw, Hh. unfold cookie_source.
    by rewrite extractCookieFromParams_no_dash. }
  rewrite Hm, Hb, Hp, Hr, Hsc, extractMethod_no_dash, extractBody_no_dash,
    scalars_of_no_dash by done.
  done.
Qed.

End NoDash.

Section Positional.
Import GoStrings Regexp Patterns Reference Parser.

(** in front of a text that starts with h, bytes without a colon do not
    start http:// or https:// *)
Lemma strip_scheme_behind c pre t scheme :
  scheme = "http://" \/ scheme = "https://" ->
  has_byte ":" (String c pre) = false ->
  strip_prefix (String c pre +:+ String "h" t) scheme = None.
Proof.
  intros [-> | ->] H;
    destruct pre as [|c1 [|c2 [|c3 [|c4 [|c5 pre]]]]];
    rewrite ?append_cons, ?append_nil_l; cbn [strip_prefix];
    repeat match goal with
           | |- context [Ascii.eqb ?a ?b] =>
               destruct (Ascii.eqb_spec a b); [subst |]; try done
           end;
    by vm_compute in H.
Qed.

Lemma address_at_behind c pre t :
  has_byte ":" (String c pre) = false ->
  address_at (String c pre +:+ String "h" t) = None.
Proof.
  intros H. unfold address_at, address_with.
  rewrite !strip_scheme_behind; auto.
Qed.

(** an address in front of which no colon stands is the leftmost one *)
Lemma leftmost_address_behind pre s a rest :
  has_byte ":" pre = false -> address_at s = Some (a, rest) ->
  leftmost_address (pre +:+ s) = Some a.
Proof.
  intros Hpre Hs. induction pre as [|c pre IH].
  - rewrite append_nil_l. destruct s; cbn [leftmost_address]; by rewrite Hs.
  - destruct (address_at_head s a rest Hs) as [t ->].
    rewrite append_cons. cbn [leftmost_address]. rewrite <- append_cons.
    rewrite address_at_behind by done.
    apply IH. cbn [has_byte] in Hpre. by apply orb_false_iff in Hpre as [_ ?].
Qed.

End Positional.

(** * Examples

    Commands of the test suite and of the specification, evaluated. *)

Section Examples.
Import GoStrings Regexp Patterns Reference Parser.

Lemma example_simple_get :
  (fun r => (Method r, URL r, BaseURL r, Path r, Body r, RawCookie r))
    <$> Parse "curl https://h.org/get"
  = Some ("GET", "https://h.org/get", "https://h.org", "/get", EmptyString, EmptyString).
Proof. vm_compute. reflexivity. Qed.

Lemma example_post_with_header :
  (fun r => (Method r, Body r, Headers r !! "Content-Type"))
    <$> Parse ("curl -X POST -d '{k:v}' -H " +:+ String dquote "Content-Type: application/json"
               +:+ String dquote " https://h.org/post")
  = Some ("POST", "{k:v}", Some "application/json").
Proof. vm_compute. reflexivity. Qed.

Lemma example_forms :
  (fun r => (Method r, Body r)) <$> Parse cmd_two_forms = Some ("POST", "a=1&b=2").
Proof. vm_compute. reflexivity. Qed.

Lemma example_cookie_option_wins :
  (fun r => (RawCookie r, ParsedCookies r !! "x", ParsedCookies r !! "y",
             ParsedCookies r !! "z", Headers r !! "Cookie"))
    <$> Parse cmd_cookie_and_header
  = Some ("x=1; y=2", Some "1", Some "2", None, Some "z=3").
Proof. vm_compute. reflexivity. Qed.

Lemma example_first_query_value :
  (fun r => (Query r !! "a", Query r !! "b")) <$> Parse cmd_plain
  = Some (Some "1", Some "3").
Proof. vm_compute. reflexivity. Qed.

Lemma example_timeouts :
  (fun r => (ConnectTimeout r, MaxTime r, Method r, Insecure r))
    <$> Parse "curl --connect-timeout 30 --max-time 60 https://h.org/delay/5"
  = Some (30%Z, 60%Z, "GET", false).
Proof. vm_compute. reflexivity. Qed.

Lemma example_multiline :
  (fun r => (Method r, URL r, Body r, Headers r !! "Content-Type"))
    <$> Parse ("curl -X POST \" +:+ String LF "  -H 'Content-Type: application/json' \"
               +:+ String LF "  -d '{k:v}' \" +:+ String LF "  https://httpbin.org/post")
  = Some ("POST", "https://httpbin.org/post", "{k:v}", Some "application/json").
Proof. vm_compute. reflexivity. Qed.

End Examples.

(** * The claims *)

Section Claims.
Import GoStrings Regexp Patterns Reference Parser.




(** C2, as stated, fails for [parser.go]: a command split behind -X by a
    continuation marker is parsed to another record than its joined form
    (the method is GET instead of POST), because the lines that clean the
    command are commented out. *)
Lemma C2_split_differs_from_joined :
  Method <$> Parse cmd_split = Some "GET"
  /\ Method <$> Parse (joined cmd_split) = Some "POST".
Proof. split; vm_compute; reflexivity. Qed.

(** C2, amended: the earlier parser cleans the command before any pattern
    is tried, so that the cleaned text holds no backslash and no white
    space at either end, and a command split by continuation markers is
    parsed to the same record as its joined form; [parser.go] cleans
    nothing, its passes read the command as it was given but for a
    leading curl. *)
Theorem C2_earlier_parser_joins_lines (s : string) :
  ParserV1.Parse s = ParserV1.Parse (joined s)
  /\ ParserV1.Parse s = shared <$> Parse (ParserV1.clean s)
  /\ has_byte "\" (ParserV1.clean s) = false
  /\ starts_with_space (ParserV1.clean s) = false
  /\ ends_with_space (ParserV1.clean s) = false
  /\ command_text s = TrimPrefix s "curl ".
Proof.
  split; [| split; [| split; [| split; [| split]]]].
  - by rewrite !ParseV1_clean, clean_joined.
  - apply ParseV1_clean.
  - apply clean_no_backslash.
  - apply TrimSpace_trimmed.
  - apply TrimSpace_trimmed.
  - apply command_text_TrimPrefix.
Qed.

(** C3, as stated, fails: with an earlier unquoted and a later quoted
    address the earlier, unquoted one is the target. *)
Lemma C3_earlier_unquoted_wins :
  exists r, Parse cmd_two_addresses = Some r
            /\ URL r = "http://a.com" /\ URL r <> "http://b.com".
Proof.
  destruct (Parse cmd_two_addresses) as [r|] eqn:E; [| by vm_compute in E].
  exists r. split; [done |].
  assert (H : URL <$> Parse cmd_two_addresses = Some "http://a.com")
    by (vm_compute; reflexivity).
  rewrite E in H. injection H as ->. done.
Qed.

(** C3, amended: the quotes of the first pattern are optional, so that it
    finds whatever the looser second pattern finds: the first pattern
    always decides, the second never does, and an address is not preferred
    for standing between quotes.  An address in front of which the command
    holds neither a dash (no option) nor a colon (no other address) is the
    target, quoted or not; so an unquoted address there wins over a quoted
    one behind it. *)
Theorem C3_quotes_do_not_decide_target (cmd : string) :
  extractURL cmd = group1 urlRegex cmd
  /\ group1 urlRegexLoose cmd = group1 urlRegex cmd
  /\ (forall pre s a rest,
        cmd = pre +:+ s ->
        has_byte "-" pre = false -> has_byte ":" pre = false ->
        address_at s = Some (a, rest) ->
        extractURL cmd = Some a).
Proof.
  split; [by rewrite extractURL_leftmost, group1_url |].
  split; [by rewrite group1_url, group1_loose |].
  intros pre s a rest -> _ Hcolon Hs.
  rewrite extractURL_leftmost. by apply (leftmost_address_behind pre s a rest).
Qed.

Lemma C3_witness :
  extractURL (command_text cmd_two_addresses) = Some "http://a.com"
  /\ extractURL (command_text cmd_quoted_first) = Some "http://b.com".
Proof.
  split.
  - apply (proj2 (proj2 (C3_quotes_do_not_decide_target (command_text cmd_two_addresses)))
             EmptyString "http://a.com 'http://b.com'" "http://a.com" " 'http://b.com'");
      vm_compute; reflexivity.
  - apply (proj2 (proj2 (C3_quotes_do_not_decide_target (command_text cmd_quoted_first)))
             "'" "http://b.com' http://a.com" "http://b.com" "' http://a.com");
      vm_compute; reflexivity.
Defined.

(** C4, as stated, fails: a command without any option whose host name
    holds the two bytes -d gets the method POST. *)
Lemma C4_dash_in_host_is_POST :
  String.words cmd_dash_in_host = ["curl"; "https://my-domain.com/"]
  /\ Method <$> Parse cmd_dash_in_host = Some "POST".
Proof. split; vm_compute; reflexivity. Qed.

(** C4, amended: the method is the upper-cased word (letters, digits,
    underscores) behind the leftmost -X that white space and such a word
    follow; without one, the same for --request; without either, POST when
    the text of the command holds --data, -d, --form or -F anywhere, also
    inside another word; GET otherwise. *)
Theorem C4_method_precedence (cmd : string) (r : HTTPRequest) :
  Parse cmd = Some r ->
  Method r =
  match flag_word "-X" cls_w (command_text cmd) with
  | Some w => ToUpper w
  | None =>
      match flag_word "--request" cls_w (command_text cmd) with
      | Some w => ToUpper w
      | None =>
          if Contains (command_text cmd) "--data" || Contains (command_text cmd) "-d"
             || Contains (command_text cmd) "--form" || Contains (command_text cmd) "-F"
          then "POST" else "GET"
      end
  end.
Proof.
  intros (u & _ & _ & Hm & _)%Parse_fields.
  by rewrite Hm, extractMethod_flag_word.
Qed.

Lemma C4_witness :
  exists r, Parse cmd_plain = Some r /\ Method r = "GET".
Proof.
  destruct (Parse cmd_plain) as [r|] eqn:E; [| by vm_compute in E].
  exists r. split; [done |].
  rewrite (C4_method_precedence cmd_plain r E). vm_compute. reflexivity.
Defined.








(** C8, as stated, fails: the target of this command has the query a=1,
    and the record has no query parameter at all, because the target does
    not parse as an address (its path holds a broken escape). *)
Lemma C8_unparsed_target_has_no_params :
  (fun r => (URL r, Query r !! "a")) <$> Parse cmd_bad_escape
  = Some ("https://h.org/%zz?a=1", None).
Proof. vm_compute. reflexivity. Qed.

(** C8, amended: when the target parses as an address, every key is mapped
    to the first value it has among the pieces of the query that the query
    parser accepts (pieces between ampersands, cut at their first equals
    sign and decoded; pieces with a semicolon or a broken escape are
    dropped); when the target does not parse, the mapping is empty. *)
Theorem C8_first_query_value (cmd : string) (r : HTTPRequest) :
  Parse cmd = Some r ->
  match URL.Parse (URL r) with
  | Some u => forall k, Query r !! k = first_value k (query_entries (URL.RawQuery u))
  | None => Query r = ∅
  end.
Proof.
  intros (u & _ & -> & _ & _ & _ & Hq & _)%Parse_fields. rewrite Hq.
  destruct (URL.Parse u) as [p|] eqn:E.
  - intros k. by apply extractQueryParams_lookup.
  - by apply extractQueryParams_unparsed.
Qed.

Lemma C8_witness :
  exists r, Parse cmd_plain = Some r
            /\ Query r !! "a" = Some "1" /\ Query r !! "b" = Some "3".
Proof.
  destruct (Parse cmd_plain) as [r|] eqn:E; [| by vm_compute in E].
  exists r. split; [done |].
  pose proof (C8_first_query_value cmd_plain r E) as H.
  assert (Hu : URL r = "https://h.org/get?a=1&a=2&b=3").
  { assert (H' : URL <$> Parse cmd_plain = Some "https://h.org/get?a=1&a=2&b=3")
      by (vm_compute; reflexivity).
    rewrite E in H'. by injection H'. }
  rewrite Hu in H.
  destruct (URL.Parse "https://h.org/get?a=1&a=2&b=3") as [u|] eqn:Eu;
    [| by vm_compute in Eu].
  assert (Hq : URL.RawQuery u = "a=1&a=2&b=3").
  { assert (H' : URL.RawQuery <$> URL.Parse "https://h.org/get?a=1&a=2&b=3"
                 = Some "a=1&a=2&b=3") by (vm_compute; reflexivity).
    rewrite Eu in H'. by injection H'. }
  split; rewrite H, Hq; vm_compute; reflexivity.
Defined.

(** C9, as stated, fails: the target parses, and origin followed by path
    is not the target up to its query string, because the path is kept
    decoded. *)
Lemma C9_escaped_path_is_decoded :
  (fun r => (BaseURL r +:+ Path r, up_to_query (URL r),
             match URL.Parse (URL r) with Some _ => true | None => false end))
    <$> Parse cmd_escaped_path
  = Some ("https://h.org/a b", "https://h.org/a%20b", true).
Proof. vm_compute. reflexivity. Qed.

(** C9, amended: when the target parses as an address, BaseURL is its
    scheme, ://, and its host (the authority without user information,
    decoded) and Path is its decoded path; when the target holds no
    percent sign and no at sign, BaseURL followed by Path is the target up
    to its first question mark or hash. *)
Theorem C9_origin_and_path (cmd : string) (r : HTTPRequest) (u : URL.URL) :
  Parse cmd = Some r ->
  URL.Parse (URL r) = Some u ->
  BaseURL r = URL.Scheme u +:+ "://" +:+ URL.Host u
  /\ Path r = URL.Path u
  /\ (has_byte "%" (URL r) = false -> has_byte "@" (URL r) = false ->
      BaseURL r +:+ Path r = up_to_query (URL r)).
Proof.
  intros (a & Ha & -> & _ & _ & _ & _ & Hb & Hp & _)%Parse_fields Hu.
  destruct (set_origin_fields a u Hu) as [Hb' Hp'].
  rewrite Hb, Hp, Hb', Hp'. split; [done |]. split; [done |].
  intros Hpercent Hat.
  rewrite extractURL_leftmost in Ha.
  apply leftmost_address_scheme in Ha as (sch & t & Hsch & ->).
  rewrite !has_byte_app in Hpercent, Hat.
  apply orb_false_iff in Hpercent as [_ [_ Hpercent]%orb_false_iff].
  apply orb_false_iff in Hat as [_ [_ Hat]%orb_false_iff].
  rewrite <- (Parse_origin sch t u Hsch Hu Hpercent Hat).
  by rewrite !append_assoc.
Qed.

Lemma C9_witness :
  exists r u, Parse cmd_plain = Some r /\ URL.Parse (URL r) = Some u
              /\ BaseURL r = URL.Scheme u +:+ "://" +:+ URL.Host u
              /\ Path r = URL.Path u.
Proof.
  destruct (Parse cmd_plain) as [r|] eqn:E; [| by vm_compute in E].
  assert (Hu : URL r = "https://h.org/get?a=1&a=2&b=3").
  { assert (H' : URL <$> Parse cmd_plain = Some "https://h.org/get?a=1&a=2&b=3")
      by (vm_compute; reflexivity).
    rewrite E in H'. by injection H'. }
  destruct (URL.Parse (URL r)) as [u|] eqn:Eu;
    [| by (rewrite Hu in Eu; vm_compute in Eu)].
  exists r, u. split; [done |]. split; [done |].
  destruct (C9_origin_and_path cmd_plain r u E Eu) as (H1 & H2 & _). by split.
Defined.

(** C10, as stated, fails: a backslash inside http:// makes [parser.go]
    fail where the earlier parser, which drops backslashes, succeeds, and
    a backslash inside the path gives the two parsers different targets. *)
Lemma C10_parsers_disagree :
  (Parse cmd_backslash_in_scheme = None
   /\ ParserV1.URL <$> ParserV1.Parse cmd_backslash_in_scheme = Some "http://h.org")
  /\ (URL <$> Parse cmd_backslash_in_path = Some "https://h.org/a\b"
      /\ ParserV1.URL <$> ParserV1.Parse cmd_backslash_in_path = Some "https://h.org/ab").
Proof. repeat split; vm_compute; reflexivity. Qed.

(** C10, amended: on every input without a backslash and without white
    space to trim at its ends the two parsers fail together, and where
    they succeed the fields both records have are equal. *)
Theorem C10_parsers_agree_on_clean_input (s : string) :
  has_byte "\" s = false ->
  TrimSpace s = s ->
  ParserV1.Parse s = shared <$> Parse s.
Proof.
  intros Hb Ht. by rewrite ParseV1_clean, clean_plain.
Qed.

Lemma C10_witness :
  has_byte "\" cmd_plain = false /\ TrimSpace cmd_plain = cmd_plain
  /\ ParserV1.Parse cmd_plain = shared <$> Parse cmd_plain.
Proof.
  assert (Hb : has_byte "\" cmd_plain = false) by (vm_compute; reflexivity).
  assert (Ht : TrimSpace cmd_plain = cmd_plain) by (vm_compute; reflexivity).
  split; [exact Hb |]. split; [exact Ht |].
  exact (C10_parsers_agree_on_clean_input cmd_plain Hb Ht).
Defined.

End Claims.

(** * Further properties of the parser

    The scalar options, the shape of the fields, what appending text to a
    command does, and the cookie loop of the earlier parser. *)

Section Extras.
Import GoStrings Regexp Patterns Reference Parser.

(** X1: the text of every scalar option (user agent, credentials, referer,
    proxy, CA certificate, cookie jar) is stored trimmed: it has no white
    space at either end, whatever the command holds. *)
Theorem X1_scalar_texts_are_trimmed (cmd : string) (r : HTTPRequest) (o : scalar) :
  Parse cmd = Some r -> trimmed (scalar_field o r).
Proof.
  intros H. rewrite (Parse_scalar_field cmd r o H). apply scalar_default_trimmed.
Qed.

Lemma X1_witness :
  exists r, Parse cmd_padded_agent = Some r /\ trimmed (UserAgent r).
Proof.
  destruct (Parse cmd_padded_agent) as [r|] eqn:E; [| by vm_compute in E].
  exists r. split; [done |].
  exact (X1_scalar_texts_are_trimmed cmd_padded_agent r SUserAgent E).
Defined.

(** X2: when no dash stands in front of it, the first flag of a scalar
    option that is followed by white space and a value between single or
    double quotes decides the field: it is that value, trimmed, and
    nothing behind the closing quote matters (the first occurrence wins). *)
Theorem X2_quoted_scalar_value (o : scalar) (fl pre sp : string) (q : ascii)
    (v rest : string) (r : HTTPRequest) :
  In fl (spellings o) -> has_byte "-" pre = false -> blank sp = true ->
  q = squote \/ q = dquote -> has_byte q v = false ->
  Parse (pre +:+ fl +:+ sp +:+ String q (v +:+ String q rest)) = Some r ->
  scalar_field o r = TrimSpace v.
Proof.
  intros Hfl Hpre Hsp Hq Hv HP.
  rewrite (Parse_scalar_at o fl pre _ r Hfl HP).
  apply scalar_option_quoted; try done. by apply command_text_no_dash.
Qed.

Lemma X2_witness :
  exists r, Parse cmd_padded_agent = Some r /\ UserAgent r = "Mozilla/5.0".
Proof.
  destruct (Parse cmd_padded_agent) as [r|] eqn:E; [| by vm_compute in E].
  exists r. split; [done |].
  assert (H : UserAgent r = TrimSpace " Mozilla/5.0 ").
  { apply (X2_quoted_scalar_value SUserAgent "-A" "curl http://h.org " " " squote
             " Mozilla/5.0 " " -H 'a: b'" r);
      [by left | reflexivity | reflexivity | by left | reflexivity | exact E]. }
  rewrite H. vm_compute. reflexivity.
Defined.

(** X3: an unquoted value of a scalar option is made of the words behind
    the flag, with the white space between them, up to the end of the
    text, to white space and a dash or, for the options that stop there,
    to white space and http:// or https://.  For the referer and the proxy
    an address is a word like any other, so that a target behind the
    option becomes part of its value. *)
Theorem X3_unquoted_scalar_value (o : scalar) (fl pre sp w : string)
    (ps : list (string * string)) (f : follower) (r : HTTPRequest) :
  In fl (spellings o) -> has_byte "-" pre = false -> blank sp = true ->
  first_word w = true -> Forall (fun p => later_word o p = true) ps ->
  follower_ok o f = true ->
  Parse (pre +:+ fl +:+ sp +:+ w +:+ more_words ps +:+ follower_text f) = Some r ->
  scalar_field o r = TrimSpace (w +:+ more_words ps).
Proof.
  intros Hfl Hpre Hsp Hw Hps Hf HP.
  rewrite (Parse_scalar_at o fl pre _ r Hfl HP).
  apply scalar_option_unquoted; try done. by apply command_text_no_dash.
Qed.

Lemma X3_witness :
  exists r, Parse cmd_proxy_then_target = Some r
            /\ URL r = "http://p.org:8080"
            /\ Proxy r = "http://p.org:8080 http://h.org/x".
Proof.
  destruct (Parse cmd_proxy_then_target) as [r|] eqn:E; [| by vm_compute in E].
  exists r. split; [done |]. split.
  - assert (H : URL <$> Parse cmd_proxy_then_target = Some "http://p.org:8080")
      by (vm_compute; reflexivity).
    rewrite E in H. by injection H.
  - assert (H : Proxy r = TrimSpace ("http://p.org:8080" +:+ more_words [(" ", "http://h.org/x")])).
    { apply (X3_unquoted_scalar_value SProxy "--proxy" "curl " " " "http://p.org:8080"
               [(" ", "http://h.org/x")] AtEnd r);
        [by left | reflexivity | reflexivity | reflexivity
        | by repeat constructor | reflexivity | exact E]. }
    rewrite H. vm_compute. reflexivity.
Defined.



(** X5: each timeout is the decimal value of the run of digits behind the
    leftmost place where its flag, white space and a digit stand; it is
    zero without such a place and when the value does not fit a 64-bit
    integer.  It is never negative. *)
Theorem X5_timeouts (cmd : string) (r : HTTPRequest) :
  Parse cmd = Some r ->
  ConnectTimeout r
  = timeout_value (flag_word "--connect-timeout" cls_d (command_text cmd))
  /\ MaxTime r = timeout_value (flag_word "--max-time" cls_d (command_text cmd))
  /\ (0 <= ConnectTimeout r <= 9223372036854775807)%Z
  /\ (0 <= MaxTime r <= 9223372036854775807)%Z.
Proof.
  intros [Hc Hm]%Parse_timeouts. rewrite Hc, Hm.
  repeat split; apply timeout_value_range.
Qed.

Lemma X5_witness :
  exists r, Parse cmd_timeouts = Some r
            /\ ConnectTimeout r = 30%Z /\ MaxTime r = 0%Z.
Proof.
  destruct (Parse cmd_timeouts) as [r|] eqn:E; [| by vm_compute in E].
  exists r. split; [done |].
  destruct (X5_timeouts cmd_timeouts r E) as (Hc & Hm & _).
  rewrite Hc, Hm. split; vm_compute; reflexivity.
Defined.

(** X6: the two switches are set by substring tests on the whole command:
    Insecure exactly when it holds --insecure, FollowRedirects exactly when
    it holds -L or --location, wherever the text stands.  A target that
    holds such a text therefore sets the switch. *)
Theorem X6_switches_by_substring (cmd : string) (r : HTTPRequest) :
  Parse cmd = Some r ->
  Insecure r = Contains (command_text cmd) "--insecure"
  /\ FollowRedirects r
     = Contains (command_text cmd) "-L" || Contains (command_text cmd) "--location"
  /\ (Contains (URL r) "--insecure" = true -> Insecure r = true)
  /\ (Contains (URL r) "-L" = true -> FollowRedirects r = true).
Proof.
  intros HP. destruct (Parse_switches cmd r HP) as [Hi Hf].
  pose proof (Parse_URL_occurs cmd r HP) as Hu.
  split; [done |]. split; [done |]. split.
  - intros H%Contains_occurs. rewrite Hi. apply Contains_occurs.
    by apply (occurs_in_trans _ (URL r)).
  - intros H%Contains_occurs. rewrite Hf. apply orb_true_iff. left.
    apply Contains_occurs. by apply (occurs_in_trans _ (URL r)).
Qed.

Lemma X6_witness :
  exists r, Parse cmd_switch_in_target = Some r /\ FollowRedirects r = true.
Proof.
  destruct (Parse cmd_switch_in_target) as [r|] eqn:E; [| by vm_compute in E].
  exists r. split; [done |].
  destruct (X6_switches_by_substring cmd_switch_in_target r E) as (_ & _ & _ & H).
  apply H.
  assert (Hu : URL <$> Parse cmd_switch_in_target = Some "http://h.org/-L")
    by (vm_compute; reflexivity).
  rewrite E in Hu. injection Hu as ->. vm_compute. reflexivity.
Defined.

(** X7: a command that parses still parses with any text appended; the
    target starts where it did and can only grow, it stays the same when
    the appended text starts with white space or a quote; and a switch
    that was set stays set. *)
Theorem X7_appending_keeps_target (a b : string) (r : HTTPRequest) :
  Parse a = Some r ->
  exists r',
    Parse (a +:+ b) = Some r'
    /\ (exists x, URL r' = URL r +:+ x)
    /\ (no_address_byte_ahead b -> URL r' = URL r)
    /\ (Insecure r = true -> Insecure r' = true)
    /\ (FollowRedirects r = true -> FollowRedirects r' = true).
Proof.
  intros HP.
  destruct (Parse_fields a r HP) as (u & Hu & Hurl & _).
  rewrite extractURL_leftmost in Hu.
  pose proof (leftmost_address_length _ _ Hu) as Hlen.
  assert (Hcmd : command_text (a +:+ b) = command_text a +:+ b)
    by (apply command_text_extend; lia).
  destruct (leftmost_address_extend _ _ b Hu) as (x & Hx & Hsame).
  destruct (Parse (a +:+ b)) as [r'|] eqn:HP'.
  - exists r'. split; [done |].
    destruct (Parse_fields _ r' HP') as (u' & Hu' & Hurl' & _).
    rewrite extractURL_leftmost, Hcmd, Hx in Hu'. injection Hu' as <-.
    destruct (Parse_switches a r HP) as [Hi Hf].
    destruct (Parse_switches _ r' HP') as [Hi' Hf'].
    rewrite Hurl, Hurl', Hi, Hf, Hi', Hf', Hcmd.
    split; [by exists x |]. split.
    + intros Hb. by rewrite (Hsame Hb), append_nil_r.
    + split; [apply Contains_app_l |].
      intros [H | H]%orb_true_iff; apply orb_true_iff; [left | right];
        by apply Contains_app_l.
  - apply Parse_None in HP'. by rewrite extractURL_leftmost, Hcmd, Hx in HP'.
Qed.

Lemma X7_witness :
  exists r r', Parse cmd_insecure = Some r
               /\ Parse (cmd_insecure +:+ " -d x") = Some r'
               /\ URL r' = URL r /\ Insecure r' = true.
Proof.
  destruct (Parse cmd_insecure) as [r|] eqn:E; [| by vm_compute in E].
  destruct (X7_appending_keeps_target cmd_insecure " -d x" r E)
    as (r' & HP' & _ & Hsame & Hi & _).
  exists r, r'. split; [done |]. split; [done |].
  split; [by apply Hsame |]. apply Hi.
  assert (H : Insecure <$> Parse cmd_insecure = Some true) by (vm_compute; reflexivity).
  rewrite E in H. by injection H.
Defined.

(** X8: the method of a parsed command is never empty and is made of
    upper-case letters, digits and underscores only. *)
Theorem X8_method_shape (cmd : string) (r : HTTPRequest) :
  Parse cmd = Some r ->
  Method r <> EmptyString /\ all_bytes method_byte (Method r) = true.
Proof.
  intros (u & _ & _ & Hm & _)%Parse_fields. rewrite Hm.
  apply extractMethod_shape.
Qed.

Lemma X8_witness :
  exists r, Parse cmd_lower_method = Some r
            /\ Method r = "PATCH" /\ all_bytes method_byte (Method r) = true.
Proof.
  destruct (Parse cmd_lower_method) as [r|] eqn:E; [| by vm_compute in E].
  exists r. split; [done |].
  destruct (X8_method_shape cmd_lower_method r E) as [_ H]. split; [| exact H].
  assert (Hm : Method <$> Parse cmd_lower_method = Some "PATCH")
    by (vm_compute; reflexivity).
  rewrite E in Hm. by injection Hm.
Defined.

(** X9: the target of a parsed command is http:// or https:// followed by
    at least one byte, none of its bytes behind the scheme is white space
    or a quote, and it stands in the command as it is. *)
Theorem X9_target_shape (cmd : string) (r : HTTPRequest) :
  Parse cmd = Some r ->
  (exists scheme b,
     (scheme = "http://" \/ scheme = "https://")
     /\ URL r = scheme +:+ b /\ b <> EmptyString /\ all_bytes url_byte b = true)
  /\ occurs_in (URL r) (command_text cmd).
Proof.
  intros HP. split; [| by apply Parse_URL_occurs].
  destruct (Parse_fields cmd r HP) as (u & Hu & -> & _).
  rewrite extractURL_leftmost in Hu. by apply leftmost_address_shape in Hu.
Qed.

Lemma X9_witness :
  exists r, Parse cmd_plain = Some r /\ occurs_in (URL r) (command_text cmd_plain).
Proof.
  destruct (Parse cmd_plain) as [r|] eqn:E; [| by vm_compute in E].
  exists r. split; [done |]. exact (proj2 (X9_target_shape cmd_plain r E)).
Defined.

(** X10: every name in the header mapping is trimmed and holds no colon,
    and every value is trimmed. *)
Theorem X10_header_shape (cmd : string) (r : HTTPRequest) (k v : string) :
  Parse cmd = Some r -> Headers r !! k = Some v ->
  trimmed k /\ trimmed v /\ has_byte ":" k = false.
Proof.
  intros (u & _ & _ & _ & Hh & _)%Parse_fields. rewrite Hh.
  apply extractHeaders_shape.
Qed.

Lemma X10_witness :
  exists r, Parse cmd_three_headers = Some r
            /\ Headers r !! "Content-Type" = Some "application/json"
            /\ trimmed "application/json".
Proof.
  destruct (Parse cmd_three_headers) as [r|] eqn:E; [| by vm_compute in E].
  exists r. split; [done |].
  assert (H : (fun r => Headers r !! "Content-Type") <$> Parse cmd_three_headers
              = Some (Some "application/json")) by (vm_compute; reflexivity).
  rewrite E in H. injection H as H. split; [exact H |].
  exact (proj1 (proj2 (X10_header_shape cmd_three_headers r _ _ E H))).
Defined.

(** X11: every name in the cookie mapping is trimmed and holds neither an
    equals sign nor a semicolon, every value is trimmed and holds no
    semicolon, and there are parsed cookies only with a raw cookie text. *)
Theorem X11_cookie_shape (cmd : string) (r : HTTPRequest) (k v : string) :
  Parse cmd = Some r -> ParsedCookies r !! k = Some v ->
  trimmed k /\ trimmed v /\ has_byte "=" k = false
  /\ has_byte ";" k = false /\ has_byte ";" v = false
  /\ RawCookie r <> EmptyString.
Proof.
  intros (u & _ & _ & _ & _ & _ & _ & _ & _ & _ & Hp)%Parse_fields. rewrite Hp.
  intros H. destruct (parse_cookies_shape _ _ _ H) as (H1 & H2 & H3 & H4 & H5).
  split; [exact H1 |]. split; [exact H2 |]. split; [exact H3 |].
  split; [exact H4 |]. split; [exact H5 |].
  intros Hraw. by rewrite Hraw in H.
Qed.

Lemma X11_witness :
  exists r, Parse cmd_cookie_and_header = Some r
            /\ ParsedCookies r !! "y" = Some "2" /\ RawCookie r <> EmptyString.
Proof.
  destruct (Parse cmd_cookie_and_header) as [r|] eqn:E; [| by vm_compute in E].
  exists r. split; [done |].
  assert (H : (fun r => ParsedCookies r !! "y") <$> Parse cmd_cookie_and_header
              = Some (Some "2")) by (vm_compute; reflexivity).
  rewrite E in H. injection H as H. split; [exact H |].
  by destruct (X11_cookie_shape cmd_cookie_and_header r _ _ E H)
    as (_ & _ & _ & _ & _ & ?).
Defined.

(** X12: the query that the parameters are read from is the text of the
    target behind its first question mark, taken from what stands in front
    of its first hash; a target without question mark has no parameters. *)
Theorem X12_query_text (cmd : string) (r : HTTPRequest) :
  Parse cmd = Some r ->
  (forall u, URL.Parse (URL r) = Some u -> URL.RawQuery u = query_text (URL r))
  /\ (has_byte "?" (URL r) = false -> Query r = ∅).
Proof.
  intros HP. split.
  - intros u. by apply (Parse_query_text cmd).
  - by apply (Parse_no_query cmd).
Qed.

Lemma X12_witness :
  exists r u, Parse cmd_query_behind_hash = Some r
              /\ URL.Parse (URL r) = Some u /\ URL.RawQuery u = EmptyString.
Proof.
  destruct (Parse cmd_query_behind_hash) as [r|] eqn:E; [| by vm_compute in E].
  assert (Hu : URL r = "http://h.org/p#f?x=1").
  { assert (H' : URL <$> Parse cmd_query_behind_hash = Some "http://h.org/p#f?x=1")
      by (vm_compute; reflexivity).
    rewrite E in H'. by injection H'. }
  destruct (URL.Parse (URL r)) as [u|] eqn:Eu;
    [| by (rewrite Hu in Eu; vm_compute in Eu)].
  exists r, u. split; [done |]. split; [done |].
  rewrite (proj1 (X12_query_text cmd_query_behind_hash r E) u Eu), Hu.
  vm_compute. reflexivity.
Defined.

(** X13: the word curl and a space in front of a command change nothing:
    the command parses to the same result with and without them. *)
Theorem X13_leading_curl_is_optional (s : string) :
  HasPrefix s "curl " = false -> Parse ("curl " +:+ s) = Parse s.
Proof. apply Parse_curl. Qed.

Lemma X13_witness :
  HasPrefix "https://h.org/get?a=1&a=2&b=3" "curl " = false
  /\ Parse cmd_plain = Parse "https://h.org/get?a=1&a=2&b=3".
Proof.
  assert (H : HasPrefix "https://h.org/get?a=1&a=2&b=3" "curl " = false)
    by reflexivity.
  split; [exact H |].
  exact (X13_leading_curl_is_optional "https://h.org/get?a=1&a=2&b=3" H).
Defined.

(** X14: the earlier parser removes every backslash before it reads the
    command, so that no backslash is left in the target, the method, the
    body, or any header name or value it returns. *)
Theorem X14_earlier_parser_drops_backslashes (s : string) (r : ParserV1.HTTPRequest) :
  ParserV1.Parse s = Some r ->
  has_byte "\" (ParserV1.URL r) = false
  /\ has_byte "\" (ParserV1.Method r) = false
  /\ has_byte "\" (ParserV1.Body r) = false
  /\ (forall k v, ParserV1.Headers r !! k = Some v ->
        has_byte "\" k = false /\ has_byte "\" v = false).
Proof.
  rewrite ParseV1_text. unfold parse_text.
  pose proof (command_textV1_backslash s) as Hc.
  destruct (extractURL (ParserV1.command_text s)) as [u|] eqn:Eu; [| done].
  intros [= <-]. cbn [ParserV1.URL ParserV1.Method ParserV1.Body ParserV1.Headers].
  split; [by apply (extractURL_free _ _ _ Hc Eu) |].
  split; [by apply extractMethod_backslash |].
  split; [by apply extractBody_backslash |].
  intros k v. by apply extractHeaders_free.
Qed.

Lemma X14_witness :
  exists r, ParserV1.Parse cmd_escaped_quote = Some r
            /\ has_byte "\" (ParserV1.Body r) = false
            /\ ParserV1.URL r = "http://h.org/ab".
Proof.
  destruct (ParserV1.Parse cmd_escaped_quote) as [r|] eqn:E; [| by vm_compute in E].
  exists r. split; [done |].
  destruct (X14_earlier_parser_drops_backslashes cmd_escaped_quote r E) as (_ & _ & H & _).
  split; [exact H |].
  assert (Hu : ParserV1.URL <$> ParserV1.Parse cmd_escaped_quote = Some "http://h.org/ab")
    by (vm_compute; reflexivity).
  rewrite E in Hu. by injection Hu.
Defined.

(** X15: [parseCookieString] maps every name to what the last piece with
    that name gives, and leaves the other names of the mapping it was
    given as they are; a piece is cut at its first equals sign, and a
    piece without one that is not empty gives its name the empty value. *)
Theorem X15_parseCookieString_last_piece_wins (cookieStr : string)
    (cookies : gmap string string) (k : string) :
  ParserV1.parseCookieString cookieStr cookies !! k =
  match last_value k (cookie_pair_entries cookieStr) with
  | Some v => Some v
  | None => cookies !! k
  end.
Proof. apply parseCookieString_lookup. Qed.

(** X16: on a cookie text whose pieces between semicolons are blank or
    hold an equals sign, [parseCookieString] of the earlier parser and the
    cookie loop of [extractCookies] give the same mapping. *)
Theorem X16_cookie_loops_agree (cookieStr : string) (cookies : gmap string string) :
  (forall piece, In piece (Split cookieStr ";") ->
     TrimSpace piece = EmptyString \/ Contains (TrimSpace piece) "=" = true) ->
  ParserV1.parseCookieString cookieStr cookies = parse_cookies cookieStr cookies.
Proof. apply parseCookieString_parse_cookies. Qed.

Lemma X16_witness :
  ParserV1.parseCookieString "x=1; y=2; x=3" ∅ = parse_cookies "x=1; y=2; x=3" ∅.
Proof.
  apply X16_cookie_loops_agree. intros piece Hin. vm_compute in Hin.
  destruct Hin as [<- | [<- | [<- | []]]]; right; vm_compute; reflexivity.
Defined.

(** X17: a cookie option with its value between single quotes and no dash
    in front of it is read back as it was written: the raw cookie is
    the text between the quotes, and when that text is a list of names and
    values (trimmed, without semicolon, the names without equals sign)
    written as name=value and joined with a semicolon and a space, every
    name is mapped to the value of its last pair. *)
Theorem X17_cookie_line_round_trip (fl pre sp rest : string)
    (l : list (string * string)) (r : HTTPRequest) :
  fl = "-b" \/ fl = "--cookie" -> has_byte "-" pre = false -> blank sp = true ->
  Forall clean_cookie l -> l <> [] ->
  has_byte squote (cookie_line l) = false ->
  Parse (pre +:+ fl +:+ sp +:+ String squote (cookie_line l +:+ String squote rest))
  = Some r ->
  RawCookie r = cookie_line l
  /\ forall k, ParsedCookies r !! k = last_value k l.
Proof.
  intros Hfl Hpre Hsp Hl Hne Hq HP.
  pose proof (extractCookieFromParams_quoted fl pre sp (cookie_line l) rest
                Hfl Hpre Hsp Hq) as Hopt.
  assert (Hline : cookie_line l <> EmptyString).
  { destruct l as [|p l']; [done | apply cookie_line_nonempty]. }
  destruct (Parse_cookies _ r HP) as [Hraw Hparsed]; [by rewrite Hopt |].
  rewrite Hopt in Hraw. split; [done |].
  intros k. by rewrite Hparsed, Hraw, cookie_entries_line.
Qed.

Lemma X17_witness :
  exists r, Parse cmd_cookie_line = Some r
            /\ RawCookie r = "x=1; y=2; x=3"
            /\ ParsedCookies r !! "x" = Some "3".
Proof.
  destruct (Parse cmd_cookie_line) as [r|] eqn:E; [| by vm_compute in E].
  exists r. split; [done |].
  assert (Hclean : Forall clean_cookie [("x", "1"); ("y", "2"); ("x", "3")]).
  { repeat constructor; vm_compute; reflexivity. }
  destruct (X17_cookie_line_round_trip "-b" "curl http://h.org " " " EmptyString
              [("x", "1"); ("y", "2"); ("x", "3")] r)
    as [Hraw Hparsed];
    [by left | reflexivity | reflexivity | exact Hclean | done | reflexivity
    | exact E |].
  split; [exact Hraw |]. rewrite Hparsed. vm_compute. reflexivity.
Defined.

(** X18: when the target does not parse as an address, BaseURL and Path
    are empty and there are no parameters, and [Parse] still returns the
    record; when it parses, BaseURL is the scheme of the target as it is
    written, ://, and the host, and Path is empty or starts with a slash. *)
Theorem X18_origin_shape (cmd : string) (r : HTTPRequest) :
  Parse cmd = Some r ->
  match URL.Parse (URL r) with
  | Some u =>
      BaseURL r = before ":" (URL r) +:+ "://" +:+ URL.Host u
      /\ (Path r = EmptyString \/ HasPrefix (Path r) "/" = true)
  | None => BaseURL r = EmptyString /\ Path r = EmptyString /\ Query r = ∅
  end.
Proof. apply Parse_origin_shape. Qed.

Lemma X18_witness :
  exists r, Parse cmd_bad_escape = Some r
            /\ URL.Parse (URL r) = None
            /\ BaseURL r = EmptyString /\ Path r = EmptyString.
Proof.
  destruct (Parse cmd_bad_escape) as [r|] eqn:E; [| by vm_compute in E].
  assert (Hu : URL r = "https://h.org/%zz?a=1").
  { assert (H' : URL <$> Parse cmd_bad_escape = Some "https://h.org/%zz?a=1")
      by (vm_compute; reflexivity).
    rewrite E in H'. by injection H'. }
  assert (Hp : URL.Parse (URL r) = None) by (rewrite Hu; vm_compute; reflexivity).
  exists r. split; [done |]. split; [exact Hp |].
  pose proof (X18_origin_shape cmd_bad_escape r E) as H.
  rewrite Hp in H. by destruct H as (? & ? & _).
Defined.

(** X19: a body that is not empty makes the command a POST unless -X or
    --request gives the method: whatever gives a body also holds one of the
    texts the method inference looks for. *)
Theorem X19_body_implies_post (cmd : string) (r : HTTPRequest) :
  Parse cmd = Some r -> Body r <> EmptyString ->
  flag_word "-X" cls_w (command_text cmd) = None ->
  flag_word "--request" cls_w (command_text cmd) = None ->
  Method r = "POST".
Proof.
  intros (u & _ & _ & Hm & _ & Hb & _)%Parse_fields Hne HX Hreq.
  rewrite Hb in Hne. apply extractBody_flag in Hne.
  by rewrite Hm, extractMethod_flag_word, HX, Hreq, Hne.
Qed.

Lemma X19_witness :
  exists r, Parse cmd_two_forms = Some r /\ Body r = "a=1&b=2" /\ Method r = "POST".
Proof.
  destruct (Parse cmd_two_forms) as [r|] eqn:E; [| by vm_compute in E].
  assert (Hb : Body r = "a=1&b=2").
  { assert (H' : Body <$> Parse cmd_two_forms = Some "a=1&b=2")
      by (vm_compute; reflexivity).
    rewrite E in H'. by injection H'. }
  exists r. split; [done |]. split; [exact Hb |].
  apply (X19_body_implies_post cmd_two_forms r E);
    [by rewrite Hb | vm_compute; reflexivity | vm_compute; reflexivity].
Defined.

(** X20: the cleaning of the earlier parser is idempotent, and a command
    that was cleaned already parses to what the command as it was given
    parses to. *)
Theorem X20_cleaning_is_idempotent (s : string) :
  ParserV1.clean (ParserV1.clean s) = ParserV1.clean s
  /\ ParserV1.Parse (ParserV1.clean s) = ParserV1.Parse s.
Proof.
  split; [apply clean_idempotent |].
  by rewrite (ParseV1_clean (ParserV1.clean s)), clean_idempotent, <- ParseV1_clean.
Qed.

(** X21: a command without any dash is a plain GET of its target: no
    header, no body, no cookie, and every scalar option at its zero value. *)
Theorem X21_command_without_dash (s : string) (r : HTTPRequest) :
  has_byte "-" s = false -> Parse s = Some r ->
  Method r = "GET" /\ Headers r = ∅ /\ Body r = EmptyString
  /\ RawCookie r = EmptyString /\ ParsedCookies r = ∅
  /\ scalars r = scalars new_request.
Proof. apply Parse_no_dash. Qed.

Lemma X21_witness :
  exists r, Parse cmd_plain = Some r /\ Method r = "GET" /\ Headers r = ∅.
Proof.
  destruct (Parse cmd_plain) as [r|] eqn:E; [| by vm_compute in E].
  exists r. split; [done |].
  destruct (X21_command_without_dash cmd_plain r eq_refl E) as (Hm & Hh & _).
  by split.
Defined.

End Extras.
